(** * aff3ct: port framework, frame-batch decode contract and the
      multi-kernel SC polar decoder

    A shallow embedding of
      - [src/Module/Task.cpp]                      (module [TaskM]),
      - [src/Module/Decoder/Decoder.hpp]           (module [DecoderI]),
      - [src/Module/Decoder/Polar_MK/SC/Decoder_polar_MK_SC_naive.cpp]
                                                    (module [PolarMK]),
    together with the properties the specification states about them.

    Conventions.  C++ exceptions are values of [exception]; a function that
    can throw returns a sum whose left side is the exception.  Machine
    integers are [Z]; the only counter whose wrap-around is defined by the
    language and that the properties read, the [uint32_t] call counter, is
    reduced modulo 2^32 explicitly.  Vectors are lists, [v[i]] is
    [nth i v d]; an in-place write [v[i] = x] is the list update
    [<[i:=x]> v]. *)

From Stdlib Require Import ZArith Lia Bool List.
From stdpp Require Import base decidable option list gmap strings.

Local Open Scope Z_scope.

(** The exception classes thrown by the embedded code
    ([tools::...] and [std::...] alike). *)
Inductive exception : Type :=
| invalid_argument
| length_error
| runtime_error
| unimplemented_error
| codelet_exception (code : Z).

Global Instance exception_eq_dec : EqDecision exception.
Proof. solve_decision. Defined.

(* ===================================================================== *)
(** * [Task]: sockets, gating and instrumentation ([Task.cpp])          *)
(* ===================================================================== *)

Module TaskM.

(** [Socket_type] of [Task.hpp]. *)
Inductive Socket_type : Type := IN | IN_OUT | OUT.

(** A buffer pointer: either into the task's own [out_buffers] or a caller
    supplied address; [None] is [nullptr]. *)
Inductive pointer : Type :=
| own_buffer (slot : nat)
| external (addr : Z).

(** [Socket]: name, element size ([sizeof(T)]), byte size and data pointer.
    A socket is created with a null data pointer. *)
Record Socket : Type := mkSocket {
  get_name          : string;
  get_datatype_size : Z;
  get_databytes     : Z;
  dataptr           : option pointer
}.

Definition set_dataptr (s : Socket) (p : option pointer) : Socket :=
  mkSocket (get_name s) (get_datatype_size s) (get_databytes s) p.

(** What one call of the codelet does: it returns a status or throws. *)
Inductive outcome : Type :=
| Returns (status : Z)
| Throws (e : exception).

Section Task.

(** [W] is everything the codelet can touch outside of the task object
    (the bound buffers, the module's algorithm state): the codelet is a
    [std::function<int(void)>] closed over it. *)
Context {W : Type}.

Record Task : Type := mkTask {
  name            : string;
  autoalloc       : bool;
  autoexec        : bool;
  stats           : bool;
  debug           : bool;
  debug_limit     : Z;
  debug_precision : Z;
  codelet         : W -> outcome * W;
  n_calls         : Z;               (* uint32_t *)
  duration_total  : Z;               (* nanoseconds *)
  duration_min    : Z;
  duration_max    : Z;
  socket          : list Socket;
  socket_type     : gmap string Socket_type;
  out_buffers     : list (list Z)    (* vector<vector<uint8_t>> *)
}.

Definition uint32 (z : Z) : Z := z mod 2 ^ 32.

(** The constructor: the default codelet throws [unimplemented_error]. *)
Definition Task_new (name : string) (autoalloc autoexec stats debug : bool) : Task :=
  mkTask name autoalloc autoexec stats debug (-1) 2
         (fun w => (Throws unimplemented_error, w))
         0 0 0 0 [] ∅ [].

Definition with_sockets (t : Task) (ss : list Socket) : Task :=
  mkTask (name t) (autoalloc t) (autoexec t) (stats t) (debug t) (debug_limit t)
         (debug_precision t) (codelet t) (n_calls t) (duration_total t)
         (duration_min t) (duration_max t) ss (socket_type t) (out_buffers t).

Definition with_socket_type (t : Task) (m : gmap string Socket_type) : Task :=
  mkTask (name t) (autoalloc t) (autoexec t) (stats t) (debug t) (debug_limit t)
         (debug_precision t) (codelet t) (n_calls t) (duration_total t)
         (duration_min t) (duration_max t) (socket t) m (out_buffers t).

Definition with_out_buffers (t : Task) (bs : list (list Z)) : Task :=
  mkTask (name t) (autoalloc t) (autoexec t) (stats t) (debug t) (debug_limit t)
         (debug_precision t) (codelet t) (n_calls t) (duration_total t)
         (duration_min t) (duration_max t) (socket t) (socket_type t) bs.

Definition with_stats_values (t : Task) (n tot mn mx : Z) : Task :=
  mkTask (name t) (autoalloc t) (autoexec t) (stats t) (debug t) (debug_limit t)
         (debug_precision t) (codelet t) n tot mn mx
         (socket t) (socket_type t) (out_buffers t).

(** [Task::create_codelet]. *)
Definition create_codelet (t : Task) (c : W -> outcome * W) : Task :=
  mkTask (name t) (autoalloc t) (autoexec t) (stats t) (debug t) (debug_limit t)
         (debug_precision t) c (n_calls t) (duration_total t)
         (duration_min t) (duration_max t) (socket t) (socket_type t) (out_buffers t).

(** [Task::set_stats]. *)
Definition set_stats (t : Task) (b : bool) : Task :=
  mkTask (name t) (autoalloc t) (autoexec t) b (debug t) (debug_limit t)
         (debug_precision t) (codelet t) (n_calls t) (duration_total t)
         (duration_min t) (duration_max t) (socket t) (socket_type t) (out_buffers t).

(** [for (auto &s : socket) if (s.get_name() == name) throw ...] *)
Definition name_exists (ss : list Socket) (nm : string) : bool :=
  existsb (fun s => bool_decide (get_name s = nm)) ss.

(** [Task::create_socket<T>]: [sizeof_T] stands for the template argument.
    On success the new socket is the last one ([socket.back()]). *)
Definition create_socket (t : Task) (sizeof_T : Z) (nm : string) (n_elmts : Z)
  : exception + Task :=
  if bool_decide (nm = EmptyString) then inl runtime_error
  else if name_exists (socket t) nm then inl runtime_error
  else inr (with_sockets t
              (socket t ++ [mkSocket nm sizeof_T (n_elmts * sizeof_T) None])).

(** [Task::create_socket_in<T>]. *)
Definition create_socket_in (t : Task) (sizeof_T : Z) (nm : string) (n_elmts : Z)
  : exception + Task :=
  match create_socket t sizeof_T nm n_elmts with
  | inl e => inl e
  | inr t' => inr (with_socket_type t' (<[nm := IN]> (socket_type t')))
  end.

(** [Task::create_socket_in_out<T>]. *)
Definition create_socket_in_out (t : Task) (sizeof_T : Z) (nm : string) (n_elmts : Z)
  : exception + Task :=
  match create_socket t sizeof_T nm n_elmts with
  | inl e => inl e
  | inr t' => inr (with_socket_type t' (<[nm := IN_OUT]> (socket_type t')))
  end.

(** The last socket gets a pointer to a fresh buffer pushed on
    [out_buffers]. *)
Definition alloc_back (t : Task) : Task :=
  match List.rev (socket t) with
  | [] => t
  | s :: front =>
      let t1 := with_out_buffers t
                  (out_buffers t ++ [List.repeat 0 (Z.to_nat (get_databytes s))]) in
      with_sockets t1
        (List.rev front ++ [set_dataptr s (Some (own_buffer (length (out_buffers t))))])
  end.

(** [Task::create_socket_out<T>]. *)
Definition create_socket_out (t : Task) (sizeof_T : Z) (nm : string) (n_elmts : Z)
  : exception + Task :=
  match create_socket t sizeof_T nm n_elmts with
  | inl e => inl e
  | inr t' =>
      let t1 := with_socket_type t' (<[nm := OUT]> (socket_type t')) in
      inr (if autoalloc t1 then alloc_back t1 else t1)
  end.

(** Binding a socket to a caller's buffer ([Socket::bind], declared in
    [Socket.hpp]): the data pointer of the socket called [nm] becomes
    non-null. *)
Definition bind (t : Task) (nm : string) (addr : Z) : Task :=
  with_sockets t
    (List.map (fun s => if bool_decide (get_name s = nm)
                        then set_dataptr s (Some (external addr)) else s)
              (socket t)).

(** [Task::can_exec]. *)
Definition can_exec (t : Task) : bool :=
  forallb (fun s => bool_decide (dataptr s <> None)) (socket t).

(** [Task::exec].  [duration] is the time the two [steady_clock::now()]
    calls measure around the codelet; a thrown exception leaves the
    function at the point of the codelet call.  The debug printing only
    writes to [std::cout] and is not part of the state. *)
Definition exec (t : Task) (w : W) (duration : Z) : (exception + Z) * Task * W :=
  if can_exec t then
    if stats t then
      match codelet t w with
      | (Throws e, w') => (inl e, t, w')
      | (Returns exec_status, w') =>
          let total := duration_total t + duration in
          let t1 :=
            if bool_decide (n_calls t <> 0)
            then with_stats_values t (n_calls t) total
                   (Z.min (duration_min t) duration) (Z.max (duration_max t) duration)
            else with_stats_values t (n_calls t) total duration duration in
          (inr exec_status,
           with_stats_values t1 (uint32 (n_calls t1 + 1)) (duration_total t1)
             (duration_min t1) (duration_max t1),
           w')
      end
    else
      match codelet t w with
      | (Throws e, w') => (inl e, t, w')
      | (Returns exec_status, w') =>
          (inr exec_status,
           with_stats_values t (uint32 (n_calls t + 1)) (duration_total t)
             (duration_min t) (duration_max t),
           w')
      end
  else (inl runtime_error, t, w).

(** [Task::reset_stats] (the registered sub-phase timers are not modelled). *)
Definition reset_stats (t : Task) : Task := with_stats_values t 0 0 0 0.

Definition with_autoalloc (t : Task) (b : bool) : Task :=
  mkTask (name t) b (autoexec t) (stats t) (debug t) (debug_limit t)
         (debug_precision t) (codelet t) (n_calls t) (duration_total t)
         (duration_min t) (duration_max t) (socket t) (socket_type t) (out_buffers t).

(** [Task::operator[]]: the first socket called [nm], or [runtime_error]
    when the loop finds none. *)
Definition operator_brackets (t : Task) (nm : string) : exception + Socket :=
  match List.find (fun s => bool_decide (get_name s = nm)) (socket t) with
  | Some s => inr s
  | None => inl runtime_error
  end.

(** [Task::get_socket_type]: the entry of [socket_type] under the socket's
    name. *)
Definition get_socket_type (t : Task) (s : Socket) : exception + Socket_type :=
  match socket_type t !! get_name s with
  | Some ty => inr ty
  | None => inl runtime_error
  end.

(** The loop of [set_autoalloc(false)]: the sockets are visited in order
    and written in place, so a throw of [get_socket_type] leaves the ones
    before it changed. *)
Fixpoint release_outs (t : Task) (ss : list Socket) : option exception * list Socket :=
  match ss with
  | [] => (None, [])
  | s :: rest =>
      match get_socket_type t s with
      | inl e => (Some e, s :: rest)
      | inr ty =>
          let s' := match ty with OUT => set_dataptr s None | _ => s end in
          let '(e, rest') := release_outs t rest in
          (e, s' :: rest')
      end
  end.

(** The loop of [set_autoalloc(true)]: every [OUT] socket gets a buffer of
    its own, pushed on [out_buffers] ([bufs]). *)
Fixpoint allocate_outs (t : Task) (ss : list Socket) (bufs : list (list Z))
  : option exception * list Socket * list (list Z) :=
  match ss with
  | [] => (None, [], bufs)
  | s :: rest =>
      match get_socket_type t s with
      | inl e => (Some e, s :: rest, bufs)
      | inr OUT =>
          let '(e, rest', bufs') :=
            allocate_outs t rest (bufs ++ [List.repeat 0 (Z.to_nat (get_databytes s))]) in
          (e, set_dataptr s (Some (own_buffer (length bufs))) :: rest', bufs')
      | inr _ =>
          let '(e, rest', bufs') := allocate_outs t rest bufs in
          (e, s :: rest', bufs')
      end
  end.

(** [Task::set_autoalloc]: the exception that ended the call, if any, and
    the task as the call left it. *)
Definition set_autoalloc (t : Task) (b : bool) : option exception * Task :=
  if negb (Bool.eqb b (autoalloc t)) then
    let t1 := with_autoalloc t b in
    if negb b then
      let t2 := with_out_buffers t1 [] in
      let '(e, ss) := release_outs t2 (socket t2) in
      (e, with_sockets t2 ss)
    else
      let '(e, ss, bufs) := allocate_outs t1 (socket t1) (out_buffers t1) in
      (e, with_out_buffers (with_sockets t1 ss) bufs)
  else (None, t).

(** The loop of [last_input_socket]: [last] is the position of the socket
    [last_s_in] points to, [i] the position of the socket visited. *)
Fixpoint last_input_position (t : Task) (ss : list Socket) (i : nat) (last : option nat)
  : exception + option nat :=
  match ss with
  | [] => inr last
  | s :: rest =>
      match get_socket_type t s with
      | inl e => inl e
      | inr OUT => last_input_position t rest (S i) last
      | inr _ => last_input_position t rest (S i) (Some i)
      end
  end.

(** [Task::last_input_socket(s_in)], comparing addresses: a socket of the
    task is identified by its position [s_in] in [socket]. *)
Definition last_input_socket (t : Task) (s_in : nat) : exception + bool :=
  match last_input_position t (socket t) 0 None with
  | inl e => inl e
  | inr None => inr false
  | inr (Some j) => inr (bool_decide (s_in = j))
  end.

(** [Task::get_duration_avg]: [duration_total / n_calls], an integer
    division that has no value when [n_calls] is 0. *)
Definition get_duration_avg (t : Task) : option Z :=
  if bool_decide (n_calls t = 0) then None
  else Some (Z.quot (duration_total t) (n_calls t)).

(** [exec] called once for each of the measured [durations], one call
    after the other: the results of the calls, the task and the world at
    the end. *)
Fixpoint exec_all (t : Task) (w : W) (durations : list Z)
  : list (exception + Z) * Task * W :=
  match durations with
  | [] => ([], t, w)
  | dur :: rest =>
      let '(r, t1, w1) := exec t w dur in
      let '(rs, t2, w2) := exec_all t1 w1 rest in
      (r :: rs, t2, w2)
  end.

(** The registered sub-phase timers of a task: the members
    [registered_duration], [registered_n_calls],
    [registered_duration_total], [registered_duration_min] and
    [registered_duration_max], held beside the [Task] record. *)
Record Registered : Type := mkRegistered {
  registered_duration       : list string;
  registered_n_calls        : gmap string Z;   (* uint32_t *)
  registered_duration_total : gmap string Z;
  registered_duration_min   : gmap string Z;
  registered_duration_max   : gmap string Z
}.

(** [m[key]] of a [std::map]: a missing key reads as a fresh 0. *)
Definition map_at (m : gmap string Z) (key : string) : Z := default 0 (m !! key).

(** [Task::register_duration]. *)
Definition register_duration (r : Registered) (key : string) : Registered :=
  mkRegistered (registered_duration r ++ [key])
               (<[key := 0]> (registered_n_calls r))
               (<[key := 0]> (registered_duration_total r))
               (<[key := 0]> (registered_duration_min r))
               (<[key := 0]> (registered_duration_max r)).

(** [Task::update_duration]: the test is on the call counter of the task
    itself. *)
Definition update_duration (t : Task) (r : Registered) (key : string) (duration : Z)
  : Registered :=
  let calls := <[key := uint32 (map_at (registered_n_calls r) key + 1)]>
                 (registered_n_calls r) in
  let total := <[key := map_at (registered_duration_total r) key + duration]>
                 (registered_duration_total r) in
  if bool_decide (n_calls t <> 0) then
    mkRegistered (registered_duration r) calls total
      (<[key := Z.min (map_at (registered_duration_min r) key) duration]>
         (registered_duration_min r))
      (<[key := Z.max (map_at (registered_duration_max r) key) duration]>
         (registered_duration_max r))
  else
    mkRegistered (registered_duration r) calls total
      (<[key := duration]> (registered_duration_min r))
      (<[key := duration]> (registered_duration_max r)).

(** The getters [get_registered_...(key)] read [find(key)->second], which
    has no value for a key that is not in the map. *)
Definition get_registered_n_calls (r : Registered) (key : string) : option Z :=
  registered_n_calls r !! key.
Definition get_registered_duration_total (r : Registered) (key : string) : option Z :=
  registered_duration_total r !! key.
Definition get_registered_duration_min (r : Registered) (key : string) : option Z :=
  registered_duration_min r !! key.
Definition get_registered_duration_max (r : Registered) (key : string) : option Z :=
  registered_duration_max r !! key.

(** The part of [Task::reset_stats] on the registered timers: every value
    of the four maps becomes 0. *)
Definition reset_registered (r : Registered) : Registered :=
  mkRegistered (registered_duration r)
               ((fun _ => 0) <$> registered_n_calls r)
               ((fun _ => 0) <$> registered_duration_total r)
               ((fun _ => 0) <$> registered_duration_min r)
               ((fun _ => 0) <$> registered_duration_max r).

(** Every socket of the task has an entry in [socket_type]:
    [get_socket_type] does not throw on it. *)
Definition typed (t : Task) : Prop :=
  Forall (fun s => exists ty, get_socket_type t s = inr ty) (socket t).

(** The socket's entry in [socket_type] is [OUT]. *)
Definition is_out (t : Task) (s : Socket) : bool :=
  match socket_type t !! get_name s with
  | Some OUT => true
  | _ => false
  end.

(** The measured durations of the calls of a run that returned. *)
Fixpoint returned_durations (rs : list (exception + Z)) (durations : list Z) : list Z :=
  match rs, durations with
  | inr _ :: rs', dur :: durations' => dur :: returned_durations rs' durations'
  | inl _ :: rs', _ :: durations' => returned_durations rs' durations'
  | _, _ => []
  end.

(** The four maps of the registered timers have the same keys, and every
    key listed in [registered_duration] is one of them. *)
Definition timers_consistent (r : Registered) : Prop :=
  dom (registered_duration_total r) = dom (registered_n_calls r)
  /\ dom (registered_duration_min r) = dom (registered_n_calls r)
  /\ dom (registered_duration_max r) = dom (registered_n_calls r)
  /\ Forall (fun key => key ∈ dom (registered_n_calls r)) (registered_duration r).

End Task.

Arguments Task : clear implicits.

(** A socket whose data pointer is not null. *)
Definition bound (s : Socket) : Prop := dataptr s <> None.

(** A task with an input and an (automatically allocated) output socket
    and a codelet that returns 0. *)
Definition sample_task : Task unit :=
  match create_socket_in
          (create_codelet (Task_new "decode" true false true false)
             (fun w => (Returns 0, w))) 4 "Y_N" 8 with
  | inl _ => Task_new "decode" true false true false
  | inr t1 =>
      match create_socket_out t1 4 "V_K" 4 with
      | inl _ => t1
      | inr t2 => t2
      end
  end.

End TaskM.

(* ===================================================================== *)
(** * [Decoder_i]: the frame-batch decode contract ([Decoder.hpp])       *)
(* ===================================================================== *)

Module DecoderI.

(** The pure virtual hooks of [Decoder_i<B,R>], over the state [St] of the
    concrete decoder.  LLRs ([R]) and bits ([B]) are integers.  [_store],
    [_store_fast] and [_unpack] are [const] members writing into the
    buffer they are given. *)
Class Decoder_impl (St : Type) : Type := {
  _load        : list Z -> St -> St;
  _hard_decode : St -> St;
  _store       : St -> list Z -> list Z;
  _store_fast  : St -> list Z -> list Z;
  _unpack      : St -> list Z -> list Z
}.

(** The defaults of the base class: [_store_fast(V) { _store(V); }] and
    [_unpack(V) {}]. *)
Definition default_impl {St : Type}
    (ld : list Z -> St -> St) (dec : St -> St) (st : St -> list Z -> list Z)
  : Decoder_impl St :=
  {| _load := ld; _hard_decode := dec; _store := st;
     _store_fast := st; _unpack := fun _ V => V |}.

(** [std::copy(first, first + n, dst + pos)] for in-range arguments. *)
Definition copy_to (src : list Z) (dst : list Z) (pos : nat) : list Z :=
  take pos dst ++ src ++ drop (pos + length src) dst.

(** The range [v.begin() + off, v.begin() + off + n). *)
Definition slice (v : list Z) (off n : nat) : list Z := take n (drop off v).

Section Decoder_i.

Context {St : Type} {impl : Decoder_impl St}.

(** [mipp::nElReg<R>()] and [mipp::nElReg<B>()]: the padding of the
    staging buffers (a property of the target's SIMD registers). *)
Variables (nElReg_R nElReg_B : nat).

Record Decoder_i : Type := mkDecoder {
  n_frames               : Z;
  n_dec_waves            : Z;
  n_inter_frame_rest     : Z;
  Y_N                    : list (list Z);
  V_N                    : list (list Z);
  K                      : Z;
  N                      : Z;
  simd_inter_frame_level : Z;
  state                  : St
}.

Definition with_state (d : Decoder_i) (s : St) : Decoder_i :=
  mkDecoder (n_frames d) (n_dec_waves d) (n_inter_frame_rest d) (Y_N d) (V_N d)
            (K d) (N d) (simd_inter_frame_level d) s.

Definition with_Y_N (d : Decoder_i) (y : list (list Z)) : Decoder_i :=
  mkDecoder (n_frames d) (n_dec_waves d) (n_inter_frame_rest d) y (V_N d)
            (K d) (N d) (simd_inter_frame_level d) (state d).

Definition with_V_N (d : Decoder_i) (v : list (list Z)) : Decoder_i :=
  mkDecoder (n_frames d) (n_dec_waves d) (n_inter_frame_rest d) (Y_N d) v
            (K d) (N d) (simd_inter_frame_level d) (state d).

(** [(int)std::ceil((float)a / (float)b)], exact for the frame counts in
    use (both below 2^24). *)
Definition ceil_div (a b : Z) : Z := (a + b - 1) / b.

(** The constructor.  The members are initialised before the body runs its
    checks; [Module]'s own constructor is outside of this file. *)
Definition Decoder_i_new (K N n_frames simd_inter_frame_level : Z) (st0 : St)
  : exception + Decoder_i :=
  let n_dec_waves := ceil_div n_frames simd_inter_frame_level in
  let n_inter_frame_rest := Z.rem n_frames simd_inter_frame_level in
  let Y := List.repeat
             (List.repeat 0 (Z.to_nat (simd_inter_frame_level * N) + nElReg_R))
             (Z.to_nat n_dec_waves) in
  let V := List.repeat
             (List.repeat 0 (Z.to_nat (simd_inter_frame_level * N) + nElReg_B))
             (Z.to_nat n_dec_waves) in
  if bool_decide (K <= 0) then inl invalid_argument
  else if bool_decide (N <= 0) then inl invalid_argument
  else if bool_decide (simd_inter_frame_level <= 0) then inl invalid_argument
  else if bool_decide (K > N) then inl invalid_argument
  else inr (mkDecoder n_frames n_dec_waves n_inter_frame_rest Y V
                      K N simd_inter_frame_level st0).

(** The result of a call that writes a caller's buffer: the exception that
    ended it, if any, and the buffer as the call left it. *)
Definition outcome : Type := option exception * list Z * Decoder_i.

(** [Decoder_i::load]. *)
Definition load (d : Decoder_i) (Y : list Z) : exception + Decoder_i :=
  if bool_decide (N d * simd_inter_frame_level d > Z.of_nat (length Y))
  then inl length_error
  else inr (with_state d (_load Y (state d))).

(** [Decoder_i::store]. *)
Definition store (d : Decoder_i) (V : list Z) : exception + list Z :=
  if bool_decide (K d * simd_inter_frame_level d > Z.of_nat (length V))
  then inl length_error
  else inr (_store (state d) V).

(** [Decoder_i::store_fast] and [Decoder_i::unpack]. *)
Definition store_fast (d : Decoder_i) (V : list Z) : list Z := _store_fast (state d) V.
Definition unpack (d : Decoder_i) (V : list Z) : list Z := _unpack (state d) V.

(** [Decoder_i::__hard_decode]: load, decode, store on one wave. *)
Definition __hard_decode (d : Decoder_i) (Y V : list Z)
    (do_load do_store do_store_fast do_unpack : bool) : outcome :=
  match (if do_load then load d Y else inr d) with
  | inl e => (Some e, V, d)
  | inr d1 =>
      let d2 := with_state d1 (_hard_decode (state d1)) in
      if do_store then
        if do_store_fast then
          let V1 := store_fast d2 V in
          (None, if do_unpack then unpack d2 V1 else V1, d2)
        else
          match store d2 V with
          | inl e => (Some e, V, d2)
          | inr V1 => (None, V1, d2)
          end
      else (None, V, d2)
  end.

(** The number of frames of wave [w]. *)
Definition n_frames_per_wave (d : Decoder_i) (w : nat) : Z :=
  if bool_decide (Z.of_nat w = n_dec_waves d - 1 /\ n_inter_frame_rest d <> 0)
  then n_inter_frame_rest d
  else simd_inter_frame_level d.

(** One iteration of the wave loop of [hard_decode]. *)
Definition wave (w : nat) (Y : list Z)
    (do_load do_store do_store_fast do_unpack : bool)
    (d : Decoder_i) (V_K : list Z) : outcome :=
  let nfpw := n_frames_per_wave d w in
  let d1 :=
    if do_load then
      let waves_off1 := Z.to_nat (Z.of_nat w * simd_inter_frame_level d * N d) in
      with_Y_N d (<[w := copy_to (slice Y waves_off1 (Z.to_nat (nfpw * N d)))
                                 (nth w (Y_N d) []) 0]> (Y_N d))
    else d in
  match __hard_decode d1 (nth w (Y_N d1) []) (nth w (V_N d1) [])
                      do_load do_store do_store_fast do_unpack with
  | (Some e, Vw, d2) => (Some e, V_K, with_V_N d2 (<[w := Vw]> (V_N d2)))
  | (None, Vw, d2) =>
      let d3 := with_V_N d2 (<[w := Vw]> (V_N d2)) in
      if do_store then
        if bool_decide (K d * n_frames d = Z.of_nat (length V_K)) then
          let waves_off2 := Z.to_nat (Z.of_nat w * simd_inter_frame_level d * K d) in
          (None, copy_to (slice Vw 0 (Z.to_nat (nfpw * K d))) V_K waves_off2, d3)
        else if bool_decide (N d * n_frames d = Z.of_nat (length V_K)) then
          let waves_off3 := Z.to_nat (Z.of_nat w * simd_inter_frame_level d * N d) in
          (None, copy_to (slice Vw 0 (Z.to_nat (nfpw * N d))) V_K waves_off3, d3)
        else (Some runtime_error, V_K, d3)
      else (None, V_K, d3)
  end.

(** [for (auto w = 0; w < n_dec_waves; w++)]: the loop stops at the first
    exception. *)
Fixpoint waves (ws : list nat) (Y : list Z)
    (do_load do_store do_store_fast do_unpack : bool)
    (d : Decoder_i) (V_K : list Z) : outcome :=
  match ws with
  | [] => (None, V_K, d)
  | w :: ws' =>
      match wave w Y do_load do_store do_store_fast do_unpack d V_K with
      | (Some e, V1, d1) => (Some e, V1, d1)
      | (None, V1, d1) => waves ws' Y do_load do_store do_store_fast do_unpack d1 V1
      end
  end.

(** [Decoder_i::hard_decode].  The three duration accumulators only record
    elapsed time and are left out. *)
Definition hard_decode (d : Decoder_i) (Y V_K : list Z)
    (do_load do_store do_store_fast do_unpack : bool) : outcome :=
  if bool_decide (N d * n_frames d <> Z.of_nat (length Y)) then (Some length_error, V_K, d)
  else if bool_decide (N d * n_frames d < Z.of_nat (length V_K)) then (Some length_error, V_K, d)
  else if bool_decide (n_dec_waves d = 1 /\ n_inter_frame_rest d = 0) then
    __hard_decode d Y V_K do_load do_store do_store_fast do_unpack
  else
    waves (seq 0 (Z.to_nat (n_dec_waves d))) Y
          do_load do_store do_store_fast do_unpack d V_K.

(** The buffer one wave leaves in its output staging vector, from the
    hooks [__hard_decode] calls: [st] is the state of the concrete decoder
    before the wave, [Yw] the input staging vector, [Vw] the output one. *)
Definition state_after (do_load : bool) (st : St) (Yw : list Z) : St :=
  _hard_decode (if do_load then _load Yw st else st).

Definition wave_output (do_load do_store do_store_fast do_unpack : bool)
    (st : St) (Yw Vw : list Z) : list Z :=
  let st' := state_after do_load st Yw in
  if do_store then
    if do_store_fast then
      if do_unpack then _unpack st' (_store_fast st' Vw) else _store_fast st' Vw
    else _store st' Vw
  else Vw.

(** The input staging vector of wave [w] once the wave's frames have been
    copied into it. *)
Definition staged (d : Decoder_i) (do_load : bool) (w : nat) (Y : list Z) : list Z :=
  if do_load then
    copy_to (slice Y (Z.to_nat (Z.of_nat w * simd_inter_frame_level d * N d))
                   (Z.to_nat (n_frames_per_wave d w * N d)))
            (nth w (Y_N d) []) 0
  else nth w (Y_N d) [].

(** What the constructor establishes and every call keeps. *)
Record wf (d : Decoder_i) : Prop := mk_wf {
  wf_K     : 0 < K d;
  wf_KN    : K d <= N d;
  wf_simd  : 0 < simd_inter_frame_level d;
  wf_waves : n_dec_waves d = ceil_div (n_frames d) (simd_inter_frame_level d);
  wf_rest  : n_inter_frame_rest d = Z.rem (n_frames d) (simd_inter_frame_level d);
  wf_Y_len : length (Y_N d) = Z.to_nat (n_dec_waves d);
  wf_V_len : length (V_N d) = Z.to_nat (n_dec_waves d);
  wf_Y     : Forall (fun y => length y
                              = (Z.to_nat (simd_inter_frame_level d * N d) + nElReg_R)%nat)
                    (Y_N d);
  wf_V     : Forall (fun v => length v
                              = (Z.to_nat (simd_inter_frame_level d * N d) + nElReg_B)%nat)
                    (V_N d)
}.

(** Two decoder objects with the same configuration. *)
Definition same_config (d d' : Decoder_i) : Prop :=
  n_frames d' = n_frames d /\ n_dec_waves d' = n_dec_waves d
  /\ n_inter_frame_rest d' = n_inter_frame_rest d
  /\ K d' = K d /\ N d' = N d
  /\ simd_inter_frame_level d' = simd_inter_frame_level d.

(** The decoder object after wave [w] of a call. *)
Definition after_wave (do_load do_store do_store_fast do_unpack : bool)
    (d : Decoder_i) (w : nat) (Y : list Z) : Decoder_i :=
  mkDecoder (n_frames d) (n_dec_waves d) (n_inter_frame_rest d)
    (if do_load then <[w := staged d do_load w Y]> (Y_N d) else Y_N d)
    (<[w := wave_output do_load do_store do_store_fast do_unpack (state d)
                        (staged d do_load w Y) (nth w (V_N d) [])]> (V_N d))
    (K d) (N d) (simd_inter_frame_level d)
    (state_after do_load (state d) (staged d do_load w Y)).

(** Where the results of wave [w] go in the caller's buffer when a frame
    takes [M] entries of it, and how many entries they are. *)
Definition wave_off (d : Decoder_i) (M : Z) (w : nat) : nat :=
  Z.to_nat (Z.of_nat w * simd_inter_frame_level d * M).
Definition wave_len (d : Decoder_i) (M : Z) (w : nat) : nat :=
  Z.to_nat (n_frames_per_wave d w * M).

(** The shape of the caller's buffer as the wave loop reads it: [K] entries
    per frame, else [N] entries per frame, else neither. *)
Definition unit_size (d : Decoder_i) (V_K : list Z) : option Z :=
  if bool_decide (K d * n_frames d = Z.of_nat (length V_K)) then Some (K d)
  else if bool_decide (N d * n_frames d = Z.of_nat (length V_K)) then Some (N d)
  else None.

(** The wave loop ended normally with buffer [V'] and decoder [d'], and
    in [V'] the results of every wave, [M] entries per frame taken from
    the front of the wave's staging vector, sit at the wave's offset. *)
Definition waves_copied (d : Decoder_i) (Y V : list Z)
    (do_load do_store_fast do_unpack : bool) (M : Z) (r : outcome) : Prop :=
  exists V' d',
    r = (None, V', d')
    /\ length V' = length V
    /\ forall w, (w < Z.to_nat (n_dec_waves d))%nat ->
         slice V' (wave_off d M w) (wave_len d M w)
         = take (wave_len d M w) (nth w (V_N d') [])
         /\ exists st, nth w (V_N d') []
                       = wave_output do_load true do_store_fast do_unpack st
                                     (staged d do_load w Y) (nth w (V_N d) []).

(** The single-frame path run once per frame, one call after the other on
    the same decoder object: the buffers the calls fill, or [None] when a
    call throws. *)
Fixpoint run_frames (d : Decoder_i) (frames : list (list Z)) (bufs : list (list Z))
  : option (list (list Z)) :=
  match frames, bufs with
  | f :: frames', b :: bufs' =>
      match hard_decode d f b true true false false with
      | (None, V, d') =>
          match run_frames d' frames' bufs' with
          | Some Vs => Some (V :: Vs)
          | None => None
          end
      | (Some _, _, _) => None
      end
  | [], [] => Some []
  | _, _ => None
  end.

End Decoder_i.

Arguments Decoder_i St : clear implicits.

(** The hooks write the buffer they are given in place: its length stays. *)
Class Lawful {St : Type} (impl : Decoder_impl St) : Prop := {
  store_length      : forall st V, length (_store st V) = length V;
  store_fast_length : forall st V, length (_store_fast st V) = length V;
  unpack_length     : forall st V, length (_unpack st V) = length V
}.

(** A decoder that absorbs [simd] frames per wave decodes each of them as
    the single frame decoder [frame_dec] would, whatever its state was
    before the load, and leaves the rest of the output buffer alone. *)
Class LaneWise {St : Type} (impl : Decoder_impl St) (K N simd : nat) : Type := {
  frame_dec        : list Z -> list Z;
  frame_dec_length : forall f, length f = N -> length (frame_dec f) = K;
  lane_law         : forall st Y V,
      (simd * N <= length Y)%nat -> (simd * K <= length V)%nat ->
      _store (_hard_decode (_load Y st)) V
      = List.concat (List.map (fun i => frame_dec (slice Y (i * N) N)) (seq 0 simd))
        ++ drop (simd * K) V
}.

(** A decoder object for [n] frames of [N] LLRs and [K] bits that absorbs
    two frames per wave. *)
Definition configured {St : Type} (nR nB : nat) (K0 N0 : nat) (n : Z)
    (d : Decoder_i St) : Prop :=
  wf nR nB d /\ n_frames d = n /\ simd_inter_frame_level d = 2
  /\ K d = Z.of_nat K0 /\ N d = Z.of_nat N0.

(** A decoder object for [n] frames of [N0] LLRs and [K0] bits that
    absorbs [simd] frames per wave. *)
Definition configured_for {St : Type} (nR nB : nat) (K0 N0 simd : nat) (n : Z)
    (d : Decoder_i St) : Prop :=
  wf nR nB d /\ n_frames d = n /\ simd_inter_frame_level d = Z.of_nat simd
  /\ K d = Z.of_nat K0 /\ N d = Z.of_nat N0.

(** A concrete decoder to run the contract on: the (2,1) repetition code,
    two frames per wave.  Its state is the loaded LLR vector; the decision
    for a frame is the sign of the sum of its two LLRs. *)
Definition rep_bit (y0 y1 : Z) : Z := Z.b2z (y0 + y1 <? 0).

Definition rep2_impl : Decoder_impl (list Z) :=
  default_impl (fun Y _ => Y) (fun st => st)
    (fun st V => <[1%nat := rep_bit (nth 2 st 0) (nth 3 st 0)]>
                   (<[0%nat := rep_bit (nth 0 st 0) (nth 1 st 0)]> V)).

#[global] Instance rep2_lawful : Lawful rep2_impl.
Proof.
  constructor; intros st V; simpl; by rewrite ?length_insert.
Qed.

#[global, refine] Instance rep2_lanewise : LaneWise rep2_impl 1 2 2 :=
  {| frame_dec := fun f => [rep_bit (nth 0 f 0) (nth 1 f 0)] |}.
Proof.
  - done.
  - intros st Y V HY HV.
    destruct Y as [|y0 [|y1 [|y2 [|y3 Y]]]]; simpl in HY; try lia.
    destruct V as [|v0 [|v1 V]]; simpl in HV; try lia.
    reflexivity.
Defined.

(** The decoder objects [Decoder_i(1, 2, n_frames, 2)] over it, without
    padding of the staging vectors. *)
Definition rep2_decoder (n_frames : Z) : Decoder_i (list Z) :=
  match Decoder_i_new 0 0 1 2 n_frames 2 [] with
  | inr d => d
  | inl _ => mkDecoder 0 0 0 [] [] 0 0 0 []
  end.

End DecoderI.

(* ===================================================================== *)
(** * [Decoder_polar_MK_SC_naive]: the multi-kernel SC decoder           *)
(* ===================================================================== *)

Module PolarMK.

(** What the decoder reads of [tools::Polar_code] (declared in
    [Tools/Code/Polar/Polar_code.hpp]): the values of its getters. *)
Record Polar_code : Type := mkCode {
  get_kernel_matrices     : list (list (list bool));
  get_stages              : list nat;
  get_codeword_size       : Z;
  is_mono_kernel          : bool;
  get_biggest_kernel_size : nat
}.

(** [Contents_MK_SC<B,R>]: LLRs [l], partial sums [s], the frozen flag and
    the stage.  LLRs are exact integers (the fixed-point instances of [R],
    without overflow); bits are the integers 0 and 1. *)
Record Contents_MK_SC : Type := mkContents {
  l             : list Z;
  s             : list Z;
  is_frozen_bit : bool;
  stage         : Z
}.

(** [Contents_MK_SC(size, stage)]. *)
Definition Contents_new (size : Z) (stage : Z) : Contents_MK_SC :=
  mkContents (List.repeat 0 (Z.to_nat size)) (List.repeat 0 (Z.to_nat size)) false stage.

Definition with_l (c : Contents_MK_SC) (v : list Z) : Contents_MK_SC :=
  mkContents v (s c) (is_frozen_bit c) (stage c).
Definition with_s (c : Contents_MK_SC) (v : list Z) : Contents_MK_SC :=
  mkContents (l c) v (is_frozen_bit c) (stage c).
Definition with_frozen (c : Contents_MK_SC) (b : bool) : Contents_MK_SC :=
  mkContents (l c) (s c) b (stage c).

(** [tools::Generic_node<T>]: the lane id, the contents and the owned
    children.  A tree whose contents pointers are all null is a
    [Generic_node unit]; once [recursive_allocate_nodes_contents] has run
    it is a [Generic_node Contents_MK_SC]. *)
#[local] Set Warnings "-register-all".
Inductive Generic_node (T : Type) : Type :=
| Node (lane_id : nat) (contents : T) (children : list (Generic_node T)).
Arguments Node {T} lane_id contents children.

Definition get_lane_id {T} (n : Generic_node T) : nat :=
  match n with Node i _ _ => i end.
Definition get_c {T} (n : Generic_node T) : T :=
  match n with Node _ c _ => c end.
Definition get_children {T} (n : Generic_node T) : list (Generic_node T) :=
  match n with Node _ _ cs => cs end.
Definition is_leaf {T} (n : Generic_node T) : bool :=
  match get_children n with [] => true | _ => false end.

(** Modelled from the spec: the constructor of [tools::Generic_tree]
    (declared in [Tools/Algo/Tree/Generic/Generic_tree.hpp]), which builds
    a tree of [depth] levels whose internal nodes all have [base] children
    and whose nodes carry their left-to-right position within their level
    as lane id.  [levels] counts the levels below the node. *)
Fixpoint create_nodes (levels : nat) (base : nat) (lane : nat) : Generic_node unit :=
  match levels with
  | O => Node lane tt []
  | S levels' =>
      Node lane tt
           (List.map (fun c => create_nodes levels' base (lane * base + c)) (seq 0 base))
  end.

Definition Generic_tree_new (depth : nat) (base : nat) : Generic_node unit :=
  create_nodes (depth - 1) base 0.

(** Modelled from the spec: [tools::h_LLR] (declared in
    [Tools/Math/utils.h]), the hard decision: a negative LLR gives 1,
    anything else 0. *)
Definition h_LLR (lambda_a : Z) : bool := lambda_a <? 0.

(** [std::signbit], [std::abs] and [std::min] on exact integers. *)
Definition signbit (x : Z) : bool := x <? 0.

Definition lambda : Type := list Z -> list Z -> Z.

(** The combine functions of the kernel {{1,0},{1,1}} (Arikan). *)
Definition lambdas_arikan : list lambda :=
  [ (fun LLRs bits =>
       let sign := xorb (signbit (nth 0 LLRs 0)) (signbit (nth 1 LLRs 0)) in
       let abs0 := Z.abs (nth 0 LLRs 0) in
       let abs1 := Z.abs (nth 1 LLRs 0) in
       let min := Z.min abs0 abs1 in
       if sign then - min else min);
    (fun LLRs bits =>
       (if bool_decide (nth 0 bits 0 = 0) then nth 0 LLRs 0 else - nth 0 LLRs 0)
       + nth 1 LLRs 0) ].

(** The combine functions of the kernel {{1,1,1},{1,0,1},{0,1,1}}. *)
Definition lambdas_t1 : list lambda :=
  [ (fun LLRs bits =>
       let sign := xorb (xorb (signbit (nth 0 LLRs 0)) (signbit (nth 1 LLRs 0)))
                        (signbit (nth 2 LLRs 0)) in
       let abs0 := Z.abs (nth 0 LLRs 0) in
       let abs1 := Z.abs (nth 1 LLRs 0) in
       let abs2 := Z.abs (nth 2 LLRs 0) in
       let min := Z.min (Z.min abs0 abs1) abs2 in
       if sign then - min else min);
    (fun LLRs bits =>
       let sign := xorb (signbit (nth 1 LLRs 0)) (signbit (nth 2 LLRs 0)) in
       let abs1 := Z.abs (nth 1 LLRs 0) in
       let abs2 := Z.abs (nth 2 LLRs 0) in
       let min := Z.min abs1 abs2 in
       let l1_l2 := if sign then - min else min in
       (if bool_decide (nth 0 bits 0 = 0) then nth 0 LLRs 0 else - nth 0 LLRs 0) + l1_l2);
    (fun LLRs bits =>
       (if bool_decide (nth 0 bits 0 = 0) then nth 1 LLRs 0 else - nth 1 LLRs 0)
       + (if bool_decide (Z.lxor (nth 0 bits 0) (nth 1 bits 0) = 0)
          then nth 2 LLRs 0 else - nth 2 LLRs 0)) ].

(** The combine functions of the kernel {{1,0,0},{1,1,0},{1,0,1}}. *)
Definition lambdas_t2 : list lambda :=
  [ (fun LLRs bits =>
       let sign := xorb (xorb (signbit (nth 0 LLRs 0)) (signbit (nth 1 LLRs 0)))
                        (signbit (nth 2 LLRs 0)) in
       let abs0 := Z.abs (nth 0 LLRs 0) in
       let abs1 := Z.abs (nth 1 LLRs 0) in
       let abs2 := Z.abs (nth 2 LLRs 0) in
       let min := Z.min (Z.min abs0 abs1) abs2 in
       if sign then - min else min);
    (fun LLRs bits =>
       let hl0 := if bool_decide (nth 0 bits 0 = 0) then nth 0 LLRs 0 else - nth 0 LLRs 0 in
       let sign := xorb (signbit hl0) (signbit (nth 2 LLRs 0)) in
       let abs0 := Z.abs hl0 in
       let abs2 := Z.abs (nth 2 LLRs 0) in
       let min := Z.min abs0 abs2 in
       let hl0_l2 := if sign then - min else min in
       hl0_l2 + nth 1 LLRs 0);
    (fun LLRs bits =>
       let hl0 := if bool_decide (Z.lxor (nth 0 bits 0) (nth 1 bits 0) = 0)
                  then nth 0 LLRs 0 else - nth 0 LLRs 0 in
       hl0 + nth 2 LLRs 0) ].

Definition kernel_arikan : list (list bool) := [[true; false]; [true; true]].
Definition kernel_t1 : list (list bool) :=
  [[true; true; true]; [true; false; true]; [false; true; true]].
Definition kernel_t2 : list (list bool) :=
  [[true; false; false]; [true; true; false]; [true; false; true]].

(** The local lambda [same_polar_kernel] of the constructor. *)
Definition same_polar_kernel (a b : list (list bool)) : bool :=
  if negb (length a =? length b)%nat then false
  else
    forallb (fun i =>
      if negb (length (nth i a []) =? length (nth i b []))%nat then false
      else forallb (fun j => Bool.eqb (nth j (nth i a []) false) (nth j (nth i b []) false))
                   (seq 0 (length (nth i a []))))
      (seq 0 (length a)).

(** The decoder object. *)
Record Decoder_polar_MK_SC_naive : Type := mkDecoder {
  K           : Z;
  N           : Z;
  n_frames    : Z;
  code        : Polar_code;
  frozen_bits : list bool;
  polar_tree  : Generic_node Contents_MK_SC;
  Ke          : list (list Z);
  lambdas     : list lambda
}.

Definition with_tree (d : Decoder_polar_MK_SC_naive) (t : Generic_node Contents_MK_SC)
  : Decoder_polar_MK_SC_naive :=
  mkDecoder (K d) (N d) (n_frames d) (code d) (frozen_bits d) t (Ke d) (lambdas d).

Definition with_frozen_bits (d : Decoder_polar_MK_SC_naive) (fb : list bool)
  : Decoder_polar_MK_SC_naive :=
  mkDecoder (K d) (N d) (n_frames d) (code d) fb (polar_tree d) (Ke d) (lambdas d).

(** [recursive_allocate_nodes_contents]: [father_stage] is [None] at the
    root. *)
Fixpoint recursive_allocate_nodes_contents (code : Polar_code)
    (father_stage : option Z) (node_curr : Generic_node unit) (vector_size : Z)
  : Generic_node Contents_MK_SC :=
  match node_curr with
  | Node lane _ children =>
      let stage := match father_stage with
                   | None => Z.of_nat (length (get_stages code)) - 1
                   | Some fs => fs - 1
                   end in
      Node lane (Contents_new vector_size stage)
           (List.map
              (fun c => recursive_allocate_nodes_contents code (Some stage) c
                          (vector_size
                           / Z.of_nat (length (nth 0 (get_kernel_matrices code) []))))
              children)
  end.

(** [recursive_initialize_frozen_bits]. *)
Fixpoint recursive_initialize_frozen_bits (node_curr : Generic_node Contents_MK_SC)
    (frozen_bits : list bool) : Generic_node Contents_MK_SC :=
  match node_curr with
  | Node lane contents [] => Node lane (with_frozen contents (nth lane frozen_bits false)) []
  | Node lane contents children =>
      Node lane contents
           (List.map (fun c => recursive_initialize_frozen_bits c frozen_bits) children)
  end.

(** [recursive_deallocate_nodes_contents]: every contents pointer is
    deleted, children first, and set to null. *)
Fixpoint recursive_deallocate_nodes_contents (node_curr : Generic_node Contents_MK_SC)
  : Generic_node unit :=
  match node_curr with
  | Node lane _ children =>
      Node lane tt (List.map recursive_deallocate_nodes_contents children)
  end.

(** All the contents objects of a tree, children before their father. *)
Fixpoint contents_of (n : Generic_node Contents_MK_SC) : list Contents_MK_SC :=
  match n with
  | Node _ c children => List.concat (List.map contents_of children) ++ [c]
  end.

(** The [Ke] tables of the constructor: [Ke[ke][i * size + j]] is entry
    [[j][i]] of kernel matrix [ke]. *)
Definition Ke_of (M : list (list bool)) : list Z :=
  let kernel_size := length M in
  List.concat
    (List.map (fun i =>
       List.map (fun j => Z.b2z (nth i (nth j M []) false)) (seq 0 kernel_size))
       (seq 0 kernel_size)).

(** How a construction ends: with the object, or with an exception.  The
    destructor does not run on an object whose constructor threw, so the
    contents objects that [recursive_allocate_nodes_contents] created with
    [new] before the throw stay allocated: [leaked] lists them. *)
Inductive construction : Type :=
| Constructed (d : Decoder_polar_MK_SC_naive)
| Failed (e : exception) (leaked : list Contents_MK_SC).

(** The checks of the base class constructor ([Decoder.hpp], with
    [simd_inter_frame_level = 1]). *)
Definition base_checks (K N : Z) : option exception :=
  if bool_decide (K <= 0) then Some invalid_argument
  else if bool_decide (N <= 0) then Some invalid_argument
  else if bool_decide (1 <= 0) then Some invalid_argument
  else if bool_decide (K > N) then Some invalid_argument
  else None.

(** The constructor of [Decoder_polar_MK_SC_naive]: the base class, the
    members, then the body.  Among the members, [bits] is a vector of
    [base - 1] elements, an unsigned difference: for an empty kernel matrix
    it asks for more elements than a vector can hold and the vector
    constructor throws [std::length_error].  The scratch vectors [idx],
    [u], [LLRs] and [bits] are not part of the object here: every entry
    that is read has been written in the same loop iteration. *)
Definition Decoder_polar_MK_SC_naive_new (K N : Z) (code : Polar_code)
    (frozen_bits : list bool) (n_frames : Z) : construction :=
  match base_checks K N with
  | Some e => Failed e []
  | None =>
  let tree0 := Generic_tree_new (length (get_stages code) + 1)
                                (length (nth 0 (get_kernel_matrices code) [])) in
  if bool_decide (length (nth 0 (get_kernel_matrices code) []) = 0%nat)
  then Failed length_error []
  else
  if negb (is_mono_kernel code) then Failed invalid_argument []
  else
  let base := length (nth 0 (get_kernel_matrices code) []) in
  if bool_decide (base < 2)%nat then Failed invalid_argument []
  else if bool_decide (N <> get_codeword_size code) then Failed invalid_argument []
  else if bool_decide (N <> Z.of_nat (length frozen_bits)) then Failed length_error []
  else
  let k := Z.of_nat (length (List.filter negb (take (Z.to_nat N) frozen_bits))) in
  if bool_decide (K <> k) then Failed runtime_error []
  else
  let tree1 := recursive_allocate_nodes_contents code None tree0 N in
  let tree2 := recursive_initialize_frozen_bits tree1 frozen_bits in
  let Ke := List.map Ke_of (get_kernel_matrices code) in
  let K0 := nth 0 (get_kernel_matrices code) [] in
  if same_polar_kernel K0 kernel_arikan then
    Constructed (mkDecoder K N n_frames code frozen_bits tree2 Ke lambdas_arikan)
  else if same_polar_kernel K0 kernel_t1 then
    Constructed (mkDecoder K N n_frames code frozen_bits tree2 Ke lambdas_t1)
  else if same_polar_kernel K0 kernel_t2 then
    Constructed (mkDecoder K N n_frames code frozen_bits tree2 Ke lambdas_t2)
  else Failed runtime_error (contents_of tree2)
  end.

(** The writes [x->l[i] = v[i]] for [i < v.size()]. *)
Definition store_l (v : list Z) (c : Contents_MK_SC) : Contents_MK_SC :=
  with_l c (v ++ drop (length v) (l c)).

Section children.

(** The child loop of [recursive_decode]; [rec v c] stands for "store [v]
    in the LLRs of child [c], then [recursive_decode(c)]". *)
Variable rec : list Z -> Generic_node Contents_MK_SC -> Generic_node Contents_MK_SC.
Variable lambdas : list lambda.
Variable l_curr : list Z.
Variables kern_size sub_part : nat.

(** The LLRs computed for child number [child]; [done] are the children
    before it, already decoded.  The scratch vectors [LLRs] and [bits] are
    filled anew for every [i]. *)
Definition child_llrs (child : nat) (done : list (Generic_node Contents_MK_SC)) : list Z :=
  List.map (fun i =>
    let LLRs := List.map (fun l' => nth (l' * sub_part + i) l_curr 0) (seq 0 kern_size) in
    let bits := List.map (fun c => nth i (s (get_c c)) 0) (take child done) in
    nth child lambdas (fun _ _ => 0) LLRs bits) (seq 0 sub_part).

Fixpoint decode_children (todo done : list (Generic_node Contents_MK_SC))
  : list (Generic_node Contents_MK_SC) :=
  match todo with
  | [] => done
  | node_child :: rest =>
      decode_children rest (done ++ [rec (child_llrs (length done) done) node_child])
  end.

End children.

(** [children[c]->get_c()->s[i]]. *)
Definition child_s (children : list (Generic_node Contents_MK_SC)) (c i : nat) : Z :=
  match children !! c with
  | Some ch => nth i (s (get_c ch)) 0
  | None => 0
  end.

(** The local lambda [encode_polar_kernel] of [recursive_decode]. *)
Definition encode_polar_kernel (u : list Z) (idx : list nat) (Ke : list Z)
    (x : list Z) (size : nat) : list Z :=
  fold_left (fun x i =>
    let stride := (i * size)%nat in
    let sum := fold_left (fun sum j => sum + Z.land (nth j u 0) (nth (stride + j) Ke 0))
                         (seq 0 size) 0 in
    <[nth i idx O := Z.land sum 1]> x) (seq 0 size) x.

(** The re-encoding loop of [recursive_decode]: [s_curr] is the partial
    sum vector of the node, [children] its decoded children. *)
Definition reencode (Ke_s : list Z) (children : list (Generic_node Contents_MK_SC))
    (kern_size sub_part : nat) (s_curr : list Z) : list Z :=
  let n_kernels := (length s_curr / kern_size)%nat in
  fold_left (fun sv k =>
    let idx := List.map (fun i => (n_kernels * i + k)%nat) (seq 0 kern_size) in
    let u := List.map (fun id => child_s children (id / sub_part) (id mod sub_part)) idx in
    encode_polar_kernel u idx Ke_s sv kern_size) (seq 0 n_kernels) s_curr.

(** [recursive_decode], entered after [l_in] has been stored in the first
    LLRs of the node (by the father's loop; nothing for the root). *)
Fixpoint decode_node (stages : list nat) (Ke : list (list Z)) (lambdas : list lambda)
    (l_in : list Z) (node_curr : Generic_node Contents_MK_SC) {struct node_curr}
  : Generic_node Contents_MK_SC :=
  match node_curr with
  | Node lane c0 children =>
      let c := store_l l_in c0 in
      match children with
      | [] =>
          Node lane
               (with_s c (<[O := Z.b2z (negb (is_frozen_bit c) && h_LLR (nth 0 (l c) 0))]> (s c)))
               []
      | _ :: _ =>
          let kern_size := length children in
          let size := length (l c) in
          let sub_part := (size / kern_size)%nat in
          let children' :=
            decode_children (decode_node stages Ke lambdas) lambdas (l c)
                            kern_size sub_part children [] in
          let st := stage c in
          Node lane
               (with_s c (reencode (nth (nth (Z.to_nat st) stages O) Ke []) children'
                                   kern_size sub_part (s c)))
               children'
      end
  end.

Definition recursive_decode (d : Decoder_polar_MK_SC_naive)
    (node_curr : Generic_node Contents_MK_SC) : Generic_node Contents_MK_SC :=
  decode_node (get_stages (code d)) (Ke d) (lambdas d) [] node_curr.

(** [recursive_store]: the buffer [V_K] and the running index [k]. *)
Fixpoint recursive_store (frozen_bits : list bool) (node_curr : Generic_node Contents_MK_SC)
    (V_K : list Z) (k : nat) : list Z * nat :=
  match node_curr with
  | Node lane contents [] =>
      if negb (nth lane frozen_bits false)
      then (<[k := nth 0 (s contents) 0]> V_K, S k)
      else (V_K, k)
  | Node lane contents children =>
      fold_left (fun st c => recursive_store frozen_bits c (fst st) (snd st))
                children (V_K, k)
  end.

(** [_load]. *)
Definition _load (d : Decoder_polar_MK_SC_naive) (Y_N : list Z) : Decoder_polar_MK_SC_naive :=
  match polar_tree d with
  | Node lane c children =>
      with_tree d (Node lane (store_l (take (Z.to_nat (N d)) Y_N) c) children)
  end.

(** [_store]. *)
Definition _store (d : Decoder_polar_MK_SC_naive) (V : list Z) (coded : bool) : list Z :=
  if negb coded then fst (recursive_store (frozen_bits d) (polar_tree d) V 0)
  else DecoderI.copy_to (take (Z.to_nat (N d)) (s (get_c (polar_tree d)))) V 0.

(** [_decode_siho] and [_decode_siho_cw]: the decoder after the call and
    the buffer it filled. *)
Definition _decode_siho (d : Decoder_polar_MK_SC_naive) (Y_N V_K : list Z)
  : Decoder_polar_MK_SC_naive * list Z :=
  let d1 := _load d Y_N in
  let d2 := with_tree d1 (recursive_decode d1 (polar_tree d1)) in
  (d2, _store d2 V_K false).

Definition _decode_siho_cw (d : Decoder_polar_MK_SC_naive) (Y_N V_N : list Z)
  : Decoder_polar_MK_SC_naive * list Z :=
  let d1 := _load d Y_N in
  let d2 := with_tree d1 (recursive_decode d1 (polar_tree d1)) in
  (d2, _store d2 V_N true).

(** [notify_frozenbits_update]. *)
Definition notify_frozenbits_update (d : Decoder_polar_MK_SC_naive) : Decoder_polar_MK_SC_naive :=
  with_tree d (recursive_initialize_frozen_bits (polar_tree d) (frozen_bits d)).

(** One output bit of a kernel: the expression [sum & (B)1] that
    [encode_polar_kernel] stores for row [i] of [Ke]. *)
Definition kernel_out (Ke_s : list Z) (size : nat) (u : list Z) (i : nat) : Z :=
  Z.land (fold_left (fun sum j => sum + Z.land (nth j u 0) (nth (i * size + j)%nat Ke_s 0))
                    (seq 0 size) 0) 1.

(** One level of the transform on [b] vectors of [sub] bits: entry
    [i * sub + k] of the result is output [i] of the kernel applied to the
    [k]-th bits of the vectors. *)
Definition combine (Ke_s : list Z) (b sub : nat) (parts : list (list Z)) : list Z :=
  List.map (fun p => kernel_out Ke_s b (List.map (fun part => nth (p mod sub) part 0) parts)
                                (p / sub))
           (seq 0 (b * sub)).

(** Modelled from the spec: the generalized kernel transform of the encoder
    ([Encoder_polar_MK], not among the sources), the transform that the
    re-encoding of [recursive_decode] applies level by level: a block of
    [b ^ levels] bits is cut in [b] parts, each part is transformed, and
    the kernel combines the results. *)
Fixpoint polar_transform (Ke_s : list Z) (b levels : nat) (u : list Z) : list Z :=
  match levels with
  | O => u
  | S levels' =>
      let sub := (b ^ levels')%nat in
      combine Ke_s b sub
        (List.map (fun j => polar_transform Ke_s b levels' (DecoderI.slice u (j * sub) sub))
                  (seq 0 b))
  end.

(** Modelled from the spec: the information bits take the non-frozen
    positions in order, the frozen positions hold 0. *)
Fixpoint place_info (frozen : list bool) (U_K : list Z) : list Z :=
  match frozen with
  | [] => []
  | true :: frozen' => 0 :: place_info frozen' U_K
  | false :: frozen' =>
      match U_K with
      | [] => 0 :: place_info frozen' []
      | x :: U_K' => x :: place_info frozen' U_K'
      end
  end.

(** Modelled from the spec: the codeword of the information bits [U_K] for
    the code of decoder [d]. *)
Definition encode (d : Decoder_polar_MK_SC_naive) (U_K : list Z) : list Z :=
  polar_transform (nth 0 (Ke d) []) (length (nth 0 (get_kernel_matrices (code d)) []))
                  (length (get_stages (code d))) (place_info (frozen_bits d) U_K).

(** Zero noise: every LLR is non-zero and has the sign of its codeword
    bit, positive for 0 and negative for 1. *)
Definition agrees (bit : Z) (llr : Z) : Prop :=
  (bit = 0 /\ 0 < llr) \/ (bit = 1 /\ llr < 0).

Definition noiseless (X_N : list Z) (Y_N : list Z) : Prop := Forall2 agrees X_N Y_N.

(** Modelled from the spec: what [tools::Polar_code] guarantees of a
    mono-kernel code: every stage uses the first kernel matrix, and the
    codeword size is the kernel size to the power of the number of
    stages. *)
Definition mono_kernel_code (code : Polar_code) : Prop :=
  Forall (fun st => nth st (get_kernel_matrices code) [] = nth 0 (get_kernel_matrices code) [])
         (get_stages code)
  /\ Forall (fun st => (st < length (get_kernel_matrices code))%nat) (get_stages code)
  /\ get_codeword_size code
     = Z.of_nat (length (nth 0 (get_kernel_matrices code) []) ^ length (get_stages code)).

(** The kernels the constructor recognizes. *)
Definition recognized (M : list (list bool)) : Prop :=
  M = kernel_arikan \/ M = kernel_t1 \/ M = kernel_t2.

(** The combine functions the constructor installs for a recognized
    kernel. *)
Definition lambdas_of (M : list (list bool)) : list lambda :=
  if same_polar_kernel M kernel_arikan then lambdas_arikan
  else if same_polar_kernel M kernel_t1 then lambdas_t1
  else lambdas_t2.

(** The number of entries of the mask that are 0 (not frozen). *)
Definition zero_count (frozen_bits : list bool) : Z :=
  Z.of_nat (length (List.filter negb frozen_bits)).

(** The tree the constructor builds once all the checks before the
    allocation have passed. *)
Definition built_tree (code : Polar_code) (N : Z) (fb : list bool) : Generic_node Contents_MK_SC :=
  recursive_initialize_frozen_bits
    (recursive_allocate_nodes_contents code None
       (Generic_tree_new (length (get_stages code) + 1)
                         (length (nth 0 (get_kernel_matrices code) [])))
       N)
    fb.

(** The checks that come before the allocation of the contents. *)
Definition checks_pass (K N : Z) (code : Polar_code) (fb : list bool) : Prop :=
  0 < K /\ K <= N /\ is_mono_kernel code = true
  /\ (2 <= length (nth 0 (get_kernel_matrices code) []))%nat
  /\ N = get_codeword_size code /\ N = Z.of_nat (length fb)
  /\ K = zero_count fb.

(** A bit held in a [B]. *)
Definition is_bit (x : Z) : Prop := x = 0 \/ x = 1.

(** The shape of the tree the constructor builds for kernel size [b] and
    mask [frozen]: a node [lv] levels above the leaves holds vectors of
    [b ^ lv] entries, has stage [lv - 1] and [b] children when [lv > 0];
    the lane ids run from left to right within a level; a leaf carries the
    frozen flag of its lane. *)
Fixpoint wf_node (b : nat) (frozen : list bool) (lv : nat) (lane : nat)
    (n : Generic_node Contents_MK_SC) : Prop :=
  match lv with
  | O =>
      get_lane_id n = lane /\ get_children n = []
      /\ length (l (get_c n)) = 1%nat /\ length (s (get_c n)) = 1%nat
      /\ is_frozen_bit (get_c n) = nth lane frozen false
  | S lv' =>
      get_lane_id n = lane
      /\ length (l (get_c n)) = (b ^ lv)%nat /\ length (s (get_c n)) = (b ^ lv)%nat
      /\ stage (get_c n) = Z.of_nat lv'
      /\ Forall2 (fun j c => wf_node b frozen lv' (lane * b + j) c)
                 (seq 0 b) (get_children n)
  end.

(** The decided bits of the leaves, from left to right. *)
Fixpoint leaves_s (n : Generic_node Contents_MK_SC) : list Z :=
  match n with
  | Node _ c [] => [nth 0 (s c) 0]
  | Node _ _ children => List.concat (List.map leaves_s children)
  end.

(** The bits of [us] that sit on non-frozen lanes, [us] starting at lane
    [start]. *)
Fixpoint info_bits (frozen : list bool) (start : nat) (us : list Z) : list Z :=
  match us with
  | [] => []
  | x :: us' =>
      if nth start frozen false then info_bits frozen (S start) us'
      else x :: info_bits frozen (S start) us'
  end.

(** A property of every node of a tree. *)
Inductive all_nodes (P : Generic_node Contents_MK_SC -> Prop)
  : Generic_node Contents_MK_SC -> Prop :=
| all_nodes_intro n :
    P n -> Forall (all_nodes P) (get_children n) -> all_nodes P n.

(** Row [i] of the generator [Ke] the decoder stores for kernel matrix
    [M]: [Ke[i * size + j] = M[j][i]]. *)
Definition Ke_row (M : list (list bool)) (i : nat) : list bool :=
  List.map (fun j => nth i (nth j M []) false) (seq 0 (length M)).

(** The exclusive or of the bits that a row selects. *)
Fixpoint xor_select (row : list bool) (bits : list bool) : bool :=
  match row, bits with
  | r :: row', x :: bits' => xorb (r && x) (xor_select row' bits')
  | _, _ => false
  end.

(** The partial sums of an internal node are the kernel transform of the
    partial sums of its children, kernel instance by kernel instance: with
    [sub] the width of a child, entry [i * sub + k] is the exclusive or of
    the [k]-th bits of the children that row [i] of the generator
    selects.  All the entries involved are bits. *)
Definition reencoded (M : list (list bool)) (n : Generic_node Contents_MK_SC) : Prop :=
  match get_children n with
  | [] => True
  | children =>
      let sub := (length (s (get_c n)) / length children)%nat in
      Forall (fun c => Forall is_bit (s (get_c c))) children
      /\ forall i k, (i < length children)%nat -> (k < sub)%nat ->
           nth (i * sub + k) (s (get_c n)) 0
           = Z.b2z (xor_select (Ke_row M i)
                      (List.map (fun c => Z.odd (nth k (s (get_c c)) 0)) children))
  end.

(** The partial sums of an internal node are one level of the transform
    of the partial sums of its children, which are bits. *)
Definition recombined (b : nat) (Ke_s : list Z) (n : Generic_node Contents_MK_SC) : Prop :=
  match get_children n with
  | [] => True
  | children =>
      length children = b
      /\ Forall (fun c => Forall is_bit (s (get_c c))) children
      /\ s (get_c n)
         = combine Ke_s b (length (s (get_c n)) / b)
                   (List.map (fun c => s (get_c c)) children)
  end.

(** What the combine functions of a kernel have to do for the decoder to
    undo the kernel under zero noise: when every LLR agrees with the
    output bit of the kernel it belongs to, and the bits of the children
    before [j] are known, the LLR combined for child [j] agrees with the
    bit of child [j]. *)
Definition kernel_ok (b : nat) (Ke_s : list Z) (lambdas : list lambda) : Prop :=
  forall v LLRs,
    length v = b -> Forall is_bit v -> length LLRs = b ->
    (forall i, (i < b)%nat -> agrees (kernel_out Ke_s b v i) (nth i LLRs 0)) ->
    forall j, (j < b)%nat ->
      agrees (nth j v 0) (nth j lambdas (fun _ _ => 0) LLRs (take j v)).

(** The mono-kernel code with [n_stages] stages of kernel [M]. *)
Definition mono_code (M : list (list bool)) (n_stages : nat) : Polar_code :=
  mkCode [M] (List.repeat O n_stages) (Z.of_nat (length M ^ n_stages)) true (length M).

(** Zero-noise LLRs for a codeword, and the round trip of the
    information bits [U_K] through the mono-kernel code of kernel [M] with
    [n_stages] stages: encode, turn into LLRs, decode. *)
Definition llrs_of (X_N : list Z) : list Z :=
  List.map (fun x => if x =? 0 then 1000000 else -1000000) X_N.

Definition round_trip (M : list (list bool)) (n_stages : nat) (fb : list bool)
    (U_K : list Z) : option (list Z) :=
  match Decoder_polar_MK_SC_naive_new (Z.of_nat (length U_K))
          (Z.of_nat (length M ^ n_stages)) (mono_code M n_stages) fb 1 with
  | Constructed d =>
      Some (snd (_decode_siho d (llrs_of (encode d U_K)) U_K))
  | Failed _ _ => None
  end.

(** What a decode leaves of a node as it found it: the lane id, the frozen
    flag and the stage, and the same of its children. *)
Fixpoint skeleton (n : Generic_node Contents_MK_SC) : Generic_node (bool * Z) :=
  match n with
  | Node lane c children =>
      Node lane (is_frozen_bit c, stage c) (List.map skeleton children)
  end.

(** The tree [n] with every LLR multiplied by [c]. *)
Fixpoint scale_llrs (c : Z) (n : Generic_node Contents_MK_SC)
  : Generic_node Contents_MK_SC :=
  match n with
  | Node lane c0 children =>
      Node lane (with_l c0 (List.map (Z.mul c) (l c0))) (List.map (scale_llrs c) children)
  end.

(** The tree a decode call leaves: [recursive_decode] on the root once
    [_load] has copied the first [N] LLRs of [Y_N] into it. *)
Definition decoded_tree_of (d : Decoder_polar_MK_SC_naive) (Y_N : list Z)
  : Generic_node Contents_MK_SC :=
  decode_node (get_stages (code d)) (Ke d) (lambdas d) (take (Z.to_nat (N d)) Y_N)
              (polar_tree d).

(** The caller changes the mask that [frozen_bits] refers to and calls
    [notify_frozenbits_update]. *)
Definition update_frozen_bits (d : Decoder_polar_MK_SC_naive) (fb : list bool)
  : Decoder_polar_MK_SC_naive :=
  notify_frozenbits_update (with_frozen_bits d fb).

End PolarMK.

(* ===================================================================== *)
(** * Properties of [Task]                                               *)
(* ===================================================================== *)

Section TaskFacts.

Import TaskM.
Context {W : Type}.
Implicit Types (t : Task W) (w : W).

Lemma can_exec_true t : can_exec t = true <-> Forall bound (socket t).
Proof.
  unfold can_exec. rewrite forallb_forall, Forall_forall.
  split; intros H s Hs.
  - apply list_elem_of_In, H in Hs. by apply bool_decide_eq_true in Hs.
  - apply bool_decide_eq_true, H. by apply list_elem_of_In.
Qed.

Lemma can_exec_false t : can_exec t = false <-> Exists (fun s => dataptr s = None) (socket t).
Proof.
  unfold can_exec. induction (socket t) as [|s ss IH]; simpl.
  - split; [discriminate | by intros H%Exists_nil].
  - rewrite andb_false_iff, Exists_cons, IH, bool_decide_eq_false.
    destruct (dataptr s); split; intros [H|H]; auto; try discriminate.
    by destruct H.
Qed.

Lemma name_exists_true (ss : list Socket) nm :
  name_exists ss nm = true <-> Exists (fun s => get_name s = nm) ss.
Proof.
  unfold name_exists. rewrite existsb_exists, Exists_exists. split.
  - intros (s & Hs & He). exists s. split; [by apply list_elem_of_In|].
    by apply bool_decide_eq_true in He.
  - intros (s & Hs & He). exists s. split; [by apply list_elem_of_In|].
    by apply bool_decide_eq_true.
Qed.

(** A refused creation: an empty name, or a name some socket already has. *)
Lemma create_socket_refused t sz nm n :
  nm = EmptyString \/ Exists (fun s => get_name s = nm) (socket t) ->
  create_socket t sz nm n = inl runtime_error.
Proof.
  intros [-> | Hdup]; unfold create_socket.
  - done.
  - apply name_exists_true in Hdup. rewrite Hdup. by case_bool_decide.
Qed.

(** A creation that succeeds appends a socket called [nm]. *)
Lemma create_socket_accepted t sz nm n :
  nm <> EmptyString -> ~ Exists (fun s => get_name s = nm) (socket t) ->
  exists t', create_socket t sz nm n = inr t'
             /\ socket t' = socket t ++ [mkSocket nm sz (n * sz) None].
Proof.
  intros Hne Hfresh. unfold create_socket.
  rewrite bool_decide_eq_false_2 by done.
  destruct (name_exists (socket t) nm) eqn:E.
  - apply name_exists_true in E. contradiction.
  - eexists. split; reflexivity.
Qed.

Lemma exec_not_ready t w dur :
  Exists (fun s => dataptr s = None) (socket t) ->
  exec t w dur = (inl runtime_error, t, w).
Proof. intros H. apply can_exec_false in H. unfold exec. by rewrite H. Qed.

Lemma exec_returns t w dur status w' :
  Forall bound (socket t) ->
  codelet t w = (Returns status, w') ->
  exists t', exec t w dur = (inr status, t', w')
             /\ n_calls t' = uint32 (n_calls t + 1)
             /\ socket t' = socket t
             /\ codelet t' = codelet t.
Proof.
  intros Hb Hc. apply can_exec_true in Hb. unfold exec. rewrite Hb, Hc.
  destruct (stats t); [case_bool_decide|]; eexists; split; try reflexivity; done.
Qed.

Lemma exec_throws t w dur e w' :
  codelet t w = (Throws e, w') ->
  exec t w dur = (inl (if can_exec t then e else runtime_error), t,
                  if can_exec t then w' else w).
Proof.
  intros Hc. unfold exec. rewrite Hc.
  destruct (can_exec t); [|done]. by destruct (stats t).
Qed.

End TaskFacts.

(** C8, as stated, fails: on a fresh task every port is bound (there is
    none) and the codelet is the default one, yet [exec()] throws and the
    call counter stays at 0. *)
Lemma exec_all_bound_default_codelet_fails :
  let t := TaskM.Task_new (W := unit) "decode" true false true false in
  Forall TaskM.bound (TaskM.socket t)
  /\ TaskM.exec t tt 5 = (inl unimplemented_error, t, tt)
  /\ TaskM.n_calls (snd (fst (TaskM.exec t tt 5))) = 0.
Proof. repeat split. constructor. Qed.

(** C8 (amended).  On any task: creating a socket whose name is empty or
    is the name of an existing socket fails; [exec()] fails, leaving the
    task untouched, while some socket has a null data pointer; and once
    every socket is bound, every [exec()] whose codelet returns normally
    returns the codelet's status and adds one to the 32-bit call counter,
    keeping sockets and codelet, so that the same holds for the next
    call. *)
Theorem task_port_contract {W : Type} (t : TaskM.Task W) (w : W) (dur : Z) :
  (forall sz nm n,
      nm = EmptyString \/ Exists (fun s => TaskM.get_name s = nm) (TaskM.socket t) ->
      TaskM.create_socket t sz nm n = inl runtime_error
      /\ TaskM.create_socket_in t sz nm n = inl runtime_error
      /\ TaskM.create_socket_in_out t sz nm n = inl runtime_error
      /\ TaskM.create_socket_out t sz nm n = inl runtime_error)
  /\ (Exists (fun s => TaskM.dataptr s = None) (TaskM.socket t) ->
      TaskM.exec t w dur = (inl runtime_error, t, w))
  /\ (Forall TaskM.bound (TaskM.socket t) ->
      forall status w', TaskM.codelet t w = (TaskM.Returns status, w') ->
      exists t', TaskM.exec t w dur = (inr status, t', w')
                 /\ TaskM.n_calls t' = TaskM.uint32 (TaskM.n_calls t + 1)
                 /\ (0 <= TaskM.n_calls t < 2 ^ 32 - 1 ->
                     TaskM.n_calls t' = TaskM.n_calls t + 1)
                 /\ TaskM.socket t' = TaskM.socket t
                 /\ TaskM.codelet t' = TaskM.codelet t).
Proof.
  split; [|split].
  - intros sz nm n H.
    pose proof (create_socket_refused t sz nm n H) as E.
    unfold TaskM.create_socket_in, TaskM.create_socket_in_out, TaskM.create_socket_out.
    by rewrite E.
  - apply exec_not_ready.
  - intros Hb status w' Hc.
    destruct (exec_returns t w dur status w' Hb Hc) as (t' & He & Hn & Hs & Hco).
    exists t'. repeat split; try done.
    intros Hr. rewrite Hn. unfold TaskM.uint32. apply Z.mod_small. lia.
Qed.

Lemma task_port_contract_witness :
  TaskM.create_socket_in TaskM.sample_task 4 "V_K" 4 = inl runtime_error
  /\ TaskM.exec TaskM.sample_task tt 7 = (inl runtime_error, TaskM.sample_task, tt)
  /\ exists t', TaskM.exec (TaskM.bind TaskM.sample_task "Y_N" 4096) tt 7 = (inr 0, t', tt)
                /\ TaskM.n_calls t' = 1.
Proof.
  pose proof (task_port_contract TaskM.sample_task tt 7) as (Hc & He & _).
  pose proof (task_port_contract (TaskM.bind TaskM.sample_task "Y_N" 4096) tt 7) as (_ & _ & Hx).
  split; [|split].
  - apply (Hc 4 "V_K" 4). right. vm_compute. apply Exists_cons_tl, Exists_cons_hd. reflexivity.
  - apply He. vm_compute. apply Exists_cons_hd. reflexivity.
  - destruct (Hx ltac:(vm_compute; repeat constructor; discriminate) 0 tt eq_refl)
      as (t' & E & _ & Hn & _).
    exists t'. split; [exact E|]. rewrite Hn; [reflexivity | vm_compute; split; congruence].
Defined.

(** C9.  If the codelet throws, [exec()] hands the exception on and the
    task is exactly as before: call counter, total, minimum and maximum
    duration are unchanged.  The default codelet of a fresh task is such a
    codelet. *)
Theorem exec_codelet_throws_keeps_stats {W : Type} (t : TaskM.Task W) (w : W) (dur : Z)
    (e : exception) (w' : W) :
  TaskM.codelet t w = (TaskM.Throws e, w') ->
  let t' := snd (fst (TaskM.exec t w dur)) in
  (exists e', fst (fst (TaskM.exec t w dur)) = inl e')
  /\ (Forall TaskM.bound (TaskM.socket t) -> fst (fst (TaskM.exec t w dur)) = inl e)
  /\ t' = t
  /\ TaskM.n_calls t' = TaskM.n_calls t
  /\ TaskM.duration_total t' = TaskM.duration_total t
  /\ TaskM.duration_min t' = TaskM.duration_min t
  /\ TaskM.duration_max t' = TaskM.duration_max t.
Proof.
  intros Hc. cbn zeta. rewrite (exec_throws t w dur e w' Hc). cbn [fst snd].
  repeat split; eauto.
  intros Hb. apply can_exec_true in Hb. by rewrite Hb.
Qed.

Lemma exec_codelet_throws_keeps_stats_witness :
  let t := TaskM.Task_new (W := unit) "decode" true false true false in
  fst (fst (TaskM.exec t tt 9)) = inl unimplemented_error
  /\ TaskM.n_calls (snd (fst (TaskM.exec t tt 9))) = 0
  /\ TaskM.duration_total (snd (fst (TaskM.exec t tt 9))) = 0.
Proof.
  intros t.
  destruct (exec_codelet_throws_keeps_stats t tt 9 unimplemented_error tt eq_refl)
    as (_ & He & _ & Hn & Ht & _).
  split; [apply He; constructor|]. split; [exact Hn | exact Ht].
Defined.

(* ===================================================================== *)
(** * Properties of [Decoder_i::hard_decode]                             *)
(* ===================================================================== *)

Section CopyFacts.

Import DecoderI.
Implicit Types (src dst v : list Z) (pos off n i : nat).

Lemma slice_length_le v off n : (length (slice v off n) <= n)%nat.
Proof. unfold slice. rewrite length_take. lia. Qed.

Lemma slice_length v off n : (off + n <= length v)%nat -> length (slice v off n) = n.
Proof. intros H. unfold slice. rewrite length_take, length_drop. lia. Qed.

Lemma copy_to_length src dst pos :
  (pos + length src <= length dst)%nat -> length (copy_to src dst pos) = length dst.
Proof.
  intros H. unfold copy_to. rewrite !length_app, length_take, length_drop. lia.
Qed.

Lemma copy_to_lookup_before src dst pos i :
  (i < pos)%nat -> (pos <= length dst)%nat -> copy_to src dst pos !! i = dst !! i.
Proof.
  intros Hi Hp. unfold copy_to.
  rewrite lookup_app_l by (rewrite length_take; lia).
  by rewrite lookup_take_lt.
Qed.

Lemma copy_to_lookup_after src dst pos i :
  (pos + length src <= i)%nat -> (pos <= length dst)%nat ->
  copy_to src dst pos !! i = dst !! i.
Proof.
  intros Hi Hp. unfold copy_to.
  rewrite lookup_app_r by (rewrite length_take; lia).
  rewrite lookup_app_r by (rewrite length_take; lia).
  rewrite lookup_drop, length_take. f_equal. lia.
Qed.

Lemma copy_to_slice src dst pos :
  (pos <= length dst)%nat -> slice (copy_to src dst pos) pos (length src) = src.
Proof.
  intros Hp. unfold slice, copy_to.
  rewrite drop_app_length' by (rewrite length_take; lia).
  by rewrite take_app_length.
Qed.

Lemma slice_ext v v' off n :
  (forall i, (off <= i < off + n)%nat -> v !! i = v' !! i) ->
  slice v off n = slice v' off n.
Proof.
  intros H. unfold slice. apply list_eq. intros i.
  destruct (decide (i < n)%nat).
  - rewrite !lookup_take_lt, !lookup_drop by done. apply H. lia.
  - rewrite !lookup_take_ge by lia. done.
Qed.

End CopyFacts.

Section WaveFacts.

Import DecoderI.
Context {St : Type} {impl : Decoder_impl St} {lawful : Lawful impl}.
Variables (nR nB : nat).
Implicit Types (d : Decoder_i St) (Y V : list Z) (w : nat) (ld st sf up : bool).

Local Abbreviation wf := (wf nR nB).

Lemma ceil_div_spec n s :
  0 < s -> 0 <= n ->
  (n mod s = 0 -> ceil_div n s = n / s) /\ (n mod s <> 0 -> ceil_div n s = n / s + 1).
Proof.
  intros Hs Hn. unfold ceil_div.
  pose proof (Z.div_mod n s ltac:(lia)) as E.
  pose proof (Z.mod_pos_bound n s Hs) as B.
  split; intros Hr.
  - replace (n + s - 1) with ((s - 1) + (n / s) * s) by lia.
    rewrite Z.div_add by lia. rewrite Z.div_small by lia. lia.
  - replace (n + s - 1) with ((n mod s - 1) + (n / s + 1) * s) by lia.
    rewrite Z.div_add by lia. rewrite Z.div_small by lia. lia.
Qed.

Lemma waves_positive d w :
  wf d -> (w < Z.to_nat (n_dec_waves d))%nat -> 0 < n_frames d.
Proof.
  intros Hwf Hw. destruct (Z_lt_le_dec 0 (n_frames d)) as [|Hle]; [done|].
  exfalso. rewrite (wf_waves _ _ _ Hwf) in Hw. unfold ceil_div in Hw.
  pose proof (wf_simd _ _ _ Hwf) as Hs.
  assert ((n_frames d + simd_inter_frame_level d - 1) / simd_inter_frame_level d <= 0).
  { apply Z.lt_succ_r. apply Z.div_lt_upper_bound; lia. }
  lia.
Qed.

Lemma wave_range d w :
  wf d -> (w < Z.to_nat (n_dec_waves d))%nat ->
  0 < n_frames_per_wave d w <= simd_inter_frame_level d
  /\ Z.of_nat w * simd_inter_frame_level d + n_frames_per_wave d w <= n_frames d
  /\ (Z.of_nat w = n_dec_waves d - 1 ->
      Z.of_nat w * simd_inter_frame_level d + n_frames_per_wave d w = n_frames d).
Proof.
  intros Hwf Hw. pose proof (waves_positive d w Hwf Hw) as Hn.
  pose proof (wf_simd _ _ _ Hwf) as Hs.
  pose proof (wf_waves _ _ _ Hwf) as Ewv. pose proof (wf_rest _ _ _ Hwf) as Er.
  rewrite Z.rem_mod_nonneg in Er by lia.
  destruct (ceil_div_spec (n_frames d) (simd_inter_frame_level d) Hs ltac:(lia)) as [C0 C1].
  pose proof (Z.div_mod (n_frames d) (simd_inter_frame_level d) ltac:(lia)) as E.
  pose proof (Z.mod_pos_bound (n_frames d) (simd_inter_frame_level d) Hs) as B.
  unfold n_frames_per_wave. rewrite Er.
  destruct (decide (n_frames d mod simd_inter_frame_level d = 0)) as [Hz|Hnz].
  - rewrite bool_decide_eq_false_2 by tauto. rewrite C0 in Ewv by done. nia.
  - rewrite C1 in Ewv by done. case_bool_decide as Hlast; nia.
Qed.

(** The staging vectors keep their length when a wave is copied in. *)
Lemma staged_length d w Y ld :
  wf d -> (w < Z.to_nat (n_dec_waves d))%nat ->
  length (staged d ld w Y) = (Z.to_nat (simd_inter_frame_level d * N d) + nR)%nat.
Proof.
  intros Hwf Hw.
  assert (length (nth w (Y_N d) [])
          = (Z.to_nat (simd_inter_frame_level d * N d) + nR)%nat) as Hlen.
  { pose proof (wf_Y _ _ _ Hwf) as HF. rewrite Forall_forall in HF.
    apply HF, list_elem_of_In, nth_In. rewrite (wf_Y_len _ _ _ Hwf). lia. }
  unfold staged. destruct ld; [|done].
  rewrite copy_to_length; [done|].
  pose proof (slice_length_le Y (Z.to_nat (Z.of_nat w * simd_inter_frame_level d * N d))
                (Z.to_nat (n_frames_per_wave d w * N d))).
  destruct (wave_range d w Hwf Hw) as (Hr & _).
  pose proof (wf_K _ _ _ Hwf). pose proof (wf_KN _ _ _ Hwf).
  rewrite Hlen. simpl. nia.
Qed.

Lemma wave_output_length ld st sf up s Yw Vw :
  length (wave_output ld st sf up s Yw Vw) = length Vw.
Proof.
  unfold wave_output. destruct st, sf, up; simpl;
    rewrite ?unpack_length, ?store_fast_length, ?store_length; done.
Qed.

Lemma V_N_length d w :
  wf d -> (w < Z.to_nat (n_dec_waves d))%nat ->
  length (nth w (V_N d) []) = (Z.to_nat (simd_inter_frame_level d * N d) + nB)%nat.
Proof.
  intros Hwf Hw. pose proof (wf_V _ _ _ Hwf) as HF. rewrite Forall_forall in HF.
  apply HF, list_elem_of_In, nth_In. rewrite (wf_V_len _ _ _ Hwf). lia.
Qed.

(** On a staged wave [__hard_decode] does not throw: both staging vectors
    are long enough for [load] and [store]. *)
Lemma hard_decode_wave d w Y ld st sf up :
  wf d -> (w < Z.to_nat (n_dec_waves d))%nat ->
  let d1 := if ld then with_Y_N d (<[w := staged d ld w Y]> (Y_N d)) else d in
  __hard_decode d1 (nth w (Y_N d1) []) (nth w (V_N d1) []) ld st sf up
  = (None,
     wave_output ld st sf up (state d) (staged d ld w Y) (nth w (V_N d) []),
     with_state d1 (state_after ld (state d) (staged d ld w Y))).
Proof.
  intros Hwf Hw d1.
  pose proof (staged_length d w Y ld Hwf Hw) as HlenY.
  pose proof (V_N_length d w Hwf Hw) as HlenV.
  pose proof (wf_K _ _ _ Hwf). pose proof (wf_KN _ _ _ Hwf).
  pose proof (wf_simd _ _ _ Hwf).
  assert (nth w (Y_N d1) [] = staged d ld w Y) as EY.
  { subst d1. destruct ld; simpl; [|done].
    rewrite nth_lookup, list_lookup_insert_eq; [done|].
    rewrite (wf_Y_len _ _ _ Hwf). lia. }
  assert (V_N d1 = V_N d) as EV by (subst d1; by destruct ld).
  assert (state d1 = state d) as ES by (subst d1; by destruct ld).
  assert (N d1 = N d /\ K d1 = K d
          /\ simd_inter_frame_level d1 = simd_inter_frame_level d) as (EN & EK & Es)
    by (subst d1; by destruct ld).
  rewrite EY, EV. unfold __hard_decode, load, store, store_fast, unpack,
    wave_output, state_after.
  rewrite EN, Es.
  destruct ld.
  - rewrite bool_decide_eq_false_2 by (rewrite HlenY; nia).
    cbn [with_state state K simd_inter_frame_level]. rewrite EK, Es, ES.
    destruct st; [|done]. destruct sf; [by destruct up|].
    rewrite bool_decide_eq_false_2 by (rewrite HlenV; nia). done.
  - cbn [with_state state K simd_inter_frame_level]. rewrite ES, EK, Es.
    destruct st; [|done]. destruct sf; [by destruct up|].
    rewrite bool_decide_eq_false_2 by (rewrite HlenV; nia). done.
Qed.

Lemma wave_spec d w Y V ld sf up :
  wf d -> (w < Z.to_nat (n_dec_waves d))%nat ->
  wave w Y ld true sf up d V
  = match unit_size d V with
    | Some M =>
        (None,
         copy_to (slice (wave_output ld true sf up (state d) (staged d ld w Y)
                                     (nth w (V_N d) []))
                        0 (wave_len d M w))
                 V (wave_off d M w),
         after_wave ld true sf up d w Y)
    | None => (Some runtime_error, V, after_wave ld true sf up d w Y)
    end.
Proof.
  intros Hwf Hw. unfold wave.
  pose proof (hard_decode_wave d w Y ld true sf up Hwf Hw) as E.
  destruct ld; unfold staged in *; cbn zeta in *; rewrite E;
    unfold unit_size, wave_len, wave_off, after_wave, staged;
    repeat case_bool_decide; reflexivity.
Qed.

Lemma wave_no_store d w Y V ld sf up :
  wf d -> (w < Z.to_nat (n_dec_waves d))%nat ->
  wave w Y ld false sf up d V = (None, V, after_wave ld false sf up d w Y).
Proof.
  intros Hwf Hw. unfold wave.
  pose proof (hard_decode_wave d w Y ld false sf up Hwf Hw) as E.
  destruct ld; unfold staged in *; cbn zeta in *; rewrite E;
    unfold after_wave, staged; reflexivity.
Qed.

Lemma after_wave_wf d w Y ld st sf up :
  wf d -> (w < Z.to_nat (n_dec_waves d))%nat -> wf (after_wave ld st sf up d w Y).
Proof.
  intros Hwf Hw. destruct Hwf as [? ? ? ? ? HYl HVl HY HV].
  assert (wf d) as Hwf by (by constructor).
  constructor; cbn [after_wave K N simd_inter_frame_level n_dec_waves
                    n_inter_frame_rest n_frames Y_N V_N]; try done.
  - destruct ld; [|done]. by rewrite length_insert.
  - by rewrite length_insert.
  - destruct ld; [|done]. apply Forall_insert; [done|].
    by apply (staged_length d w Y true).
  - apply Forall_insert; [done|].
    rewrite wave_output_length. by apply V_N_length.
Qed.

Lemma nth_insert_ne {A} (v : list A) (i j : nat) (x dflt : A) :
  i <> j -> nth j (<[i:=x]> v) dflt = nth j v dflt.
Proof. intros H. by rewrite !nth_lookup, list_lookup_insert_ne. Qed.

Lemma nth_insert_eq {A} (v : list A) (i : nat) (x dflt : A) :
  (i < length v)%nat -> nth i (<[i:=x]> v) dflt = x.
Proof. intros H. by rewrite nth_lookup, list_lookup_insert_eq. Qed.

Lemma unit_size_bounds d V M :
  wf d -> unit_size d V = Some M ->
  0 < M <= N d /\ M * n_frames d = Z.of_nat (length V).
Proof.
  intros Hwf. unfold unit_size.
  pose proof (wf_K _ _ _ Hwf). pose proof (wf_KN _ _ _ Hwf).
  repeat case_bool_decide; intros [= <-]; lia.
Qed.

Lemma staged_after_wave d m w Y ld ld' st sf up :
  m <> w -> staged (after_wave ld' st sf up d m Y) ld w Y = staged d ld w Y.
Proof.
  intros Hne. unfold staged, after_wave, n_frames_per_wave.
  cbn [Y_N N simd_inter_frame_level n_dec_waves n_inter_frame_rest].
  destruct ld'; [|done]. by rewrite nth_insert_ne.
Qed.

(** The wave loop with [store] enabled on a buffer of one of the two
    shapes: no exception; the results of wave [w] are the first entries of
    its staging vector and sit at the wave's offset. *)
Lemma waves_store_spec Y ld sf up : forall (j m : nat) d V M,
  wf d -> (m + j = Z.to_nat (n_dec_waves d))%nat -> unit_size d V = Some M ->
  exists V' d',
    waves (seq m j) Y ld true sf up d V = (None, V', d')
    /\ length V' = length V /\ wf d' /\ same_config d d'
    /\ (forall i, (i < wave_off d M m)%nat -> V' !! i = V !! i)
    /\ (forall w, (m <= w < m + j)%nat ->
          slice V' (wave_off d M w) (wave_len d M w)
          = take (wave_len d M w) (nth w (V_N d') [])
          /\ exists s, nth w (V_N d') []
                       = wave_output ld true sf up s (staged d ld w Y) (nth w (V_N d) []))
    /\ (forall w, (w < m)%nat -> nth w (V_N d') [] = nth w (V_N d) []).
Proof.
  induction j as [|j IH]; intros m d V M Hwf Hm HM.
  - exists V, d. simpl. split_and!; try done. intros w Hw. lia.
  - assert (m < Z.to_nat (n_dec_waves d))%nat as Hw by lia.
    destruct (unit_size_bounds d V M Hwf HM) as (HMb & HMlen).
    destruct (wave_range d m Hwf Hw) as (Hr1 & Hr2 & _).
    pose proof (wf_simd _ _ _ Hwf) as Hs.
    set (Vw := wave_output ld true sf up (state d) (staged d ld m Y) (nth m (V_N d) [])).
    set (seg := slice Vw 0 (wave_len d M m)).
    set (d1 := after_wave ld true sf up d m Y).
    set (V1 := copy_to seg V (wave_off d M m)).
    assert (length Vw = (Z.to_nat (simd_inter_frame_level d * N d) + nB)%nat) as HVw.
    { unfold Vw. rewrite wave_output_length. by apply V_N_length. }
    assert (length seg = wave_len d M m) as Hseg.
    { unfold seg. apply slice_length. rewrite HVw. unfold wave_len. nia. }
    assert (wave_off d M m + wave_len d M m <= length V)%nat as Hfit.
    { unfold wave_off, wave_len. nia. }
    assert (wave_off d M m + wave_len d M m <= wave_off d M (S m))%nat as Hnext.
    { unfold wave_off, wave_len. nia. }
    assert (length V1 = length V) as HV1.
    { unfold V1. apply copy_to_length. lia. }
    assert (wf d1) as Hwf1 by (by apply after_wave_wf).
    assert (unit_size d1 V1 = Some M) as HM1.
    { unfold unit_size in *. rewrite HV1. exact HM. }
    assert (S m + j = Z.to_nat (n_dec_waves d1))%nat as Hm1
      by (unfold d1, after_wave; cbn [n_dec_waves]; lia).
    destruct (IH (S m) d1 V1 M Hwf1 Hm1 HM1)
      as (V' & d' & Erun & Hlen & Hwf' & Hcfg & Hpre & Hseg' & Hold).
    exists V', d'. split.
    { cbn [seq waves]. rewrite (wave_spec d m Y V ld sf up Hwf Hw), HM. exact Erun. }
    split; [lia|]. split; [done|]. split; [exact Hcfg|].
    assert (nth m (V_N d') [] = Vw) as EVm.
    { rewrite Hold by lia. unfold d1, after_wave. cbn [V_N].
      apply nth_insert_eq. rewrite (wf_V_len _ _ _ Hwf). lia. }
    split; [|split].
    + intros i Hi. rewrite Hpre by (change (wave_off d1 M (S m)) with (wave_off d M (S m)); lia).
      unfold V1. apply copy_to_lookup_before; lia.
    + intros w Hwr. destruct (decide (w = m)) as [->|Hne].
      * split; [|by exists (state d)].
        rewrite EVm.
        rewrite (slice_ext V' V1 (wave_off d M m) (wave_len d M m)).
        2:{ intros i Hi. apply Hpre.
            change (wave_off d1 M (S m)) with (wave_off d M (S m)). lia. }
        pose proof (copy_to_slice seg V (wave_off d M m) ltac:(lia)) as Ecs.
        rewrite Hseg in Ecs. unfold V1. rewrite Ecs.
        unfold seg, slice. by rewrite drop_0.
      * destruct (Hseg' w ltac:(lia)) as (E1 & s & E2).
        split; [exact E1|]. exists s. rewrite E2. unfold d1.
        rewrite (staged_after_wave d m w Y ld ld true sf up) by lia.
        unfold d1, after_wave. cbn [V_N]. by rewrite nth_insert_ne by lia.
    + intros w Hwr. rewrite Hold by lia.
      unfold d1, after_wave. cbn [V_N]. by rewrite nth_insert_ne by lia.
Qed.

End WaveFacts.

Section HardDecodeFacts.

Import DecoderI.
Context {St : Type} {impl : Decoder_impl St} {lawful : Lawful impl}.
Variables (nR nB : nat).
Implicit Types (d : Decoder_i St) (Y V : list Z) (w : nat) (ld st sf up : bool).

Local Abbreviation wf := (wf nR nB).

(** The constructor establishes [wf]. *)
Lemma Decoder_i_new_wf k n nf s (init : St) d :
  Decoder_i_new nR nB k n nf s init = inr d ->
  wf d /\ K d = k /\ N d = n /\ n_frames d = nf /\ simd_inter_frame_level d = s
  /\ state d = init.
Proof.
  unfold Decoder_i_new. repeat case_bool_decide; intros [= <-].
  split; [|done].
  constructor; cbn [K N simd_inter_frame_level n_dec_waves n_inter_frame_rest
                    n_frames Y_N V_N]; try done; try lia.
  - by rewrite repeat_length.
  - by rewrite repeat_length.
  - apply Forall_forall. intros y Hy%list_elem_of_In%repeat_spec. subst y.
    by rewrite repeat_length.
  - apply Forall_forall. intros y Hy%list_elem_of_In%repeat_spec. subst y.
    by rewrite repeat_length.
Qed.

Lemma fast_path_iff d :
  wf d -> 0 < n_frames d ->
  (n_dec_waves d = 1 /\ n_inter_frame_rest d = 0)
  <-> n_frames d = simd_inter_frame_level d.
Proof.
  intros Hwf Hn. pose proof (wf_simd _ _ _ Hwf) as Hs.
  rewrite (wf_waves _ _ _ Hwf), (wf_rest _ _ _ Hwf).
  rewrite Z.rem_mod_nonneg by lia.
  destruct (ceil_div_spec (n_frames d) (simd_inter_frame_level d) Hs ltac:(lia)) as [C0 C1].
  pose proof (Z.div_mod (n_frames d) (simd_inter_frame_level d) ltac:(lia)) as E.
  pose proof (Z.mod_pos_bound (n_frames d) (simd_inter_frame_level d) Hs) as B.
  split.
  - intros [H1 H0]. rewrite C0 in H1 by done. nia.
  - intros Heq. rewrite Heq in *. rewrite Z.mod_same in * by lia.
    rewrite C0 by done. rewrite Z.div_same by lia. done.
Qed.

(** The fast path: one call of [__hard_decode] on the caller's buffers. *)
Lemma hard_decode_fast d Y V ld st sf up :
  wf d -> n_dec_waves d = 1 -> n_inter_frame_rest d = 0 ->
  N d * n_frames d = Z.of_nat (length Y) ->
  Z.of_nat (length V) <= N d * n_frames d ->
  hard_decode d Y V ld st sf up
  = if st && negb sf && bool_decide (Z.of_nat (length V) < K d * simd_inter_frame_level d)
    then (Some length_error, V, with_state d (state_after ld (state d) Y))
    else (None, wave_output ld st sf up (state d) Y V,
          with_state d (state_after ld (state d) Y)).
Proof.
  intros Hwf H1 H0 HY HV.
  assert (0 < n_frames d) as Hn.
  { destruct (Z_lt_le_dec 0 (n_frames d)) as [|Hle]; [done|]. exfalso.
    pose proof (waves_positive nR nB d 0 Hwf ltac:(lia)). lia. }
  pose proof (proj1 (fast_path_iff d Hwf Hn) (conj H1 H0)) as Heq.
  unfold hard_decode.
  rewrite bool_decide_eq_false_2 by lia.
  rewrite bool_decide_eq_false_2 by lia.
  rewrite bool_decide_eq_true_2 by done.
  unfold __hard_decode, load, store, store_fast, unpack, wave_output, state_after.
  destruct ld.
  - rewrite bool_decide_eq_false_2 by lia. cbn [with_state state K simd_inter_frame_level].
    destruct st; [|done]. destruct sf; [by destruct up|]. cbn [andb negb].
    by case_bool_decide; case_bool_decide; try lia.
  - cbn [with_state state K simd_inter_frame_level].
    destruct st; [|done]. destruct sf; [by destruct up|]. cbn [andb negb].
    case_bool_decide; case_bool_decide; try lia; by destruct d.
Qed.

Lemma hard_decode_general d Y V ld st sf up :
  N d * n_frames d = Z.of_nat (length Y) ->
  Z.of_nat (length V) <= N d * n_frames d ->
  ~ (n_dec_waves d = 1 /\ n_inter_frame_rest d = 0) ->
  hard_decode d Y V ld st sf up
  = waves (seq 0 (Z.to_nat (n_dec_waves d))) Y ld st sf up d V.
Proof.
  intros HY HV Hg. unfold hard_decode.
  rewrite bool_decide_eq_false_2 by lia.
  rewrite bool_decide_eq_false_2 by lia.
  by rewrite bool_decide_eq_false_2 by done.
Qed.

(** The wave loop never ends with a [length_error]. *)
Lemma waves_status Y ld st sf up : forall (j m : nat) d V,
  wf d -> (m + j = Z.to_nat (n_dec_waves d))%nat ->
  fst (fst (waves (seq m j) Y ld st sf up d V)) <> Some length_error.
Proof.
  induction j as [|j IH]; intros m d V Hwf Hm; [done|].
  assert (m < Z.to_nat (n_dec_waves d))%nat as Hw by lia.
  cbn [seq waves]. destruct st.
  - rewrite (wave_spec nR nB d m Y V ld sf up Hwf Hw).
    destruct (unit_size d V); [|done].
    apply IH; [by apply after_wave_wf | cbn [after_wave n_dec_waves]; lia].
  - rewrite (wave_no_store nR nB d m Y V ld sf up Hwf Hw).
    apply IH; [by apply after_wave_wf | cbn [after_wave n_dec_waves]; lia].
Qed.

Lemma waves_shape_error Y ld sf up (j m : nat) d V :
  wf d -> (m + S j = Z.to_nat (n_dec_waves d))%nat -> unit_size d V = None ->
  exists d', waves (seq m (S j)) Y ld true sf up d V = (Some runtime_error, V, d').
Proof.
  intros Hwf Hm HM. cbn [seq waves].
  rewrite (wave_spec nR nB d m Y V ld sf up Hwf ltac:(lia)), HM. eauto.
Qed.

End HardDecodeFacts.

Section Rep2.

Import DecoderI.

Lemma rep2_decoder_wf nf : DecoderI.wf 0 0 (rep2_decoder nf).
Proof.
  unfold rep2_decoder.
  destruct (Decoder_i_new 0 0 1 2 nf 2 []) as [e|d] eqn:E.
  - unfold Decoder_i_new in E. repeat case_bool_decide; try discriminate; lia.
  - by apply Decoder_i_new_wf in E as (? & _).
Qed.

End Rep2.

(** C6, as stated, fails: on the fast path (2 frames, 2 frames per wave,
    N = 2, K = 1) an input of N * n_frames LLRs and an output buffer of one
    entry pass both entry checks, and the call still ends with a
    [length_error], thrown by [store]. *)
Lemma hard_decode_length_error_past_entry_checks :
  let d := DecoderI.rep2_decoder 2 in
  let Y := [5; 3; -4; -6] in
  let V := [0] in
  DecoderI.N d * DecoderI.n_frames d = Z.of_nat (length Y)
  /\ Z.of_nat (length V) <= DecoderI.N d * DecoderI.n_frames d
  /\ fst (fst (DecoderI.hard_decode (impl := DecoderI.rep2_impl) d Y V true true false false))
     = Some length_error.
Proof. vm_compute. repeat split; congruence. Qed.

(** C6 (amended).  [hard_decode] ends with a [length_error] exactly when
    the input has not N * n_frames entries, or the output buffer has more
    than N * n_frames, or, both being fine, the call takes the fast path
    with the plain store enabled and the buffer has fewer than
    K * simd_inter_frame_level entries.  On the wave loop with store
    enabled: a buffer of K * n_frames entries receives, wave by wave at the
    K-scaled offset, the first K entries per frame of the wave's staging
    vector; else a buffer of N * n_frames entries receives the first N
    entries per frame at the N-scaled offset; any other buffer ends the
    call with a [runtime_error] and is left as it was. *)
Theorem hard_decode_errors_and_shapes {St : Type} {impl : DecoderI.Decoder_impl St}
    {lawful : DecoderI.Lawful impl} (nR nB : nat)
    (d : DecoderI.Decoder_i St) (Y V : list Z) (ld st sf up : bool) :
  DecoderI.wf nR nB d ->
  (fst (fst (DecoderI.hard_decode d Y V ld st sf up)) = Some length_error
   <-> (DecoderI.N d * DecoderI.n_frames d <> Z.of_nat (length Y)
        \/ DecoderI.N d * DecoderI.n_frames d < Z.of_nat (length V)
        \/ (DecoderI.n_dec_waves d = 1 /\ DecoderI.n_inter_frame_rest d = 0
            /\ st = true /\ sf = false
            /\ Z.of_nat (length V) < DecoderI.K d * DecoderI.simd_inter_frame_level d)))
  /\ (DecoderI.N d * DecoderI.n_frames d = Z.of_nat (length Y) ->
      Z.of_nat (length V) <= DecoderI.N d * DecoderI.n_frames d ->
      ~ (DecoderI.n_dec_waves d = 1 /\ DecoderI.n_inter_frame_rest d = 0) ->
      let r := DecoderI.hard_decode d Y V ld true sf up in
      (DecoderI.K d * DecoderI.n_frames d = Z.of_nat (length V) ->
       DecoderI.waves_copied d Y V ld sf up (DecoderI.K d) r)
      /\ (DecoderI.K d * DecoderI.n_frames d <> Z.of_nat (length V) ->
          DecoderI.N d * DecoderI.n_frames d = Z.of_nat (length V) ->
          DecoderI.waves_copied d Y V ld sf up (DecoderI.N d) r)
      /\ (DecoderI.K d * DecoderI.n_frames d <> Z.of_nat (length V) ->
          DecoderI.N d * DecoderI.n_frames d <> Z.of_nat (length V) ->
          fst (fst r) = Some runtime_error /\ snd (fst r) = V)).
Proof.
  intros Hwf. split.
  - destruct (decide (DecoderI.N d * DecoderI.n_frames d = Z.of_nat (length Y))) as [HY|HY].
    2:{ unfold DecoderI.hard_decode. rewrite bool_decide_eq_true_2 by done.
        split; [tauto|done]. }
    destruct (decide (DecoderI.N d * DecoderI.n_frames d < Z.of_nat (length V))) as [HV|HV].
    { unfold DecoderI.hard_decode. rewrite bool_decide_eq_false_2 by lia.
      rewrite bool_decide_eq_true_2 by done. split; [tauto|done]. }
    destruct (decide (DecoderI.n_dec_waves d = 1 /\ DecoderI.n_inter_frame_rest d = 0))
      as [[H1 H0]|Hg].
    + rewrite (hard_decode_fast nR nB d Y V ld st sf up Hwf H1 H0 HY ltac:(lia)).
      destruct st, sf; cbn [andb negb]; try (split; [done|];
        intros [?|[?|(_ & _ & ? & ? & _)]]; done || lia).
      case_bool_decide.
      * split; [|done]. intros _. right. right. done.
      * split; [done|]. intros [?|[?|(_ & _ & _ & _ & ?)]]; lia.
    + rewrite (hard_decode_general d Y V ld st sf up HY ltac:(lia) Hg).
      split; [|intros [?|[?|(? & ? & _)]]; try lia; tauto].
      intros E. exfalso. revert E.
      by apply (waves_status nR nB Y ld st sf up _ 0%nat d V Hwf).
  - intros HY HV Hg r. subst r.
    rewrite (hard_decode_general d Y V ld true sf up HY HV Hg).
    assert (forall M, DecoderI.unit_size d V = Some M ->
                      DecoderI.waves_copied d Y V ld sf up M
                        (DecoderI.waves (seq 0 (Z.to_nat (DecoderI.n_dec_waves d)))
                                        Y ld true sf up d V)) as Hcopy.
    { intros M HM.
      destruct (waves_store_spec nR nB Y ld sf up (Z.to_nat (DecoderI.n_dec_waves d))
                  0%nat d V M Hwf eq_refl HM)
        as (V' & d' & E & Hlen & _ & _ & _ & Hseg & _).
      exists V', d'. split; [exact E|]. split; [exact Hlen|].
      intros w Hw. apply Hseg. lia. }
    split; [|split].
    + intros HK. apply Hcopy. unfold DecoderI.unit_size.
      by rewrite bool_decide_eq_true_2.
    + intros HK HN. apply Hcopy. unfold DecoderI.unit_size.
      rewrite bool_decide_eq_false_2 by done. by rewrite bool_decide_eq_true_2.
    + intros HK HN.
      assert (DecoderI.unit_size d V = None) as HM.
      { unfold DecoderI.unit_size. by rewrite !bool_decide_eq_false_2. }
      destruct (Z.to_nat (DecoderI.n_dec_waves d)) as [|j] eqn:Ej.
      * exfalso.
        assert (DecoderI.n_frames d <= 0) as Hle.
        { destruct (Z_lt_le_dec 0 (DecoderI.n_frames d)) as [Hpos|]; [|done].
          exfalso. pose proof (DecoderI.wf_simd _ _ _ Hwf) as Hs.
          pose proof (DecoderI.wf_waves _ _ _ Hwf) as Ew.
          destruct (ceil_div_spec (DecoderI.n_frames d)
                      (DecoderI.simd_inter_frame_level d) Hs ltac:(lia)) as [C0 C1].
          pose proof (Z.div_mod (DecoderI.n_frames d)
                        (DecoderI.simd_inter_frame_level d) ltac:(lia)).
          pose proof (Z.mod_pos_bound (DecoderI.n_frames d)
                        (DecoderI.simd_inter_frame_level d) Hs).
          pose proof (Z.div_pos (DecoderI.n_frames d)
                        (DecoderI.simd_inter_frame_level d) ltac:(lia) Hs).
          destruct (decide (DecoderI.n_frames d mod DecoderI.simd_inter_frame_level d = 0));
            [rewrite C0 in Ew by done | rewrite C1 in Ew by done]; nia. }
        pose proof (DecoderI.wf_K _ _ _ Hwf). pose proof (DecoderI.wf_KN _ _ _ Hwf).
        nia.
      * destruct (waves_shape_error nR nB Y ld sf up j 0%nat d V Hwf ltac:(lia) HM)
          as (d' & E).
        rewrite E. done.
Qed.

Lemma hard_decode_errors_and_shapes_witness :
  let d := DecoderI.rep2_decoder 5 in
  let Y := [5; 3; -4; -6; 1; -9; -2; -2; 8; 0] in
  let V := [7; 7; 7; 7; 7] in
  fst (fst (DecoderI.hard_decode (impl := DecoderI.rep2_impl) d Y V true true false false))
  <> Some length_error
  /\ DecoderI.waves_copied (impl := DecoderI.rep2_impl) d Y V true false false 1
       (DecoderI.hard_decode (impl := DecoderI.rep2_impl) d Y V true true false false).
Proof.
  intros d Y V.
  destruct (hard_decode_errors_and_shapes (impl := DecoderI.rep2_impl) 0 0 d Y V
              true true false false
              (rep2_decoder_wf 5)) as [H1 H2].
  split.
  - intros E. apply H1 in E. vm_compute in E.
    destruct E as [E|[E|(E & _)]]; [by apply E | discriminate E | discriminate E].
  - apply H2; vm_compute; try congruence. intros [E _]. discriminate E.
Defined.

(** C10.  On the fast path ([n_frames = simd_inter_frame_level], hence one
    wave and no remainder) [hard_decode] with store enabled never ends with
    the [runtime_error] of the shape test.  Once the two entry checks have
    passed, the call ends normally exactly when the fast store is selected
    or the buffer has at least K * simd_inter_frame_level entries; in
    particular a buffer whose length lies strictly between K * n_frames and
    N * n_frames is accepted and is what the decoder's store made of it. *)
Theorem fast_path_no_shape_error {St : Type} {impl : DecoderI.Decoder_impl St}
    {lawful : DecoderI.Lawful impl} (nR nB : nat)
    (d : DecoderI.Decoder_i St) (Y V : list Z) (ld sf up : bool) :
  DecoderI.wf nR nB d ->
  DecoderI.n_frames d = DecoderI.simd_inter_frame_level d ->
  let r := DecoderI.hard_decode d Y V ld true sf up in
  (DecoderI.n_dec_waves d = 1 /\ DecoderI.n_inter_frame_rest d = 0)
  /\ fst (fst r) <> Some runtime_error
  /\ (DecoderI.N d * DecoderI.n_frames d = Z.of_nat (length Y) ->
      Z.of_nat (length V) <= DecoderI.N d * DecoderI.n_frames d ->
      (fst (fst r) = None
       <-> sf = true
           \/ DecoderI.K d * DecoderI.simd_inter_frame_level d <= Z.of_nat (length V)))
  /\ (DecoderI.N d * DecoderI.n_frames d = Z.of_nat (length Y) ->
      DecoderI.K d * DecoderI.n_frames d < Z.of_nat (length V)
                                         < DecoderI.N d * DecoderI.n_frames d ->
      r = (None,
           DecoderI.wave_output ld true sf up (DecoderI.state d) Y V,
           DecoderI.with_state d (DecoderI.state_after ld (DecoderI.state d) Y))
      /\ (sf = false ->
          snd (fst r)
          = DecoderI._store (DecoderI.state_after ld (DecoderI.state d) Y) V)).
Proof.
  intros Hwf Heq r.
  pose proof (DecoderI.wf_simd _ _ _ Hwf) as Hs.
  destruct (proj2 (fast_path_iff nR nB d Hwf ltac:(lia)) Heq) as [H1 H0].
  split; [done|].
  assert (DecoderI.N d * DecoderI.n_frames d = Z.of_nat (length Y) ->
          Z.of_nat (length V) <= DecoderI.N d * DecoderI.n_frames d ->
          r = if negb sf && bool_decide (Z.of_nat (length V)
                                         < DecoderI.K d * DecoderI.simd_inter_frame_level d)
              then (Some length_error, V,
                    DecoderI.with_state d (DecoderI.state_after ld (DecoderI.state d) Y))
              else (None, DecoderI.wave_output ld true sf up (DecoderI.state d) Y V,
                    DecoderI.with_state d (DecoderI.state_after ld (DecoderI.state d) Y)))
    as Hfast.
  { intros HY HV. unfold r.
    by rewrite (hard_decode_fast nR nB d Y V ld true sf up Hwf H1 H0 HY HV). }
  split; [|split].
  - destruct (decide (DecoderI.N d * DecoderI.n_frames d = Z.of_nat (length Y))) as [HY|HY].
    2:{ unfold r, DecoderI.hard_decode. by rewrite bool_decide_eq_true_2. }
    destruct (decide (DecoderI.N d * DecoderI.n_frames d < Z.of_nat (length V))) as [HV|HV].
    { unfold r, DecoderI.hard_decode. rewrite bool_decide_eq_false_2 by lia.
      by rewrite bool_decide_eq_true_2. }
    rewrite Hfast by lia. by destruct (negb sf && _).
  - intros HY HV. rewrite Hfast by done.
    destruct sf; cbn [negb andb]; [tauto|].
    case_bool_decide; cbn [fst]; split; try done; try lia; try (right; lia).
    all: intros [?|?]; [done|lia].
  - intros HY HV. rewrite Hfast by lia.
    rewrite (bool_decide_eq_false_2 (Z.of_nat (length V) < _)) by lia.
    rewrite andb_false_r. split; [done|]. by intros ->.
Qed.

Lemma fast_path_no_shape_error_witness :
  let d := DecoderI.rep2_decoder 2 in
  DecoderI.hard_decode (impl := DecoderI.rep2_impl) d [5; 3; -4; -6] [9; 9; 9]
                       true true false false
  = (None, [0; 1; 9],
     DecoderI.with_state d
       (DecoderI.state_after (impl := DecoderI.rep2_impl) true (DecoderI.state d)
                             [5; 3; -4; -6])).
Proof.
  intros d.
  destruct (fast_path_no_shape_error (impl := DecoderI.rep2_impl) 0 0 d
              [5; 3; -4; -6] [9; 9; 9] true false false
              (rep2_decoder_wf 2) eq_refl) as (_ & _ & _ & H).
  destruct H as [E _]; [reflexivity | vm_compute; split; reflexivity |].
  exact E.
Defined.

Section FrameFacts.

Import DecoderI.
Implicit Types (v a b : list Z) (frames : list (list Z)) (off n i : nat).

Lemma slice_app_l a b off n :
  (off + n <= length a)%nat -> slice (a ++ b) off n = slice a off n.
Proof.
  intros H. apply list_eq. intros i. unfold slice.
  destruct (decide (i < n)%nat).
  - rewrite !lookup_take_lt, !lookup_drop by done. apply lookup_app_l. lia.
  - by rewrite !lookup_take_ge by lia.
Qed.

Lemma slice_slice v off n off' n' :
  (off' + n' <= n)%nat -> slice (slice v off n) off' n' = slice v (off + off') n'.
Proof.
  intros H. apply list_eq. intros i. unfold slice.
  destruct (decide (i < n')%nat).
  - rewrite !lookup_take_lt, !lookup_drop by done.
    rewrite lookup_take_lt by lia. rewrite lookup_drop. f_equal. lia.
  - by rewrite !lookup_take_ge by lia.
Qed.

Lemma slice_all v : slice v 0 (length v) = v.
Proof. unfold slice. by rewrite drop_0, firstn_all. Qed.

Lemma slice_concat_frame N frames i :
  Forall (fun f => length f = N) frames -> (i < length frames)%nat ->
  slice (List.concat frames) (i * N) N = nth i frames [].
Proof.
  intros HF. revert i. induction HF as [|f frames Hf HF IH]; intros i Hi; [simpl in Hi; lia|].
  destruct i as [|i]; simpl.
  - rewrite slice_app_l by lia. subst N. apply slice_all.
  - unfold slice. rewrite drop_app_ge by lia.
    replace (N + i * N - length f)%nat with (i * N)%nat by lia.
    apply IH. simpl in Hi. lia.
Qed.

Lemma length_concat_frames N frames :
  Forall (fun f => length f = N) frames ->
  length (List.concat frames) = (length frames * N)%nat.
Proof. induction 1; simpl; [done|]. rewrite length_app. lia. Qed.

(** A vector is the concatenation of consecutive slices that cover it. *)
Lemma slices_cover3 v n0 n1 n2 :
  length v = (n0 + n1 + n2)%nat ->
  v = slice v 0 n0 ++ slice v n0 n1 ++ slice v (n0 + n1) n2.
Proof.
  intros H. unfold slice. rewrite drop_0.
  rewrite <- (take_drop n0 v) at 1. f_equal.
  rewrite <- (take_drop n1 (drop n0 v)) at 1. f_equal.
  rewrite drop_drop. rewrite take_ge; [done|]. rewrite length_drop. lia.
Qed.

End FrameFacts.

Section Batching.

Import DecoderI.
Context {St : Type} {impl : Decoder_impl St} {lawful : Lawful impl}.
Variables (K0 N0 : nat).
Context {lanes : LaneWise impl K0 N0 2}.
Variables (nR nB : nat).
Implicit Types (d : Decoder_i St) (Y V : list Z) (w : nat) (frames : list (list Z)).

Local Abbreviation configured := (configured nR nB K0 N0).

Lemma configured_sizes d n : configured n d -> (0 < K0 <= N0)%nat.
Proof.
  intros (Hwf & _ & _ & HK & HN).
  pose proof (wf_K _ _ _ Hwf). pose proof (wf_KN _ _ _ Hwf). lia.
Qed.

(** What a wave leaves in its staging vector: the decisions for the two
    lanes of the staged input. *)
Lemma lanes_output d n w Y (s : St) :
  configured n d -> (w < Z.to_nat (n_dec_waves d))%nat ->
  wave_output true true false false s (staged d true w Y) (nth w (V_N d) [])
  = frame_dec (slice (staged d true w Y) 0 N0)
    ++ frame_dec (slice (staged d true w Y) N0 N0)
    ++ drop (2 * K0) (nth w (V_N d) []).
Proof.
  intros Hc Hw. pose proof (configured_sizes d n Hc) as HKN.
  destruct Hc as (Hwf & _ & Hs & HK & HN).
  unfold wave_output, state_after.
  rewrite lane_law.
  - cbn [seq List.map List.concat]. rewrite app_nil_r, <- app_assoc.
    rewrite Nat.mul_0_l, Nat.mul_1_l. done.
  - rewrite (staged_length nR nB d w Y true Hwf Hw). rewrite Hs, HN. lia.
  - rewrite (V_N_length nR nB d w Hwf Hw). rewrite Hs, HN. lia.
Qed.

Lemma staged_lane0 d n w Y :
  configured n d -> (w < Z.to_nat (n_dec_waves d))%nat ->
  N d * n_frames d = Z.of_nat (length Y) ->
  slice (staged d true w Y) 0 N0 = slice Y (2 * w * N0) N0.
Proof.
  intros Hc Hw HY. destruct Hc as (Hwf & _ & Hs & HK & HN).
  destruct (wave_range nR nB d w Hwf Hw) as (Hr1 & Hr2 & _).
  unfold staged, copy_to. rewrite take_0, app_nil_l.
  rewrite slice_app_l.
  - rewrite slice_slice by nia. f_equal. nia.
  - rewrite slice_length by nia. nia.
Qed.

Lemma staged_lane1 d n w Y :
  configured n d -> (w < Z.to_nat (n_dec_waves d))%nat ->
  N d * n_frames d = Z.of_nat (length Y) ->
  n_frames_per_wave d w = 2 ->
  slice (staged d true w Y) N0 N0 = slice Y ((2 * w + 1) * N0) N0.
Proof.
  intros Hc Hw HY H2. destruct Hc as (Hwf & _ & Hs & HK & HN).
  destruct (wave_range nR nB d w Hwf Hw) as (Hr1 & Hr2 & _).
  unfold staged, copy_to. rewrite take_0, app_nil_l.
  rewrite slice_app_l.
  - rewrite slice_slice by nia. f_equal. nia.
  - rewrite slice_length by nia. nia.
Qed.

Lemma configured_waves d n :
  configured n d ->
  n_dec_waves d = ceil_div n 2 /\ n_inter_frame_rest d = Z.rem n 2.
Proof.
  intros (Hwf & Hn & Hs & _). rewrite <- Hn, <- Hs.
  split; [apply (wf_waves _ _ _ Hwf) | apply (wf_rest _ _ _ Hwf)].
Qed.

(** The single-frame path: one frame in, its decision out. *)
Lemma single_frame_call d f b :
  configured 1 d -> length f = N0 -> length b = K0 ->
  exists d', hard_decode d f b true true false false = (None, frame_dec f, d')
             /\ configured 1 d'.
Proof.
  intros Hc Hf Hb. pose proof (configured_sizes d 1 Hc) as HKN.
  destruct (configured_waves d 1 Hc) as [Ew Er].
  change (ceil_div 1 2) with 1 in Ew. change (Z.rem 1 2) with 1 in Er.
  pose proof Hc as (Hwf & Hn & Hs & HK & HN).
  assert (N d * n_frames d = Z.of_nat (length f)) as HY by lia.
  rewrite (hard_decode_general d f b true true false false HY) by lia.
  assert (unit_size d b = Some (K d)) as HM.
  { unfold unit_size. rewrite bool_decide_eq_true_2; [done|lia]. }
  destruct (waves_store_spec nR nB f true false false (Z.to_nat (n_dec_waves d))
              0%nat d b (K d) Hwf eq_refl HM)
    as (V' & d' & E & Hlen & Hwf' & Hcfg & _ & Hseg & _).
  destruct (Hseg 0%nat ltac:(lia)) as (E1 & s & E2).
  assert (n_frames_per_wave d 0 = 1) as Hfpw.
  { unfold n_frames_per_wave. rewrite Ew, Er. by case_bool_decide; [|lia]. }
  assert (wave_off d (K d) 0 = 0%nat) as Eoff by (unfold wave_off; lia).
  assert (wave_len d (K d) 0 = K0) as Elen by (unfold wave_len; lia).
  rewrite Eoff, Elen in E1.
  rewrite E2, (lanes_output d 1 0 f s Hc ltac:(lia)) in E1.
  rewrite (staged_lane0 d 1 0 f Hc ltac:(lia) HY) in E1.
  rewrite Nat.mul_0_r, Nat.mul_0_l in E1.
  assert (slice f 0 N0 = f) as Ef by (rewrite <- Hf; apply slice_all).
  assert (slice V' 0 K0 = V') as EV' by (rewrite <- Hb, <- Hlen; apply slice_all).
  rewrite Ef, EV' in E1.
  rewrite take_app_length' in E1 by (symmetry; by apply frame_dec_length).
  exists d'. rewrite E, E1. split; [done|].
  destruct Hcfg as (? & ? & ? & ? & ? & ?). unfold DecoderI.configured.
  split_and!; try done; congruence.
Qed.

Lemma run_frames_spec : forall frames bufs d,
  configured 1 d ->
  Forall (fun f => length f = N0) frames -> Forall (fun b => length b = K0) bufs ->
  length bufs = length frames ->
  run_frames d frames bufs = Some (List.map frame_dec frames).
Proof.
  induction frames as [|f frames IH]; intros [|b bufs] d Hc HF HB Hl;
    try discriminate Hl; [done|].
  apply Forall_cons in HF as [Hf HF]. apply Forall_cons in HB as [Hb HB].
  destruct (single_frame_call d f b Hc Hf Hb) as (d' & E & Hc').
  cbn [run_frames List.map]. rewrite E.
  rewrite (IH bufs d' Hc' HF HB) by (simpl in Hl; lia). done.
Qed.

(** Five frames at once: three waves, the last one with a single frame. *)
Lemma five_frames_call d frames V :
  configured 5 d -> length frames = 5%nat ->
  Forall (fun f => length f = N0) frames -> length V = (5 * K0)%nat ->
  exists d', hard_decode d (List.concat frames) V true true false false
             = (None, List.concat (List.map frame_dec frames), d').
Proof.
  intros Hc Hfr HF HV. pose proof (configured_sizes d 5 Hc) as HKN.
  destruct (configured_waves d 5 Hc) as [Ew Er].
  change (ceil_div 5 2) with 3 in Ew. change (Z.rem 5 2) with 1 in Er.
  pose proof Hc as (Hwf & Hn & Hs & HK & HN).
  pose proof (length_concat_frames N0 frames HF) as HlenY.
  assert (N d * n_frames d = Z.of_nat (length (List.concat frames))) as HY by lia.
  rewrite (hard_decode_general d _ V true true false false HY) by lia.
  assert (unit_size d V = Some (K d)) as HM.
  { unfold unit_size. rewrite bool_decide_eq_true_2; [done|lia]. }
  destruct (waves_store_spec nR nB (List.concat frames) true false false
              (Z.to_nat (n_dec_waves d)) 0%nat d V (K d) Hwf eq_refl HM)
    as (V' & d' & E & Hlen & _ & _ & _ & Hseg & _).
  exists d'. rewrite E. f_equal. f_equal.
  assert (forall w, (w < 2)%nat -> n_frames_per_wave d w = 2) as Hfull.
  { intros w Hw. unfold n_frames_per_wave. rewrite Ew, Er, Hs.
    case_bool_decide; [lia|done]. }
  assert (n_frames_per_wave d 2 = 1) as Hlast.
  { unfold n_frames_per_wave. rewrite Ew, Er. by case_bool_decide; [|lia]. }
  assert (forall w, (w < 3)%nat ->
            slice (staged d true w (List.concat frames)) 0 N0 = nth (2 * w) frames []) as L0.
  { intros w Hw. rewrite (staged_lane0 d 5 w _ Hc ltac:(lia) HY).
    apply slice_concat_frame; [done|lia]. }
  assert (forall w, (w < 2)%nat ->
            slice (staged d true w (List.concat frames)) N0 N0
            = nth (2 * w + 1) frames []) as L1.
  { intros w Hw. rewrite (staged_lane1 d 5 w _ Hc ltac:(lia) HY (Hfull w Hw)).
    apply slice_concat_frame; [done|lia]. }
  assert (forall i, (i < 5)%nat -> length (frame_dec (nth i frames [])) = K0) as Hfd.
  { intros i Hi. apply frame_dec_length.
    rewrite Forall_forall in HF. apply HF, list_elem_of_In, nth_In. lia. }
  assert (forall w, (w < 2)%nat ->
            slice V' (2 * w * K0) (2 * K0)
            = frame_dec (nth (2 * w) frames []) ++ frame_dec (nth (2 * w + 1) frames [])) as S2.
  { intros w Hw. destruct (Hseg w ltac:(lia)) as (E1 & s & E2).
    replace (wave_off d (K d) w) with (2 * w * K0)%nat in E1 by (unfold wave_off; nia).
    replace (wave_len d (K d) w) with (2 * K0)%nat in E1
      by (unfold wave_len; rewrite (Hfull w Hw); nia).
    rewrite E1, E2, (lanes_output d 5 w _ s Hc ltac:(lia)).
    rewrite (L0 w ltac:(lia)), (L1 w Hw).
    rewrite app_assoc. apply take_app_length'.
    rewrite length_app, !Hfd by lia. lia. }
  assert (slice V' (4 * K0) K0 = frame_dec (nth 4 frames [])) as S1.
  { destruct (Hseg 2%nat ltac:(lia)) as (E1 & s & E2).
    replace (wave_off d (K d) 2) with (4 * K0)%nat in E1 by (unfold wave_off; nia).
    replace (wave_len d (K d) 2) with K0 in E1
      by (unfold wave_len; rewrite Hlast; nia).
    rewrite E1, E2, (lanes_output d 5 2 _ s Hc ltac:(lia)).
    rewrite (L0 2%nat ltac:(lia)).
    apply take_app_length'. symmetry. apply Hfd. lia. }
  rewrite (slices_cover3 V' (2 * K0) (2 * K0) K0) by lia.
  pose proof (S2 0%nat ltac:(lia)) as Sa. pose proof (S2 1%nat ltac:(lia)) as Sb.
  cbn [Nat.mul Nat.add] in Sa, Sb. rewrite !Nat.add_0_r in *.
  destruct frames as [|f0 [|f1 [|f2 [|f3 [|f4 [|f5 frames]]]]]]; try discriminate Hfr.
  cbn [nth] in *. cbn [List.map List.concat]. rewrite app_nil_r.
  replace (2 * K0)%nat with (K0 + K0)%nat by lia.
  replace (K0 + K0 + (K0 + K0))%nat with (4 * K0)%nat by lia.
  rewrite Sa.
  replace (K0 + K0 + K0 + K0)%nat with (K0 + K0 + (K0 + K0))%nat in Sb by lia.
  replace (4 * K0)%nat with (K0 + K0 + (K0 + K0))%nat in * by lia.
  rewrite Sb, S1. by rewrite <- !app_assoc.
Qed.

End Batching.

Lemma rep2_configured nf :
  DecoderI.configured 0 0 1 2 nf (DecoderI.rep2_decoder nf).
Proof.
  split; [apply rep2_decoder_wf|]. by split_and!.
Qed.

(** C2.  A decoder for 5 frames that absorbs 2 frames per wave (3 waves,
    the last one holding 1 frame) and whose wave primitive decodes every
    lane as the single frame decoder does: one call of [hard_decode] on
    the 5 frames ends normally, and so do 5 calls of the single-frame path
    (the same decoder class set up for 1 frame) on the frames one by one;
    the buffer of the one call is, frame by frame, what the 5 calls
    filled. *)
Theorem wave_batching_equivalence {St : Type} {impl : DecoderI.Decoder_impl St}
    {lawful : DecoderI.Lawful impl} (K0 N0 : nat)
    {lanes : DecoderI.LaneWise impl K0 N0 2} (nR nB : nat)
    (d5 d1 : DecoderI.Decoder_i St) (frames bufs : list (list Z)) (V : list Z) :
  DecoderI.configured nR nB K0 N0 5 d5 ->
  DecoderI.configured nR nB K0 N0 1 d1 ->
  length frames = 5%nat -> Forall (fun f => length f = N0) frames ->
  length bufs = 5%nat -> Forall (fun b => length b = K0) bufs ->
  length V = (5 * K0)%nat ->
  DecoderI.n_dec_waves d5 = 3 /\ DecoderI.n_frames_per_wave d5 2 = 1
  /\ exists outs d5',
      DecoderI.run_frames d1 frames bufs = Some outs
      /\ length outs = 5%nat
      /\ DecoderI.hard_decode d5 (List.concat frames) V true true false false
         = (None, List.concat outs, d5').
Proof.
  intros H5 H1 Hfr HF Hbl HB HV.
  destruct (configured_waves K0 N0 nR nB d5 5 H5) as [Ew Er].
  change (DecoderI.ceil_div 5 2) with 3 in Ew. change (Z.rem 5 2) with 1 in Er.
  split; [exact Ew|]. split.
  { unfold DecoderI.n_frames_per_wave. rewrite Ew, Er. by case_bool_decide; [|lia]. }
  destruct (five_frames_call K0 N0 nR nB d5 frames V H5 Hfr HF HV) as (d5' & E5).
  exists (List.map DecoderI.frame_dec frames), d5'. split; [|split].
  - apply (run_frames_spec K0 N0 nR nB); try done. lia.
  - rewrite length_map. exact Hfr.
  - exact E5.
Qed.

Lemma wave_batching_equivalence_witness :
  let frames := [[5; 3]; [-4; -6]; [1; -9]; [-2; -2]; [8; 0]] in
  let bufs := [[7]; [7]; [7]; [7]; [7]] in
  exists outs d5',
    DecoderI.run_frames (impl := DecoderI.rep2_impl) (DecoderI.rep2_decoder 1) frames bufs
    = Some outs
    /\ length outs = 5%nat
    /\ DecoderI.hard_decode (impl := DecoderI.rep2_impl) (DecoderI.rep2_decoder 5)
         (List.concat frames) [7; 7; 7; 7; 7] true true false false
       = (None, List.concat outs, d5').
Proof.
  intros frames bufs.
  apply (wave_batching_equivalence (impl := DecoderI.rep2_impl) 1 2 0 0
           (DecoderI.rep2_decoder 5) (DecoderI.rep2_decoder 1) frames bufs
           [7; 7; 7; 7; 7] (rep2_configured 5) (rep2_configured 1)).
  - reflexivity.
  - repeat constructor.
  - reflexivity.
  - repeat constructor.
  - reflexivity.
Defined.

Example rep2_five_frames :
  snd (fst (DecoderI.hard_decode (impl := DecoderI.rep2_impl) (DecoderI.rep2_decoder 5)
              [5; 3; -4; -6; 1; -9; -2; -2; 8; 0] [7; 7; 7; 7; 7] true true false false))
  = [0; 1; 1; 1; 0].
Proof. vm_compute. reflexivity. Qed.

(* ===================================================================== *)
(** * Properties of the constructor of [Decoder_polar_MK_SC_naive]       *)
(* ===================================================================== *)

Section ConstructorFacts.

Import PolarMK.
Implicit Types (M : list (list bool)) (code : Polar_code) (fb : list bool).

Lemma same_polar_kernel_eq a b : same_polar_kernel a b = true <-> a = b.
Proof.
  split.
  - unfold same_polar_kernel.
    destruct (length a =? length b)%nat eqn:El; [|discriminate]. cbn [negb].
    apply Nat.eqb_eq in El. rewrite forallb_forall. intros H.
    apply (nth_ext a b [] []); [done|]. intros i Hi.
    assert (In i (seq 0 (length a))) as Hin by (apply in_seq; lia).
    specialize (H i Hin).
    destruct (length (nth i a []) =? length (nth i b []))%nat eqn:Er; [|discriminate].
    cbn [negb] in H. apply Nat.eqb_eq in Er. rewrite forallb_forall in H.
    apply (nth_ext _ _ false false); [done|]. intros j Hj.
    apply eqb_prop, H, in_seq. lia.
  - intros <-. unfold same_polar_kernel. rewrite Nat.eqb_refl. cbn [negb].
    apply forallb_forall. intros i _. rewrite Nat.eqb_refl. cbn [negb].
    apply forallb_forall. intros j _. apply eqb_reflx.
Qed.

Lemma same_polar_kernel_neq a b : same_polar_kernel a b = false <-> a <> b.
Proof.
  rewrite <- same_polar_kernel_eq. by destruct (same_polar_kernel a b).
Qed.

Lemma recognized_size M : recognized M -> (2 <= length M)%nat.
Proof. intros [-> | [-> | ->]]; simpl; lia. Qed.

Lemma lambdas_of_recognized M :
  recognized M ->
  (M = kernel_arikan /\ lambdas_of M = lambdas_arikan)
  \/ (M = kernel_t1 /\ lambdas_of M = lambdas_t1)
  \/ (M = kernel_t2 /\ lambdas_of M = lambdas_t2).
Proof. intros [-> | [-> | ->]]; auto. Qed.

Ltac by_cases P :=
  destruct (decide P);
  [ rewrite (bool_decide_eq_true_2 P) by assumption
  | rewrite (bool_decide_eq_false_2 P) by assumption ].

(** The constructor, check by check: either a check before the allocation
    fails, and nothing is leaked, or they all pass and the kernel test
    decides. *)
Lemma constructor_cases K N code fb nf :
  (~ checks_pass K N code fb
   /\ exists e, Decoder_polar_MK_SC_naive_new K N code fb nf = Failed e []
                /\ (0 < K <= N -> is_mono_kernel code = true ->
                    recognized (nth 0 (get_kernel_matrices code) []) ->
                    N = get_codeword_size code -> N = Z.of_nat (length fb) ->
                    e = runtime_error))
  \/ (checks_pass K N code fb
      /\ Decoder_polar_MK_SC_naive_new K N code fb nf
         = let M := nth 0 (get_kernel_matrices code) [] in
           let tree := built_tree code N fb in
           let Ke := List.map Ke_of (get_kernel_matrices code) in
           if same_polar_kernel M kernel_arikan
              || same_polar_kernel M kernel_t1 || same_polar_kernel M kernel_t2
           then Constructed (mkDecoder K N nf code fb tree Ke (lambdas_of M))
           else Failed runtime_error (contents_of tree)).
Proof.
  unfold Decoder_polar_MK_SC_naive_new, base_checks, checks_pass.
  by_cases (K <= 0).
  { left. split; [lia|]. eexists. split; [done|]. lia. }
  by_cases (N <= 0).
  { left. split; [lia|]. eexists. split; [done|]. lia. }
  by_cases (1 <= 0); [lia|].
  by_cases (K > N).
  { left. split; [lia|]. eexists. split; [done|]. lia. }
  by_cases (length (nth 0 (get_kernel_matrices code) []) = 0%nat).
  { left. split; [lia|]. eexists. split; [done|].
    intros _ _ Hr%recognized_size. lia. }
  destruct (is_mono_kernel code) eqn:Hm; cbn [negb].
  2:{ left. split; [intros (_ & _ & ? & _); done|]. eexists. split; [done|]. done. }
  by_cases (length (nth 0 (get_kernel_matrices code) []) < 2)%nat.
  { left. split; [lia|]. eexists. split; [done|].
    intros _ _ Hr%recognized_size. lia. }
  by_cases (N <> get_codeword_size code).
  { left. split; [tauto|]. eexists. split; [done|]. tauto. }
  by_cases (N <> Z.of_nat (length fb)).
  { left. split; [tauto|]. eexists. split; [done|]. tauto. }
  assert (N = Z.of_nat (length fb)) as Hl by lia.
  assert (take (Z.to_nat N) fb = fb) as Etake by (rewrite Hl, Nat2Z.id; apply firstn_all).
  rewrite Etake. fold (zero_count fb).
  by_cases (K <> zero_count fb).
  { left. split; [tauto|]. eexists. split; [done|]. done. }
  right. split; [split_and!; try done; lia|].
  cbn zeta. unfold lambdas_of, built_tree.
  by repeat destruct (same_polar_kernel _ _).
Qed.

Lemma constructor_after_checks K N code fb nf :
  checks_pass K N code fb ->
  Decoder_polar_MK_SC_naive_new K N code fb nf
  = let M := nth 0 (get_kernel_matrices code) [] in
    let tree := built_tree code N fb in
    let Ke := List.map Ke_of (get_kernel_matrices code) in
    if same_polar_kernel M kernel_arikan
       || same_polar_kernel M kernel_t1 || same_polar_kernel M kernel_t2
    then Constructed (mkDecoder K N nf code fb tree Ke (lambdas_of M))
    else Failed runtime_error (contents_of tree).
Proof.
  intros Hc. by destruct (constructor_cases K N code fb nf) as [[Hn _]|[_ E]].
Qed.

Lemma recognized_iff M :
  recognized M
  <-> same_polar_kernel M kernel_arikan
      || same_polar_kernel M kernel_t1 || same_polar_kernel M kernel_t2 = true.
Proof.
  unfold recognized. rewrite !orb_true_iff, !same_polar_kernel_eq. tauto.
Qed.

Lemma constructor_inv K N code fb nf d :
  Decoder_polar_MK_SC_naive_new K N code fb nf = Constructed d ->
  checks_pass K N code fb
  /\ recognized (nth 0 (get_kernel_matrices code) [])
  /\ d = mkDecoder K N nf code fb (built_tree code N fb)
                   (List.map Ke_of (get_kernel_matrices code))
                   (lambdas_of (nth 0 (get_kernel_matrices code) [])).
Proof.
  intros E.
  destruct (constructor_cases K N code fb nf) as [(_ & e & E' & _)|[Hc E']];
    rewrite E' in E; [discriminate|].
  split; [exact Hc|]. cbn zeta in E. rewrite recognized_iff.
  destruct (_ || _); [|discriminate]. injection E as <-. done.
Qed.

(** Every failure that comes before the allocation leaks nothing; the
    unrecognized kernel is detected after it. *)
Lemma constructor_failure_cases K N code fb nf e leaked :
  Decoder_polar_MK_SC_naive_new K N code fb nf = Failed e leaked ->
  leaked = []
  \/ (checks_pass K N code fb
      /\ ~ recognized (nth 0 (get_kernel_matrices code) [])
      /\ e = runtime_error
      /\ leaked = contents_of (built_tree code N fb)).
Proof.
  intros E.
  destruct (constructor_cases K N code fb nf) as [(_ & e' & E' & _)|[Hc E']];
    rewrite E' in E.
  - injection E as <- <-. by left.
  - right. split; [exact Hc|]. cbn zeta in E. rewrite recognized_iff.
    destruct (_ || _); [discriminate|]. injection E as <- <-. done.
Qed.

Lemma contents_of_nonempty (n : Generic_node Contents_MK_SC) : contents_of n <> [].
Proof. destruct n as [lane c chs]. simpl. by destruct (List.concat _). Qed.

End ConstructorFacts.




(** C3 fails on the code.  Given the unrecognized kernel {{1,1},{0,1}}
    (with K = 1, N = 2 and a matching mask) the constructor throws its
    [runtime_error] only after [recursive_allocate_nodes_contents] has
    created the contents of the three nodes of the tree; the destructor
    does not run, and these three objects are left allocated. *)
Theorem unsupported_kernel_allocates_contents :
  PolarMK.Decoder_polar_MK_SC_naive_new 1 2
    (PolarMK.mono_code [[true; true]; [false; true]] 1) [true; false] 1
  = PolarMK.Failed runtime_error
      [PolarMK.mkContents [0] [0] true (-1);
       PolarMK.mkContents [0] [0] false (-1);
       PolarMK.mkContents [0; 0] [0; 0] false 0].
Proof. reflexivity. Qed.

(** The same in general: whenever the kernel is the only thing wrong, the
    contents of every node of the tree have been allocated at the throw;
    every other failure happens before the allocation. *)
Lemma unsupported_kernel_leaks (K N : Z) (code : PolarMK.Polar_code)
    (fb : list bool) (nf : Z) :
  PolarMK.checks_pass K N code fb ->
  ~ PolarMK.recognized (nth 0 (PolarMK.get_kernel_matrices code) []) ->
  exists leaked,
    PolarMK.Decoder_polar_MK_SC_naive_new K N code fb nf
    = PolarMK.Failed runtime_error leaked
    /\ leaked = PolarMK.contents_of (PolarMK.built_tree code N fb)
    /\ leaked <> [].
Proof.
  intros Hc Hr. rewrite (constructor_after_checks K N code fb nf Hc). cbn zeta.
  rewrite recognized_iff in Hr. destruct (_ || _); [done|].
  eexists. split_and!; try done. apply contents_of_nonempty.
Qed.

(* ===================================================================== *)
(** * The combine functions                                              *)
(* ===================================================================== *)



(* ===================================================================== *)
(** * The re-encoding step of [recursive_decode]                         *)
(* ===================================================================== *)

Section ReencodeFacts.

Import PolarMK.
Implicit Types (x u : list Z) (p i j k b sub n : nat).

Lemma divmod_block sub i k :
  (k < sub)%nat -> ((sub * i + k) / sub = i /\ (sub * i + k) mod sub = k)%nat.
Proof.
  intros Hk. split; symmetry.
  - by apply (Nat.div_unique _ _ _ k).
  - by apply (Nat.mod_unique _ _ i).
Qed.

Lemma divmod_block' sub i k :
  (k < sub)%nat -> ((i * sub + k) / sub = i /\ (i * sub + k) mod sub = k)%nat.
Proof. rewrite (Nat.mul_comm i sub). apply divmod_block. Qed.

Lemma block_split sub b p :
  (p < b * sub)%nat ->
  (p / sub < b /\ p mod sub < sub /\ p = sub * (p / sub) + p mod sub)%nat.
Proof.
  intros Hp. assert (sub <> 0)%nat as Hs by (intros ->; lia).
  split_and!.
  - apply Nat.Div0.div_lt_upper_bound; lia.
  - by apply Nat.mod_upper_bound.
  - apply Nat.div_mod_eq.
Qed.

(** A loop of in-place writes at pairwise distinct positions. *)
Lemma fold_insert_length (g : nat -> nat) (v : nat -> Z) n x :
  length (fold_left (fun x i => <[g i := v i]> x) (seq 0 n) x) = length x.
Proof.
  induction n as [|n IH]; [done|].
  rewrite seq_S, fold_left_app. cbn [fold_left plus]. by rewrite length_insert.
Qed.

Lemma fold_insert_hit (g : nat -> nat) (v : nat -> Z) n x i :
  (forall i j, i < n -> j < n -> g i = g j -> i = j)%nat ->
  (forall i, i < n -> g i < length x)%nat ->
  (i < n)%nat ->
  fold_left (fun x i => <[g i := v i]> x) (seq 0 n) x !! g i = Some (v i).
Proof.
  induction n as [|n IH]; intros Hinj Hlen Hi; [lia|].
  rewrite seq_S, fold_left_app. cbn [fold_left plus].
  destruct (decide (i = n)) as [->|Hne].
  - apply list_lookup_insert_eq. rewrite fold_insert_length. apply Hlen. lia.
  - rewrite list_lookup_insert_ne.
    + apply IH; [intros; apply Hinj; lia | intros; apply Hlen; lia | lia].
    + intros E. apply Hinj in E; lia.
Qed.

Lemma fold_insert_miss (g : nat -> nat) (v : nat -> Z) n x p :
  (forall i, i < n -> g i <> p)%nat ->
  fold_left (fun x i => <[g i := v i]> x) (seq 0 n) x !! p = x !! p.
Proof.
  induction n as [|n IH]; intros Hp; [done|].
  rewrite seq_S, fold_left_app. cbn [fold_left plus].
  rewrite list_lookup_insert_ne by (apply Hp; lia).
  apply IH. intros; apply Hp; lia.
Qed.

(** [encode_polar_kernel] writes output [i] of the kernel at [idx[i]]. *)
Lemma encode_polar_kernel_fold u idx Ke_s x b :
  encode_polar_kernel u idx Ke_s x b
  = fold_left (fun x i => <[nth i idx O := kernel_out Ke_s b u i]> x) (seq 0 b) x.
Proof. reflexivity. Qed.

Lemma nth_map_in {A B} (f : A -> B) (v : list A) i (d : B) (d' : A) :
  (i < length v)%nat -> nth i (List.map f v) d = f (nth i v d').
Proof.
  intros Hi. rewrite (nth_indep _ d (f d')) by (by rewrite length_map).
  apply map_nth.
Qed.

Lemma nth_map_seq {A} (f : nat -> A) n i (d : A) :
  (i < n)%nat -> nth i (List.map f (seq 0 n)) d = f i.
Proof.
  intros Hi. rewrite (nth_map_in f _ i d O) by (by rewrite length_seq).
  by rewrite seq_nth.
Qed.

Lemma lookup_map_seq {A} (f : nat -> A) n i :
  (i < n)%nat -> List.map f (seq 0 n) !! i = Some (f i).
Proof.
  intros Hi.
  destruct (lookup_lt_is_Some_2 (List.map f (seq 0 n)) i) as [y Hy];
    [by rewrite length_map, length_seq|].
  rewrite Hy. f_equal. apply (nth_lookup_Some _ _ (f O)) in Hy.
  rewrite <- Hy. by apply nth_map_seq.
Qed.

(** The values the re-encoding loop reads for kernel instance [k]: the
    [k]-th partial sums of the children. *)
Lemma reencode_inputs (children : list (Generic_node Contents_MK_SC)) sub k :
  (k < sub)%nat ->
  List.map (fun id => child_s children (id / sub) (id mod sub))
           (List.map (fun i => (sub * i + k)%nat) (seq 0 (length children)))
  = List.map (fun c => nth k (s (get_c c)) 0) children.
Proof.
  intros Hk. rewrite List.map_map.
  apply (nth_ext _ _ 0 0); [by rewrite !length_map, length_seq|].
  intros i Hi. rewrite length_map, length_seq in Hi.
  rewrite nth_map_seq by done.
  destruct (divmod_block sub i k Hk) as [-> ->].
  unfold child_s. destruct (lookup_lt_is_Some_2 children i Hi) as [c Hc].
  rewrite Hc, (nth_map_in _ _ i 0 c) by done.
  by rewrite (nth_lookup children), Hc.
Qed.

(** One kernel instance of the re-encoding. *)
Lemma reencode_step Ke_s (children : list (Generic_node Contents_MK_SC)) sub k x p :
  (k < sub)%nat -> length x = (length children * sub)%nat ->
  let b := length children in
  let x' := encode_polar_kernel
              (List.map (fun id => child_s children (id / sub) (id mod sub))
                        (List.map (fun i => (sub * i + k)%nat) (seq 0 b)))
              (List.map (fun i => (sub * i + k)%nat) (seq 0 b)) Ke_s x b in
  length x' = length x
  /\ ((p < b * sub)%nat ->
      x' !! p = if decide ((p mod sub)%nat = k)
                then Some (kernel_out Ke_s b
                             (List.map (fun c => nth k (s (get_c c)) 0) children)
                             (p / sub)%nat)
                else x !! p).
Proof.
  intros Hk Hx b x'. subst x' b. rewrite (reencode_inputs children sub k Hk).
  rewrite encode_polar_kernel_fold. set (b := length children) in *.
  set (idx := List.map (fun i => (sub * i + k)%nat) (seq 0 b)).
  set (u := List.map (fun c => nth k (s (get_c c)) 0) children).
  assert (forall i, (i < b)%nat -> nth i idx O = (sub * i + k)%nat) as Hidx.
  { intros i Hi. unfold idx. by rewrite nth_map_seq. }
  split; [apply fold_insert_length|].
  intros Hp. destruct (block_split sub b p Hp) as (Hq & Hr & Ep).
  case_decide as Hm.
  - assert (p = nth (p / sub) idx O) as Egp by (rewrite Hidx by done; lia).
    rewrite Egp at 1.
    apply (fold_insert_hit (fun i => nth i idx O) (fun i => kernel_out Ke_s b u i)).
    + intros i j Hi Hj. rewrite !Hidx by done. nia.
    + intros i Hi. rewrite Hidx by done. rewrite Hx. fold b. nia.
    + done.
  - apply (fold_insert_miss (fun i => nth i idx O) (fun i => kernel_out Ke_s b u i)).
    intros i Hi. rewrite Hidx by done. intros E. apply Hm. rewrite <- E.
    by apply divmod_block.
Qed.

(** The re-encoding loop computes one level of the transform from the
    partial sums of the children. *)
Lemma reencode_spec Ke_s (children : list (Generic_node Contents_MK_SC)) sub s_curr :
  (0 < length children)%nat -> length s_curr = (length children * sub)%nat ->
  reencode Ke_s children (length children) sub s_curr
  = combine Ke_s (length children) sub (List.map (fun c => s (get_c c)) children).
Proof.
  intros Hb Hs. unfold reencode.
  replace (length s_curr / length children)%nat with sub
    by (rewrite Hs, Nat.mul_comm; symmetry; apply Nat.div_mul; lia).
  set (step := fun sv k =>
         encode_polar_kernel
           (List.map (fun id => child_s children (id / sub) (id mod sub))
                     (List.map (fun i => (sub * i + k)%nat) (seq 0 (length children))))
           (List.map (fun i => (sub * i + k)%nat) (seq 0 (length children)))
           Ke_s sv (length children)).
  assert (forall m, (m <= sub)%nat ->
            length (fold_left step (seq 0 m) s_curr) = length s_curr
            /\ forall p, (p < length children * sub)%nat ->
                 fold_left step (seq 0 m) s_curr !! p
                 = if decide (p mod sub < m)%nat
                   then Some (kernel_out Ke_s (length children)
                                (List.map (fun c => nth (p mod sub)%nat (s (get_c c)) 0)
                                          children)
                                (p / sub)%nat)
                   else s_curr !! p) as Hloop.
  { induction m as [|m IH]; intros Hm.
    - split; [done|]. intros p Hp. by rewrite decide_False by lia.
    - destruct (IH ltac:(lia)) as [Hlen Hval].
      rewrite seq_S, fold_left_app. cbn [fold_left plus].
      split.
      + unfold step at 1. rewrite <- Hlen.
        apply (reencode_step Ke_s children sub m _ O); [lia|]. by rewrite Hlen.
      + intros p Hp.
        destruct (reencode_step Ke_s children sub m
                    (fold_left step (seq 0 m) s_curr) p ltac:(lia)
                    ltac:(by rewrite Hlen)) as [_ Hstep].
        cbn zeta in Hstep. unfold step at 1. rewrite (Hstep Hp). case_decide as Hpm.
        * rewrite decide_True by lia. by rewrite Hpm.
        * rewrite Hval by done. repeat case_decide; try lia; done. }
  destruct (Hloop sub (Nat.le_refl _)) as [Hlen Hval].
  apply list_eq. intros p. unfold combine.
  destruct (decide (p < length children * sub)%nat) as [Hp|Hp].
  - rewrite (Hval p Hp). destruct (block_split sub _ p Hp) as (_ & Hr & _).
    rewrite decide_True by done.
    rewrite lookup_map_seq by done. by rewrite List.map_map.
  - rewrite lookup_ge_None_2 by (rewrite Hlen, Hs; lia).
    rewrite lookup_ge_None_2; [done|]. rewrite length_map, length_seq. lia.
Qed.

Lemma reencode_spec' Ke_s (children : list (Generic_node Contents_MK_SC)) b sub s_curr :
  length children = b -> (0 < b)%nat -> length s_curr = (b * sub)%nat ->
  reencode Ke_s children b sub s_curr
  = combine Ke_s b sub (List.map (fun c => s (get_c c)) children).
Proof. intros <-. apply reencode_spec. Qed.

End ReencodeFacts.

(* ===================================================================== *)
(** * The kernel transform as an exclusive or                            *)
(* ===================================================================== *)

Section KernelFacts.

Import PolarMK.

Lemma nth_concat_rows {A} (g : nat -> nat -> A) m n i j (d : A) :
  (i < m)%nat -> (j < n)%nat ->
  nth (i * n + j)
      (List.concat (List.map (fun i => List.map (g i) (seq 0 n)) (seq 0 m))) d
  = g i j.
Proof.
  induction m as [|m IH]; intros Hi Hj; [lia|].
  rewrite seq_S, List.map_app, concat_app. cbn [plus List.map List.concat].
  rewrite app_nil_r.
  assert (length (List.concat (List.map (fun i => List.map (g i) (seq 0 n)) (seq 0 m)))
          = (m * n)%nat) as Hlen.
  { clear. induction m as [|m IHm]; [done|].
    rewrite seq_S, List.map_app, concat_app, length_app, IHm. cbn.
    rewrite length_app, length_map, length_seq. cbn. lia. }
  destruct (decide (i = m)) as [->|Hne].
  - rewrite app_nth2 by (rewrite Hlen; lia). rewrite Hlen.
    replace (m * n + j - m * n)%nat with j by lia. by apply nth_map_seq.
  - rewrite app_nth1 by (rewrite Hlen; nia). apply IH; lia.
Qed.

Lemma Ke_of_nth M i j :
  (i < length M)%nat -> (j < length M)%nat ->
  nth (i * length M + j) (Ke_of M) 0 = Z.b2z (nth i (nth j M []) false).
Proof.
  intros Hi Hj. unfold Ke_of.
  by apply (nth_concat_rows (fun i j => Z.b2z (nth i (nth j M []) false))).
Qed.

Lemma fold_left_sum (F : nat -> Z) (js : list nat) (acc : Z) :
  fold_left (fun sum j => sum + F j) js acc
  = acc + fold_right Z.add 0 (List.map F js).
Proof.
  revert acc. induction js as [|j js IH]; intros acc; cbn; [lia|].
  rewrite IH. lia.
Qed.

Lemma land_1_odd (x : Z) : Z.land x 1 = Z.b2z (Z.odd x).
Proof.
  change 1 with (Z.ones 1). rewrite Z.land_ones by lia.
  rewrite <- Z.bit0_odd. symmetry. apply Z.bit0_mod.
Qed.

Lemma odd_sum_xor : forall (u : list Z) (row : list bool),
  length row = length u -> Forall is_bit u ->
  Z.odd (fold_right Z.add 0
           (List.map (fun j => Z.land (nth j u 0) (Z.b2z (nth j row false)))
                     (seq 0 (length u))))
  = xor_select row (List.map Z.odd u).
Proof.
  induction u as [|x u IH]; intros [|r row] Hlen Hbits; try discriminate Hlen; [done|].
  apply Forall_cons in Hbits as [Hx Hbits].
  cbn [length seq List.map fold_right xor_select nth].
  rewrite <- seq_shift, List.map_map. cbn [nth].
  rewrite Z.odd_add, IH by (done || (simpl in Hlen; lia)).
  f_equal. by destruct Hx as [-> | ->], r.
Qed.

(** Output [i] of the kernel is the exclusive or of the input bits that
    row [i] of [Ke] selects. *)
Lemma kernel_out_xor M u i :
  length u = length M -> (i < length M)%nat -> Forall is_bit u ->
  kernel_out (Ke_of M) (length M) u i
  = Z.b2z (xor_select (Ke_row M i) (List.map Z.odd u)).
Proof.
  intros Hu Hi Hbits. unfold kernel_out.
  rewrite fold_left_sum, Z.add_0_l, land_1_odd. f_equal.
  rewrite <- (odd_sum_xor u (Ke_row M i));
    [|unfold Ke_row; rewrite length_map, length_seq; lia|done].
  f_equal. f_equal. rewrite Hu. apply map_ext_in. intros j Hj%in_seq.
  rewrite Ke_of_nth by lia. unfold Ke_row. by rewrite nth_map_seq by lia.
Qed.

End KernelFacts.

(* ===================================================================== *)
(** * [recursive_decode] on the tree of the constructor                  *)
(* ===================================================================== *)

Section DecodeFacts.

Import PolarMK.

Variables (b : nat) (frozen : list bool).
Variables (stages : list nat) (Ke : list (list Z)) (lambdas : list lambda).
Variables (M : list (list bool)) (L : nat).
Hypothesis Hb : (0 < b)%nat.
Hypothesis HM : length M = b.
Hypothesis HKe : forall st, (st < L)%nat -> nth (nth st stages O) Ke [] = Ke_of M.

Local Abbreviation Ke_s := (Ke_of M).

Implicit Types (n : Generic_node Contents_MK_SC) (v u : list Z) (lv lane j : nat).

Local Abbreviation dec := (decode_node stages Ke lambdas).
Local Abbreviation wf := (wf_node b frozen).

Lemma store_l_length v (c : Contents_MK_SC) :
  (length v <= length (l c))%nat -> length (l (store_l v c)) = length (l c).
Proof.
  intros H. unfold store_l. cbn [l with_l]. rewrite length_app, length_drop. lia.
Qed.

Lemma store_l_full v (c : Contents_MK_SC) :
  length v = length (l c) -> l (store_l v c) = v.
Proof.
  intros H. unfold store_l. cbn [l with_l].
  rewrite drop_ge by lia. apply app_nil_r.
Qed.

Lemma store_l_nil (c : Contents_MK_SC) : store_l [] c = c.
Proof. by destruct c. Qed.

Lemma decode_node_leaf lane (c0 : Contents_MK_SC) v :
  dec v (Node lane c0 [])
  = let c := store_l v c0 in
    Node lane
         (with_s c (<[O := Z.b2z (negb (is_frozen_bit c) && h_LLR (nth 0 (l c) 0))]> (s c)))
         [].
Proof. reflexivity. Qed.

Lemma decode_node_internal lane (c0 : Contents_MK_SC) children v :
  children <> [] ->
  dec v (Node lane c0 children)
  = let c := store_l v c0 in
    let kern_size := length children in
    let sub_part := (length (l c) / kern_size)%nat in
    let children' := decode_children dec lambdas (l c) kern_size sub_part children [] in
    Node lane
         (with_s c (reencode (nth (nth (Z.to_nat (stage c)) stages O) Ke []) children'
                             kern_size sub_part (s c)))
         children'.
Proof. intros H. destruct children; [done|reflexivity]. Qed.

(** The state of the tree under the father does not matter to a node once
    its LLRs are stored. *)
Lemma decode_node_loaded lane (c0 : Contents_MK_SC) children v :
  dec [] (Node lane (store_l v c0) children) = dec v (Node lane c0 children).
Proof.
  destruct children as [|c children].
  - rewrite !decode_node_leaf. cbn zeta. by rewrite store_l_nil.
  - rewrite !decode_node_internal by done. cbn zeta. by rewrite store_l_nil.
Qed.

Lemma child_llrs_length l_curr kern_size sub_part child done :
  length (child_llrs lambdas l_curr kern_size sub_part child done) = sub_part.
Proof. unfold child_llrs. by rewrite length_map, length_seq. Qed.

(** The child loop, child by child: [Q j] is what is known of child [j]
    before the loop, [P j] what holds of it once it is decoded. *)
Lemma decode_children_ind (P Q : nat -> Generic_node Contents_MK_SC -> Prop)
    l_curr kern_size sub_part :
  (forall j done c,
      length done = j -> Forall2 P (seq 0 j) done -> Q j c ->
      P j (dec (child_llrs lambdas l_curr kern_size sub_part j done) c)) ->
  forall todo done m,
    length done = m -> Forall2 P (seq 0 m) done ->
    Forall2 Q (seq m (length todo)) todo ->
    Forall2 P (seq 0 (m + length todo))
            (decode_children dec lambdas l_curr kern_size sub_part todo done).
Proof.
  intros Hstep. induction todo as [|c todo IH]; intros done m Hm HP HQ.
  - cbn [decode_children length]. by rewrite Nat.add_0_r.
  - cbn [decode_children length seq] in *. apply Forall2_cons in HQ as [Hc HQ].
    replace (m + S (length todo))%nat with (S m + length todo)%nat by lia.
    apply IH.
    + rewrite length_app. cbn [length]. lia.
    + rewrite seq_S. apply Forall2_app; [done|]. cbn [plus].
      apply Forall2_cons. split; [|constructor].
      rewrite Hm. by apply Hstep.
    + exact HQ.
Qed.

Lemma land_1_bit (x : Z) : is_bit (Z.land x 1).
Proof.
  change 1 with (Z.ones 1). rewrite Z.land_ones by lia.
  pose proof (Z.mod_pos_bound x (2 ^ 1) ltac:(lia)). unfold is_bit. lia.
Qed.

Lemma kernel_out_bit Ke' size u i : is_bit (kernel_out Ke' size u i).
Proof. apply land_1_bit. Qed.

Lemma combine_length Ke' sub parts : length (combine Ke' b sub parts) = (b * sub)%nat.
Proof. unfold combine. by rewrite length_map, length_seq. Qed.

Lemma combine_bits Ke' sub parts : Forall is_bit (combine Ke' b sub parts).
Proof.
  unfold combine. apply Forall_forall. intros x Hx%list_elem_of_In%in_map_iff.
  destruct Hx as (p & <- & _). apply kernel_out_bit.
Qed.

Lemma pow_succ_div lv : (b ^ S lv / b = b ^ lv)%nat.
Proof. rewrite Nat.pow_succ_r', Nat.mul_comm. apply Nat.div_mul. lia. Qed.

Lemma wf_leaf_inv lane n :
  wf 0 lane n ->
  exists c x y, n = Node lane c [] /\ l c = [x] /\ s c = [y]
                /\ is_frozen_bit c = nth lane frozen false.
Proof.
  destruct n as [lane' c children]. cbn. intros (-> & -> & Hl & Hs & Hf).
  destruct (l c) as [|x [|? ?]] eqn:El; try discriminate.
  destruct (s c) as [|y [|? ?]] eqn:Es; try discriminate.
  by exists c, x, y.
Qed.

Lemma wf_internal_inv lv lane n :
  wf (S lv) lane n ->
  exists c children,
    n = Node lane c children /\ children <> [] /\ length children = b
    /\ length (l c) = (b ^ S lv)%nat /\ length (s c) = (b ^ S lv)%nat
    /\ stage c = Z.of_nat lv
    /\ Forall2 (fun j c => wf lv (lane * b + j) c) (seq 0 b) children.
Proof.
  destruct n as [lane' c children]. cbn [wf_node get_lane_id get_children get_c].
  intros (-> & Hl & Hs & Hst & HF).
  pose proof (Forall2_length _ _ _ HF) as Hlen. rewrite length_seq in Hlen.
  exists c, children. split_and!; try done.
  intros ->. simpl in Hlen. lia.
Qed.

Lemma recombined_intro lane (ct : Contents_MK_SC) children :
  length children = b ->
  Forall (fun c => Forall is_bit (s (get_c c))) children ->
  s ct = combine Ke_s b (length (s ct) / b) (List.map (fun c => s (get_c c)) children) ->
  recombined b Ke_s (Node lane ct children).
Proof. intros Hl HF Hs. unfold recombined. by destruct children. Qed.

Lemma nth_bit (v : list Z) k : Forall is_bit v -> is_bit (nth k v 0).
Proof.
  intros HF. destruct (decide (k < length v)%nat) as [Hk|Hk].
  - rewrite Forall_forall in HF. by apply HF, list_elem_of_In, nth_In.
  - rewrite nth_overflow by lia. by left.
Qed.

Lemma combine_nth Ke' sub parts i k :
  (i < b)%nat -> (k < sub)%nat ->
  nth (i * sub + k) (combine Ke' b sub parts) 0
  = kernel_out Ke' b (List.map (fun part => nth k part 0) parts) i.
Proof.
  intros Hi Hk. unfold combine. rewrite nth_map_seq by nia.
  by destruct (divmod_block' sub i k Hk) as [-> ->].
Qed.

(** In terms of bits: the entries of a recombined node are the exclusive
    ors that the rows of the generator select. *)
Lemma recombined_reencoded n : recombined b Ke_s n -> reencoded M n.
Proof.
  unfold recombined, reencoded. destruct (get_children n) as [|c0 children]; [done|].
  intros (Hlen & Hbits & Hs). rewrite Hlen. split; [done|].
  remember (length (s (get_c n)) / b)%nat as sub eqn:Esub.
  intros i k Hi Hk. rewrite Hs. rewrite combine_nth by done.
  rewrite List.map_map. rewrite <- HM at 1.
  rewrite kernel_out_xor.
  - by rewrite List.map_map.
  - rewrite length_map. lia.
  - lia.
  - apply Forall_forall. intros x Hx%list_elem_of_In%in_map_iff.
    destruct Hx as (c & <- & Hc). apply nth_bit.
    rewrite Forall_forall in Hbits. by apply Hbits, list_elem_of_In.
Qed.

(** Decoding keeps the shape of the tree, whatever the LLRs; afterwards
    all partial sums are bits and every internal node holds the transform
    of its children's partial sums. *)
Lemma decode_node_shape : forall lv lane n v,
  (lv <= L)%nat -> wf lv lane n -> (length v <= b ^ lv)%nat ->
  wf lv lane (dec v n)
  /\ Forall is_bit (s (get_c (dec v n)))
  /\ all_nodes (reencoded M) (dec v n).
Proof.
  induction lv as [|lv IH]; intros lane n v HL Hwf Hv.
  - destruct (wf_leaf_inv lane n Hwf) as (c & x & y & -> & El & Es & Hf).
    rewrite decode_node_leaf. cbn zeta. cbn in Hv.
    assert (length (l (store_l v c)) = 1%nat) as Hl'
      by (rewrite store_l_length; rewrite El; simpl; lia).
    split_and!.
    + cbn. split_and!; try done. by rewrite length_insert, Es.
    + cbn. rewrite Es. cbn. constructor; [|constructor].
      unfold is_bit. by destruct (_ && _); [right|left].
    + constructor; [done|constructor].
  - destruct (wf_internal_inv lv lane n Hwf)
      as (c & children & -> & Hne & Hlen & Hl & Hs & Hst & HF).
    rewrite (decode_node_internal lane c children v Hne). cbn zeta.
    assert (length (l (store_l v c)) = (b ^ S lv)%nat) as Hl'
      by (rewrite store_l_length; lia).
    rewrite Hl', Hlen, pow_succ_div.
    set (children' := decode_children dec lambdas (l (store_l v c)) b (b ^ lv) children []).
    assert (Forall2 (fun j c' => wf lv (lane * b + j) c'
                                 /\ Forall is_bit (s (get_c c'))
                                 /\ all_nodes (reencoded M) c')
                    (seq 0 b) children') as HP.
    { rewrite <- Hlen at 1. change (length children) with (0 + length children)%nat.
      apply (decode_children_ind _ (fun j c => wf lv (lane * b + j) c)).
      - intros j done c' _ _ Hc'. apply IH; [lia|done|].
        by rewrite child_llrs_length.
      - done.
      - constructor.
      - by rewrite Hlen. }
    pose proof (Forall2_length _ _ _ HP) as Hlen'. rewrite length_seq in Hlen'.
    assert (nth (nth (Z.to_nat (stage (store_l v c))) stages O) Ke [] = Ke_s) as EKe.
    { apply HKe. cbn [stage store_l with_l]. lia. }
    rewrite EKe.
    assert (length (s (store_l v c)) = (b * b ^ lv)%nat) as Hs'.
    { cbn [s store_l with_l]. rewrite Hs. apply Nat.pow_succ_r'. }
    rewrite (reencode_spec' Ke_s children' b (b ^ lv)) by done.
    split_and!.
    + cbn [wf_node get_lane_id get_c get_children l s stage with_s store_l with_l].
      split_and!; try done.
      * rewrite combine_length. symmetry. apply Nat.pow_succ_r'.
      * eapply Forall2_impl; [exact HP|]. by intros j c' (? & _).
    + cbn [get_c s with_s]. apply combine_bits.
    + constructor.
      * apply recombined_reencoded, recombined_intro; [done|..].
        -- eapply Forall2_Forall_r; [exact HP|].
           apply Forall_forall. by intros j _ c' (_ & ? & _).
        -- cbn [s with_s]. rewrite combine_length.
           rewrite Nat.mul_comm, Nat.div_mul by lia. done.
      * cbn [get_children]. eapply Forall2_Forall_r; [exact HP|].
        apply Forall_forall. by intros j _ c' (_ & _ & ?).
Qed.

(** ** Zero noise *)

Lemma polar_transform_length : forall lv u,
  length u = (b ^ lv)%nat -> length (polar_transform Ke_s b lv u) = (b ^ lv)%nat.
Proof.
  intros [|lv] u Hu; [done|]. cbn [polar_transform].
  rewrite combine_length. symmetry. apply Nat.pow_succ_r'.
Qed.

Lemma polar_transform_bits : forall lv u,
  Forall is_bit u -> Forall is_bit (polar_transform Ke_s b lv u).
Proof. intros [|lv] u Hu; [done|]. apply combine_bits. Qed.

Lemma noiseless_nth X Y p :
  noiseless X Y -> (p < length X)%nat -> agrees (nth p X 0) (nth p Y 0).
Proof.
  intros H. revert p. induction H as [|x y X Y Hxy H IH]; intros p Hp; [simpl in Hp; lia|].
  destruct p as [|p]; [done|]. apply IH. simpl in Hp. lia.
Qed.

Lemma noiseless_intro X (F : nat -> Z) (m : nat) :
  length X = m -> (forall i, (i < m)%nat -> agrees (nth i X 0) (F i)) ->
  noiseless X (List.map F (seq 0 m)).
Proof.
  revert X F. induction m as [|m IH]; intros X F Hlen H.
  - destruct X; [constructor|discriminate].
  - destruct X as [|x X]; [discriminate|]. cbn [seq List.map].
    constructor; [apply (H O); lia|].
    rewrite <- seq_shift, List.map_map. apply IH; [simpl in Hlen; lia|].
    intros i Hi. apply (H (S i)). lia.
Qed.

Lemma Forall2_map_eq {A B C} (f : B -> C) (g : A -> C) (xs : list A) (ys : list B) :
  Forall2 (fun x y => f y = g x) xs ys -> List.map f ys = List.map g xs.
Proof. induction 1; cbn; congruence. Qed.

Lemma concat_slices : forall (m sub : nat) u,
  length u = (m * sub)%nat ->
  List.concat (List.map (fun j => DecoderI.slice u (j * sub) sub) (seq 0 m)) = u.
Proof.
  induction m as [|m IH]; intros sub u Hu.
  - destruct u; [done|discriminate].
  - cbn [seq List.map List.concat]. rewrite <- seq_shift, List.map_map.
    transitivity (take sub u ++ drop sub u); [|apply take_drop]. f_equal.
    etransitivity; [|apply (IH sub (drop sub u)); rewrite length_drop; lia].
    f_equal. apply map_ext. intros j. unfold DecoderI.slice.
    by rewrite drop_drop.
Qed.

Lemma Forall2_seq_bound {A} (P : nat -> A -> Prop) : forall (m a : nat) (xs : list A),
  Forall2 P (seq a m) xs ->
  Forall2 (fun j x => (a <= j < a + m)%nat /\ P j x) (seq a m) xs.
Proof.
  induction m as [|m IH]; intros a xs H; cbn in *.
  - apply Forall2_nil_inv_l in H as ->. constructor.
  - apply Forall2_cons_inv_l in H as (x & xs' & Hx & H & ->).
    constructor; [split; [lia|done]|].
    eapply Forall2_impl; [apply IH, H|]. cbn. intros j y [? ?]. split; [lia|done].
Qed.

Lemma leaves_internal lane (ct : Contents_MK_SC) children :
  children <> [] ->
  leaves_s (Node lane ct children) = List.concat (List.map leaves_s children).
Proof. intros H. by destruct children. Qed.

(** Under zero noise the decoder recovers, at every node, the codeword of
    the subtree in the partial sums and the encoder's input at the
    leaves. *)
Lemma decode_noiseless :
  kernel_ok b Ke_s lambdas ->
  forall lv lane n u llr,
    (lv <= L)%nat -> wf lv lane n ->
    length u = (b ^ lv)%nat -> Forall is_bit u ->
    (forall k, (k < b ^ lv)%nat ->
       nth (lane * b ^ lv + k) frozen false = true -> nth k u 0 = 0) ->
    noiseless (polar_transform Ke_s b lv u) llr ->
    s (get_c (dec llr n)) = polar_transform Ke_s b lv u
    /\ leaves_s (dec llr n) = u.
Proof.
  intros Hok. induction lv as [|lv IH]; intros lane n u llr HL Hwf Hu Hbits Hfr Hnl.
  - destruct (wf_leaf_inv lane n Hwf) as (ct & x & y & -> & El & Es & Hf).
    destruct u as [|u0 [|? ?]]; try discriminate Hu.
    cbn [polar_transform] in *.
    apply Forall2_cons_inv_l in Hnl as (y0 & Y' & Hagree & Hrest & ->).
    apply Forall2_nil_inv_l in Hrest as ->.
    rewrite decode_node_leaf. cbn zeta.
    assert (l (store_l [y0] ct) = [y0]) as El' by (apply store_l_full; by rewrite El).
    rewrite El'. cbn [get_c leaves_s s with_s store_l with_l is_frozen_bit nth].
    rewrite Es. cbn [list_insert nth].
    assert (Z.b2z (negb (is_frozen_bit ct) && h_LLR y0) = u0) as ->; [|done].
    rewrite Hf. specialize (Hfr O ltac:(simpl; lia)).
    rewrite Nat.mul_1_r, Nat.add_0_r in Hfr. cbn [nth] in Hfr.
    destruct (nth lane frozen false); cbn [negb andb].
    + by rewrite Hfr.
    + unfold h_LLR. destruct Hagree as [[-> Hy]|[-> Hy]];
        [rewrite (proj2 (Z.ltb_ge _ _)) by lia | rewrite (proj2 (Z.ltb_lt _ _)) by lia]; done.
  - destruct (wf_internal_inv lv lane n Hwf)
      as (ct & children & -> & Hne & Hlen & Hl & Hs & Hst & HF).
    set (sub := (b ^ lv)%nat) in *.
    assert (b ^ S lv = b * sub)%nat as Epow by apply Nat.pow_succ_r'.
    set (uj := fun j => DecoderI.slice u (j * sub) sub).
    set (xj := fun j => polar_transform Ke_s b lv (uj j)).
    assert (forall j, (j < b)%nat -> length (uj j) = sub) as Huj.
    { intros j Hj. unfold uj. apply slice_length. nia. }
    assert (forall j, (j < b)%nat -> length (xj j) = sub) as Hxj.
    { intros j Hj. unfold xj. apply polar_transform_length. by apply Huj. }
    assert (forall j, Forall is_bit (uj j)) as Hbj.
    { intros j. unfold uj, DecoderI.slice. by apply Forall_take, Forall_drop. }
    assert (polar_transform Ke_s b (S lv) u = combine Ke_s b sub (List.map xj (seq 0 b)))
      as Ex by reflexivity.
    rewrite Ex in *.
    pose proof (Forall2_length _ _ _ Hnl) as Hllr. rewrite combine_length in Hllr.
    rewrite (decode_node_internal lane ct children llr Hne). cbn zeta.
    assert (l (store_l llr ct) = llr) as El' by (apply store_l_full; lia).
    rewrite El', Hlen, <- Hllr.
    replace (b * sub / b)%nat with sub by (rewrite Nat.mul_comm, Nat.div_mul; lia).
    set (children' := decode_children dec lambdas llr b sub children []).
    assert (Forall2 (fun j c' => s (get_c c') = xj j /\ leaves_s c' = uj j)
                    (seq 0 b) children') as HP.
    { rewrite <- Hlen at 1. change (length children) with (0 + length children)%nat.
      apply (decode_children_ind _ (fun j c => (j < b)%nat /\ wf lv (lane * b + j) c)).
      - intros j done c' Hdone HPd (Hj & Hc').
        apply (IH (lane * b + j)%nat); [lia|done|by apply Huj|done|..].
        + intros k Hk Hfz. unfold uj, DecoderI.slice.
          rewrite nth_lookup, lookup_take_lt, lookup_drop, <- nth_lookup by done.
          apply Hfr; [nia|]. rewrite <- Hfz. f_equal. fold sub. nia.
        + unfold child_llrs. apply noiseless_intro; [by apply Hxj|].
          intros i Hi.
          set (v := List.map (fun part => nth i part 0) (List.map xj (seq 0 b))).
          assert (nth i (polar_transform Ke_s b lv (uj j)) 0 = nth j v 0) as ->.
          { unfold v. rewrite List.map_map. by rewrite nth_map_seq. }
          assert (List.map (fun c => nth i (s (get_c c)) 0) (take j done) = take j v) as ->.
          { rewrite take_ge by lia. unfold v. rewrite List.map_map.
            rewrite firstn_map, take_seq, Nat.min_l by lia.
            apply Forall2_map_eq. eapply Forall2_impl; [exact HPd|].
            cbn. intros j' c0 [-> _]. done. }
          apply Hok.
          * unfold v. by rewrite !length_map, length_seq.
          * unfold v. rewrite List.map_map. apply Forall_forall.
            intros z Hz%list_elem_of_In%in_map_iff. destruct Hz as (j' & <- & _).
            apply nth_bit. unfold xj. apply polar_transform_bits, Hbj.
          * by rewrite length_map, length_seq.
          * intros i' Hi'. rewrite nth_map_seq by done. unfold v.
            rewrite <- (combine_nth Ke_s sub (List.map xj (seq 0 b)) i' i) by done.
            apply noiseless_nth; [done|]. rewrite combine_length. nia.
          * done.
      - done.
      - constructor.
      - rewrite Hlen. cbn [plus].
        eapply Forall2_impl; [apply Forall2_seq_bound, HF|].
        cbn. intros j c0 [? ?]. split; [lia|done]. }
    pose proof (Forall2_length _ _ _ HP) as Hlen'. rewrite length_seq in Hlen'.
    assert (nth (nth (Z.to_nat (stage (store_l llr ct))) stages O) Ke [] = Ke_s) as EKe.
    { apply HKe. cbn [stage store_l with_l]. lia. }
    rewrite EKe.
    rewrite (reencode_spec' Ke_s children' b sub)
      by (done || (cbn [s store_l with_l]; lia)).
    cbn [get_c s with_s]. split.
    + f_equal. apply Forall2_map_eq. eapply Forall2_impl; [exact HP|].
      cbn. by intros j c0 [? _].
    + rewrite leaves_internal by (intros E; rewrite E in Hlen'; simpl in Hlen'; lia).
      rewrite (Forall2_map_eq leaves_s uj (seq 0 b) children').
      * apply concat_slices. lia.
      * eapply Forall2_impl; [exact HP|]. cbn. by intros j c0 [_ ?].
Qed.

End DecodeFacts.

(* ===================================================================== *)
(** * The tree of a constructed decoder                                  *)
(* ===================================================================== *)

Section TreeFacts.

Import PolarMK.

Variables (code : Polar_code) (fb : list bool).

Local Abbreviation b := (length (nth 0 (get_kernel_matrices code) [])).
Local Abbreviation L := (length (get_stages code)).

Hypothesis Hb : (0 < b)%nat.

Lemma Forall2_map_seq {A} (P : nat -> A -> Prop) (f : nat -> A) a n :
  (forall j, (a <= j < a + n)%nat -> P j (f j)) ->
  Forall2 P (seq a n) (List.map f (seq a n)).
Proof.
  revert a. induction n as [|n IH]; intros a H; cbn; constructor.
  - apply H. lia.
  - apply IH. intros j Hj. apply H. lia.
Qed.

Lemma initialize_internal lane (ct : Contents_MK_SC) children :
  children <> [] ->
  recursive_initialize_frozen_bits (Node lane ct children) fb
  = Node lane ct (List.map (fun c => recursive_initialize_frozen_bits c fb) children).
Proof. intros H. by destruct children. Qed.

(** Allocation and initialisation of the frozen flags on a tree of
    [Generic_tree] give the shape [wf_node]. *)
Lemma allocated_wf : forall lv lane father_stage,
  match father_stage with
  | None => Z.of_nat L - 1
  | Some fs => fs - 1
  end = Z.of_nat lv - 1 ->
  wf_node b fb lv lane
    (recursive_initialize_frozen_bits
       (recursive_allocate_nodes_contents code father_stage
          (create_nodes lv b lane) (Z.of_nat (b ^ lv)))
       fb).
Proof.
  induction lv as [|lv IH]; intros lane fs Hst.
  - cbn. split_and!; done.
  - cbn [create_nodes recursive_allocate_nodes_contents].
    rewrite initialize_internal.
    2:{ rewrite !List.map_map. destruct b; [lia|]. discriminate. }
    cbn [wf_node get_lane_id get_c get_children Contents_new l s stage].
    rewrite !repeat_length, Nat2Z.id. split_and!; try done; [lia|].
    rewrite !List.map_map. apply Forall2_map_seq. intros j _.
    rewrite <- Nat2Z.inj_div.
    replace (b ^ S lv / b)%nat with (b ^ lv)%nat
      by (rewrite Nat.pow_succ_r', Nat.mul_comm, Nat.div_mul; lia).
    apply IH. lia.
Qed.

Lemma built_tree_wf N :
  N = Z.of_nat (b ^ L) -> wf_node b fb L 0 (built_tree code N fb).
Proof.
  intros ->. unfold built_tree, Generic_tree_new.
  replace (L + 1 - 1)%nat with L by lia. by apply allocated_wf.
Qed.

End TreeFacts.

Lemma mono_code_is_mono M n_stages :
  PolarMK.mono_kernel_code (PolarMK.mono_code M n_stages).
Proof.
  unfold PolarMK.mono_kernel_code, PolarMK.mono_code. cbn. split_and!.
  - apply Forall_forall. by intros st Hst%list_elem_of_In%repeat_spec; subst.
  - apply Forall_forall. intros st Hst%list_elem_of_In%repeat_spec; subst. lia.
  - by rewrite repeat_length.
Qed.

(** What a constructed decoder is made of, for a mono-kernel code. *)
Lemma constructed_decoder K N code fb nf d :
  PolarMK.mono_kernel_code code ->
  PolarMK.Decoder_polar_MK_SC_naive_new K N code fb nf = PolarMK.Constructed d ->
  let M := nth 0 (PolarMK.get_kernel_matrices code) [] in
  let L := length (PolarMK.get_stages code) in
  PolarMK.recognized M
  /\ N = Z.of_nat (length M ^ L) /\ length fb = (length M ^ L)%nat
  /\ K = PolarMK.zero_count fb
  /\ PolarMK.code d = code /\ PolarMK.frozen_bits d = fb /\ PolarMK.N d = N
  /\ PolarMK.K d = K
  /\ PolarMK.lambdas d = PolarMK.lambdas_of M
  /\ PolarMK.wf_node (length M) fb L 0 (PolarMK.polar_tree d)
  /\ (forall st, (st < L)%nat ->
        nth (nth st (PolarMK.get_stages code) O) (PolarMK.Ke d) [] = PolarMK.Ke_of M).
Proof.
  intros (Hst & Hidx & Hcw) E.
  apply constructor_inv in E as ((HK & HKN & Hm & Hb & HN & Hl & Hk) & Hr & ->).
  cbn zeta. cbn [PolarMK.code PolarMK.frozen_bits PolarMK.N PolarMK.K PolarMK.lambdas
                 PolarMK.polar_tree PolarMK.Ke].
  split_and!; try done; try lia.
  - apply built_tree_wf; [lia|congruence].
  - intros st Hlt.
    assert (In (nth st (PolarMK.get_stages code) O) (PolarMK.get_stages code)) as Hin
      by (by apply nth_In).
    apply list_elem_of_In in Hin.
    rewrite Forall_forall in Hst, Hidx.
    rewrite <- (Hst _ Hin).
    rewrite (nth_indep _ [] (PolarMK.Ke_of [])) by (rewrite length_map; by apply Hidx).
    apply map_nth.
Qed.


(* ===================================================================== *)
(** * The combine functions undo their kernel under zero noise           *)
(* ===================================================================== *)

Section KernelOk.

Import PolarMK.

Ltac bits_cases H :=
  repeat match type of H with
         | Forall is_bit (_ :: _) =>
             let Hx := fresh "Hx" in
             apply Forall_cons in H as [Hx H]; destruct Hx as [-> | ->]
         end.

Ltac eval_bit H :=
  match type of H with
  | agrees ?k _ => let k' := eval vm_compute in k in change k with k' in H
  end.

Ltac sign_cases :=
  cbn [nth lambdas_arikan lambdas_t1 lambdas_t2 take firstn] in *;
  unfold agrees, signbit in *;
  repeat match goal with
         | |- context [Z.lxor ?a ?b] =>
             let r := eval vm_compute in (Z.lxor a b) in change (Z.lxor a b) with r
         end;
  repeat match goal with
         | |- context [bool_decide ?P] => case_bool_decide; try lia
         end;
  repeat match goal with
         | |- context [(?x <? 0)] => destruct (Z.ltb_spec x 0)
         end;
  cbn [xorb]; lia.

Lemma kernel_ok_arikan : kernel_ok 2 (Ke_of kernel_arikan) lambdas_arikan.
Proof.
  intros v LLRs Hv Hbits HL Hag j Hj.
  destruct v as [|v0 [|v1 [|? ?]]]; try discriminate Hv.
  destruct LLRs as [|x0 [|x1 [|? ?]]]; try discriminate HL.
  pose proof (Hag 0%nat ltac:(lia)) as H0. pose proof (Hag 1%nat ltac:(lia)) as H1.
  clear Hag. bits_cases Hbits; eval_bit H0; eval_bit H1;
    destruct j as [|[|?]]; try lia; sign_cases.
Qed.

Lemma kernel_ok_t1 : kernel_ok 3 (Ke_of kernel_t1) lambdas_t1.
Proof.
  intros v LLRs Hv Hbits HL Hag j Hj.
  destruct v as [|v0 [|v1 [|v2 [|? ?]]]]; try discriminate Hv.
  destruct LLRs as [|x0 [|x1 [|x2 [|? ?]]]]; try discriminate HL.
  pose proof (Hag 0%nat ltac:(lia)) as H0. pose proof (Hag 1%nat ltac:(lia)) as H1.
  pose proof (Hag 2%nat ltac:(lia)) as H2.
  clear Hag. bits_cases Hbits; eval_bit H0; eval_bit H1; eval_bit H2;
    destruct j as [|[|[|?]]]; try lia; sign_cases.
Qed.

Lemma kernel_ok_t2 : kernel_ok 3 (Ke_of kernel_t2) lambdas_t2.
Proof.
  intros v LLRs Hv Hbits HL Hag j Hj.
  destruct v as [|v0 [|v1 [|v2 [|? ?]]]]; try discriminate Hv.
  destruct LLRs as [|x0 [|x1 [|x2 [|? ?]]]]; try discriminate HL.
  pose proof (Hag 0%nat ltac:(lia)) as H0. pose proof (Hag 1%nat ltac:(lia)) as H1.
  pose proof (Hag 2%nat ltac:(lia)) as H2.
  clear Hag. bits_cases Hbits; eval_bit H0; eval_bit H1; eval_bit H2;
    destruct j as [|[|[|?]]]; try lia; sign_cases.
Qed.

Lemma kernel_ok_recognized M :
  recognized M -> kernel_ok (length M) (Ke_of M) (lambdas_of M).
Proof.
  intros [-> | [-> | ->]];
    [apply kernel_ok_arikan | apply kernel_ok_t1 | apply kernel_ok_t2].
Qed.

End KernelOk.

(* ===================================================================== *)
(** * The information store                                              *)
(* ===================================================================== *)

Section StoreFacts.

Import PolarMK.

Variables (b : nat) (frozen : list bool).
Hypothesis Hb : (0 < b)%nat.

Implicit Types (V u : list Z) (k lv lane : nat).

Lemma info_bits_app : forall u1 u2 start,
  info_bits frozen start (u1 ++ u2)
  = info_bits frozen start u1 ++ info_bits frozen (start + length u1) u2.
Proof.
  induction u1 as [|x u1 IH]; intros u2 start; cbn [info_bits app length].
  - by rewrite Nat.add_0_r.
  - rewrite IH. replace (S start + length u1)%nat with (start + S (length u1))%nat by lia.
    by destruct (nth start frozen false).
Qed.

Lemma leaves_length : forall lv lane (n : Generic_node Contents_MK_SC),
  wf_node b frozen lv lane n -> length (leaves_s n) = (b ^ lv)%nat.
Proof.
  induction lv as [|lv IH]; intros lane n Hwf.
  - destruct n as [lane' ct children]. cbn in Hwf.
    destruct Hwf as (_ & -> & _). done.
  - destruct n as [lane' ct children].
    cbn [wf_node get_lane_id get_children get_c] in Hwf.
    destruct Hwf as (_ & _ & _ & _ & HF).
    pose proof (Forall2_length _ _ _ HF) as Hlen. rewrite length_seq in Hlen.
    assert (leaves_s (Node lane' ct children) = List.concat (List.map leaves_s children))
      as -> by (destruct children; [simpl in Hlen; lia | done]).
    rewrite Nat.pow_succ_r'.
    replace (b * b ^ lv)%nat with (length children * b ^ lv)%nat by (by rewrite <- Hlen).
    clear Hlen. revert HF. generalize (seq 0 b). intros js HF.
    induction HF as [|j c js cs Hc HF IHF]; [done|].
    cbn. rewrite length_app, IHF, (IH _ _ Hc). lia.
Qed.

Lemma store_internal lane (ct : Contents_MK_SC) children V k :
  children <> [] ->
  recursive_store frozen (Node lane ct children) V k
  = fold_left (fun st c => recursive_store frozen c (fst st) (snd st)) children (V, k).
Proof. intros H. by destruct children. Qed.

Lemma splice_splice V k (a c : list Z) :
  (k + length a + length c <= length V)%nat ->
  let V1 := take k V ++ a ++ drop (k + length a) V in
  take (k + length a) V1 ++ c ++ drop (k + length a + length c) V1
  = take k V ++ (a ++ c) ++ drop (k + length (a ++ c)) V.
Proof.
  intros Hlen V1. subst V1.
  rewrite (app_assoc (take k V) a).
  assert (length (take k V ++ a) = (k + length a)%nat) as Hl
    by (rewrite length_app, length_take; lia).
  rewrite take_app_length' by done.
  rewrite <- Hl at 2. rewrite drop_app_add'; [|done].
  rewrite Hl, drop_drop, length_app, <- !app_assoc.
  by rewrite Nat.add_assoc.
Qed.

(** [recursive_store] writes the bits of the non-frozen leaves of the
    subtree, in order, at the running index. *)
Lemma recursive_store_spec : forall lv lane (n : Generic_node Contents_MK_SC) V k,
  wf_node b frozen lv lane n ->
  let info := info_bits frozen (lane * b ^ lv) (leaves_s n) in
  (k + length info <= length V)%nat ->
  recursive_store frozen n V k
  = (take k V ++ info ++ drop (k + length info) V, (k + length info)%nat).
Proof.
  induction lv as [|lv IH]; intros lane n V k Hwf info Hk.
  - destruct n as [lane' ct children]. cbn in Hwf.
    destruct Hwf as (-> & -> & _ & Hs & _).
    destruct (s ct) as [|y [|? ?]] eqn:Es; try discriminate Hs.
    subst info. cbn [leaves_s info_bits recursive_store] in *.
    rewrite Es in *. cbn [nth] in *. rewrite Nat.pow_0_r, Nat.mul_1_r in *.
    destruct (nth lane frozen false); cbn [negb length app] in *.
    + by rewrite Nat.add_0_r, take_drop.
    + rewrite insert_take_drop by lia.
      replace (k + 1)%nat with (S k) by lia. done.
  - destruct n as [lane' ct children].
    cbn [wf_node get_lane_id get_children get_c] in Hwf.
    destruct Hwf as (-> & _ & _ & _ & HF).
    pose proof (Forall2_length _ _ _ HF) as Hlen. rewrite length_seq in Hlen.
    assert (children <> []) as Hne by (intros ->; simpl in Hlen; lia).
    subst info. rewrite store_internal by done.
    assert (leaves_s (Node lane ct children) = List.concat (List.map leaves_s children))
      as Elv by (by destruct children).
    rewrite Elv in *. clear Elv.
    assert (forall cs (m cnt : nat) V k,
              Forall2 (fun j c => wf_node b frozen lv (lane * b + j) c) (seq m cnt) cs ->
              (k + length (info_bits frozen ((lane * b + m) * b ^ lv)
                                     (List.concat (List.map leaves_s cs)))
               <= length V)%nat ->
              fold_left (fun st c => recursive_store frozen c (fst st) (snd st)) cs (V, k)
              = (take k V
                 ++ info_bits frozen ((lane * b + m) * b ^ lv)
                              (List.concat (List.map leaves_s cs))
                 ++ drop (k + length (info_bits frozen ((lane * b + m) * b ^ lv)
                                                (List.concat (List.map leaves_s cs)))) V,
                 (k + length (info_bits frozen ((lane * b + m) * b ^ lv)
                                        (List.concat (List.map leaves_s cs))))%nat))
      as Hfold.
    { clear -IH Hb. induction cs as [|c cs IHc]; intros m cnt V k HF Hk.
      - cbn. by rewrite Nat.add_0_r, take_drop.
      - destruct cnt as [|cnt]; [by apply Forall2_nil_inv_l in HF|].
        cbn [seq] in HF. apply Forall2_cons in HF as [Hc HF].
        cbn [List.map List.concat fold_left fst snd] in *.
        rewrite info_bits_app in *. rewrite length_app in Hk.
        rewrite (leaves_length lv _ c Hc) in *.
        rewrite (IH (lane * b + m)%nat c V k Hc) by lia. cbn [fst snd].
        replace ((lane * b + m) * b ^ lv + b ^ lv)%nat
          with ((lane * b + S m) * b ^ lv)%nat in * by lia.
        rewrite (IHc (S m) cnt);
          [|done|rewrite !length_app, length_take, length_drop; lia].
        rewrite splice_splice by lia.
        by rewrite length_app, Nat.add_assoc. }
    replace (lane * b ^ S lv)%nat with ((lane * b + 0) * b ^ lv)%nat in *
      by (rewrite Nat.pow_succ_r'; lia).
    by apply (Hfold children 0%nat b).
Qed.

End StoreFacts.

Section PlaceFacts.

Import PolarMK.

Lemma place_info_length : forall fb U_K, length (place_info fb U_K) = length fb.
Proof.
  induction fb as [|[|] fb IH]; intros U_K; cbn; [done|by rewrite IH|].
  destruct U_K; cbn; by rewrite IH.
Qed.

Lemma place_info_bits : forall fb U_K,
  Forall is_bit U_K -> Forall is_bit (place_info fb U_K).
Proof.
  induction fb as [|[|] fb IH]; intros U_K HU; cbn; [done|..].
  - constructor; [by left|by apply IH].
  - destruct HU as [|x U_K Hx HU]; constructor; try (by left); try done; by apply IH.
Qed.

Lemma place_info_frozen : forall fb U_K k,
  nth k fb false = true -> nth k (place_info fb U_K) 0 = 0.
Proof.
  induction fb as [|f fb IH]; intros U_K k Hk; [by destruct k|].
  destruct k as [|k]; cbn in Hk.
  - subst f. done.
  - destruct f; cbn; [by apply IH|]. destruct U_K; cbn; by apply IH.
Qed.

Lemma info_bits_place : forall fb (pre : list bool) U_K,
  Z.of_nat (length U_K) = zero_count fb ->
  info_bits (pre ++ fb) (length pre) (place_info fb U_K) = U_K.
Proof.
  unfold zero_count.
  induction fb as [|f fb IH]; intros pre U_K Hlen.
  - destruct U_K; [done|discriminate].
  - assert (nth (length pre) (pre ++ f :: fb) false = f) as Enth
      by (by rewrite app_nth2, Nat.sub_diag by lia).
    assert (pre ++ f :: fb = (pre ++ [f]) ++ fb) as Eapp by (by rewrite <- app_assoc).
    assert (S (length pre) = length (pre ++ [f])) as ES
      by (rewrite length_app; simpl; lia).
    destruct f; cbn [place_info List.filter negb length] in *.
    + cbn [info_bits]. rewrite Enth, Eapp, ES. by apply IH.
    + destruct U_K as [|x U_K]; [simpl in Hlen; lia|].
      cbn [info_bits]. rewrite Enth, Eapp, ES. f_equal. apply IH.
      simpl in Hlen. lia.
Qed.

End PlaceFacts.

(* ===================================================================== *)
(** * Noiseless round trip                                               *)
(* ===================================================================== *)

Lemma Ke_first (ms : list (list (list bool))) :
  nth 0 (List.map PolarMK.Ke_of ms) [] = PolarMK.Ke_of (nth 0 ms []).
Proof. by destruct ms. Qed.



Example round_trip_t1_9 :
  PolarMK.round_trip PolarMK.kernel_t1 2
    [true; true; false; true; false; false; true; false; false] [1; 0; 1; 1; 1]
  = Some [1; 0; 1; 1; 1].
Proof. vm_compute. reflexivity. Qed.

Example round_trip_t2_9 :
  PolarMK.round_trip PolarMK.kernel_t2 2
    [true; true; false; true; false; false; true; false; false] [1; 0; 1; 1; 0]
  = Some [1; 0; 1; 1; 0].
Proof. vm_compute. reflexivity. Qed.

Example round_trip_arikan_4 :
  PolarMK.round_trip PolarMK.kernel_arikan 2 [true; false; true; false] [1; 1] = Some [1; 1].
Proof. vm_compute. reflexivity. Qed.

Example round_trip_arikan_16 :
  PolarMK.round_trip PolarMK.kernel_arikan 4
    [true; true; true; false; true; false; false; false;
     true; false; false; false; true; false; false; false]
    [1; 0; 1; 1; 0; 0; 1; 0; 1; 1]
  = Some [1; 0; 1; 1; 0; 0; 1; 0; 1; 1].
Proof. vm_compute. reflexivity. Qed.

Lemma ternary_kernel_sizes (M : list (list bool)) (L : nat) :
  length M = 3%nat -> Z.of_nat (length M ^ L) <> 4 /\ Z.of_nat (length M ^ L) <> 8
                      /\ Z.of_nat (length M ^ L) <> 16.
Proof.
  intros ->.
  assert (forall k, (3 ^ L)%nat <> (2 * k + 2)%nat) as Hodd.
  { induction L as [|L' IH]; intros k; [simpl; lia|].
    rewrite Nat.pow_succ_r'. intros E.
    destruct (Nat.Even_or_Odd (3 ^ L')) as [[q Hq]|[q Hq]].
    - destruct q as [|q]; [rewrite Nat.mul_0_r in Hq; pose proof (Nat.pow_nonzero 3 L'); lia|].
      apply (IH q). lia.
    - lia. }
  pose proof (Hodd 1%nat). pose proof (Hodd 3%nat). pose proof (Hodd 7%nat). lia.
Qed.

(** A size-3 kernel has no code with N = 4, 8 or 16: such an N is not the
    codeword size of a mono-kernel code, and the constructor rejects it
    before anything is allocated. *)
Lemma ternary_kernel_rejects_binary_lengths (K N : Z) (code : PolarMK.Polar_code)
    (fb : list bool) (nf : Z) :
  PolarMK.mono_kernel_code code ->
  length (nth 0 (PolarMK.get_kernel_matrices code) []) = 3%nat ->
  N = 4 \/ N = 8 \/ N = 16 ->
  exists e, PolarMK.Decoder_polar_MK_SC_naive_new K N code fb nf = PolarMK.Failed e [].
Proof.
  intros (_ & _ & Hcw) H3 HN.
  destruct (constructor_cases K N code fb nf) as [(_ & e & E & _)|[Hc _]]; [eauto|].
  exfalso. destruct Hc as (_ & _ & _ & _ & HNcw & _).
  pose proof (ternary_kernel_sizes _ (length (PolarMK.get_stages code)) H3). lia.
Qed.


(* ===================================================================== *)
(** * More properties of [Task] *)
(* ===================================================================== *)

Section SocketFacts.

Import TaskM.
Context {W : Type}.
Implicit Types (t : Task W) (w : W) (s : Socket) (ss : list Socket) (nm : string).

Lemma find_snoc {A} (f : A -> bool) (l : list A) (x : A) :
  List.find f (l ++ [x])
  = match List.find f l with
    | Some y => Some y
    | None => if f x then Some x else None
    end.
Proof. induction l as [|y l IH]; cbn; [done|]. by destruct (f y). Qed.

Lemma find_name_none ss nm :
  name_exists ss nm = false ->
  List.find (fun s => bool_decide (get_name s = nm)) ss = None.
Proof.
  unfold name_exists. induction ss as [|s ss IH]; cbn; [done|].
  destruct (bool_decide (get_name s = nm)); cbn; [done|exact IH].
Qed.

Lemma create_socket_inv t sz nm n t' :
  create_socket t sz nm n = inr t' ->
  nm <> EmptyString /\ name_exists (socket t) nm = false
  /\ t' = with_sockets t (socket t ++ [mkSocket nm sz (n * sz) None]).
Proof.
  unfold create_socket. case_bool_decide; [done|].
  destruct (name_exists (socket t) nm); [done|]. intros [= <-]. done.
Qed.

Lemma name_exists_false ss nm :
  name_exists ss nm = false -> Forall (fun s => get_name s <> nm) ss.
Proof.
  unfold name_exists. induction ss as [|s ss IH]; cbn; [constructor|].
  case_bool_decide; cbn; [done|]. constructor; auto.
Qed.

Lemma find_other_name ss s nm' :
  get_name s <> nm' ->
  List.find (fun s => bool_decide (get_name s = nm')) (ss ++ [s])
  = List.find (fun s => bool_decide (get_name s = nm')) ss.
Proof.
  intros H. rewrite find_snoc. rewrite (bool_decide_eq_false_2 _ H).
  by destruct (List.find _ ss).
Qed.

(** What the three creation functions have in common: the new socket is
    appended, with its type recorded under its name. *)
Lemma creation_inv t t' (ty : Socket_type) sz nm n :
  match ty with
  | IN => create_socket_in t sz nm n
  | IN_OUT => create_socket_in_out t sz nm n
  | OUT => create_socket_out t sz nm n
  end = inr t' ->
  nm <> EmptyString /\ name_exists (socket t) nm = false
  /\ socket_type t' = <[nm := ty]> (socket_type t)
  /\ autoalloc t' = autoalloc t
  /\ exists p, socket t' = socket t ++ [mkSocket nm sz (n * sz) p]
     /\ match p with
        | None => (ty <> OUT \/ autoalloc t = false) /\ out_buffers t' = out_buffers t
        | Some q => ty = OUT /\ autoalloc t = true
                    /\ q = own_buffer (length (out_buffers t))
                    /\ out_buffers t'
                       = out_buffers t ++ [List.repeat 0 (Z.to_nat (n * sz))]
        end.
Proof.
  destruct ty; unfold create_socket_in, create_socket_in_out, create_socket_out;
    destruct (create_socket t sz nm n) as [e|t1] eqn:E; try done;
    apply create_socket_inv in E as (Hnm & Hex & ->); intros [= <-].
  - split_and!; try done. exists None. split; [done|]. split; [by left|done].
  - split_and!; try done. exists None. split; [done|]. split; [by left|done].
  - cbn [autoalloc with_socket_type with_sockets].
    destruct (autoalloc t) eqn:Ea.
    + unfold alloc_back. cbn [socket with_socket_type with_sockets].
      rewrite rev_app_distr. cbn [rev app]. rewrite rev_involutive.
      cbn. split_and!; try done.
      exists (Some (own_buffer (length (out_buffers t)))). by split_and!.
    + split_and!; try done. exists None. split; [done|]. split; [by right|done].
Qed.

End SocketFacts.



Section AutoallocFacts.

Import TaskM.
Context {W : Type}.
Implicit Types (t : Task W) (w : W) (s : Socket) (ss : list Socket).

Lemma typed_type t s :
  (exists ty, get_socket_type t s = inr ty) ->
  get_socket_type t s = inr OUT /\ is_out t s = true
  \/ (exists ty, ty <> OUT /\ get_socket_type t s = inr ty) /\ is_out t s = false.
Proof.
  unfold get_socket_type, is_out. intros (ty & H).
  destruct (socket_type t !! get_name s) as [[]|]; try discriminate H.
  - right. split; [exists IN; by split|done].
  - right. split; [exists IN_OUT; by split|done].
  - by left.
Qed.

Lemma release_outs_spec t ss :
  Forall (fun s => exists ty, get_socket_type t s = inr ty) ss ->
  release_outs t ss
  = (None, List.map (fun s => if is_out t s then set_dataptr s None else s) ss).
Proof.
  induction 1 as [|s ss Hs _ IH]; [done|]. cbn [release_outs List.map].
  rewrite IH.
  destruct (typed_type t s Hs) as [[-> ->]|[(ty & Hne & ->) ->]]; [done|].
  by destruct ty.
Qed.

Lemma allocate_outs_spec t : forall ss bufs,
  Forall (fun s => exists ty, get_socket_type t s = inr ty) ss ->
  exists ss',
    allocate_outs t ss bufs
    = (None, ss',
       bufs ++ List.map (fun s => List.repeat 0 (Z.to_nat (get_databytes s)))
                        (List.filter (is_out t) ss))
    /\ length ss' = length ss
    /\ forall i s, ss !! i = Some s ->
         ss' !! i
         = Some (if is_out t s
                 then set_dataptr s
                        (Some (own_buffer
                                 (length bufs + length (List.filter (is_out t) (take i ss)))))
                 else s).
Proof.
  induction ss as [|s ss IH]; intros bufs H.
  - exists []. cbn. rewrite app_nil_r. by split_and!.
  - apply Forall_cons in H as [Hs H]. cbn [allocate_outs List.filter].
    destruct (typed_type t s Hs) as [[-> Ho]|[(ty & Hne & ->) Ho]]; rewrite Ho.
    + destruct (IH (bufs ++ [List.repeat 0 (Z.to_nat (get_databytes s))]) H)
        as (ss' & -> & Hlen & Hlk).
      exists (set_dataptr s (Some (own_buffer (length bufs))) :: ss'). split; [|split].
      * cbn [List.map]. by rewrite <- app_assoc.
      * cbn. by rewrite Hlen.
      * intros [|i] s0 Hs0.
        -- injection Hs0 as <-. cbn. by rewrite Ho, Nat.add_0_r.
        -- change ((s :: ss) !! S i) with (ss !! i) in Hs0.
           change ((set_dataptr s (Some (own_buffer (length bufs))) :: ss') !! S i)
             with (ss' !! i).
           rewrite (Hlk i s0 Hs0). cbn [take firstn List.filter].
           rewrite Ho. cbn [length]. rewrite length_app. cbn [length].
           replace (length bufs + 1 + length (List.filter (is_out t) (take i ss)))%nat
             with (length bufs + S (length (List.filter (is_out t) (take i ss))))%nat by lia.
           done.
    + destruct (IH bufs H) as (ss' & Hal & Hlen & Hlk).
      exists (s :: ss'). split; [|split].
      * destruct ty; try done; by rewrite Hal.
      * cbn. by rewrite Hlen.
      * intros [|i] s0 Hs0.
        -- injection Hs0 as <-. cbn. by rewrite Ho.
        -- change ((s :: ss) !! S i) with (ss !! i) in Hs0.
           change ((s :: ss') !! S i) with (ss' !! i).
           rewrite (Hlk i s0 Hs0). cbn [take firstn List.filter].
           by rewrite Ho.
Qed.

End AutoallocFacts.

(** X2.  [set_autoalloc(false)] on an auto-allocating task drops the task's
    buffers and unbinds every output socket, leaving the other sockets as
    they are: if the task has an output socket, [exec] then refuses to run
    until that socket is bound again.  Setting the value the task already
    has changes nothing. *)
Theorem set_autoalloc_off_unbinds_outputs {W : Type} (t : TaskM.Task W) (w : W) (dur : Z) :
  TaskM.typed t -> TaskM.autoalloc t = true ->
  TaskM.set_autoalloc t true = (None, t)
  /\ exists t',
      TaskM.set_autoalloc t false = (None, t')
      /\ TaskM.autoalloc t' = false /\ TaskM.out_buffers t' = []
      /\ TaskM.socket t'
         = List.map (fun s => if TaskM.is_out t s then TaskM.set_dataptr s None else s)
                    (TaskM.socket t)
      /\ (Exists (fun s => TaskM.is_out t s = true) (TaskM.socket t) ->
          TaskM.exec t' w dur = (inl runtime_error, t', w)).
Proof.
  intros Ht Ha. unfold TaskM.set_autoalloc. rewrite Ha. cbn [Bool.eqb negb].
  split; [done|].
  cbn [TaskM.socket TaskM.with_out_buffers TaskM.with_autoalloc].
  pose proof (release_outs_spec
                (TaskM.with_out_buffers (TaskM.with_autoalloc t false) []) (TaskM.socket t) Ht)
    as Hr.
  rewrite Hr. eexists. split; [reflexivity|]. split_and!; try done.
  intros Hex. apply exec_not_ready. cbn [TaskM.socket TaskM.with_sockets].
  apply Exists_exists in Hex as (s & Hin & Ho). apply Exists_exists.
  exists (TaskM.set_dataptr s None). split; [|done].
  apply list_elem_of_In, in_map_iff. exists s. split; [|by apply list_elem_of_In].
  unfold TaskM.is_out in *. cbn [TaskM.socket_type TaskM.with_out_buffers TaskM.with_autoalloc].
  by rewrite Ho.
Qed.

Lemma set_autoalloc_off_unbinds_outputs_witness :
  exists t',
    TaskM.set_autoalloc TaskM.sample_task false = (None, t')
    /\ List.map TaskM.dataptr (TaskM.socket TaskM.sample_task)
       = [None; Some (TaskM.own_buffer 0)]
    /\ List.map TaskM.dataptr (TaskM.socket t') = [None; None]
    /\ TaskM.out_buffers t' = [].
Proof.
  assert (TaskM.typed TaskM.sample_task) as Ht.
  { repeat constructor; eexists; reflexivity. }
  destruct (set_autoalloc_off_unbinds_outputs TaskM.sample_task tt 0 Ht eq_refl)
    as (_ & t' & E & _ & Hb & Hs & _).
  exists t'. split; [exact E|]. split; [reflexivity|]. split; [|exact Hb].
  rewrite Hs. reflexivity.
Defined.



Section StatsFacts.

Import TaskM.
Context {W : Type}.
Implicit Types (t : Task W) (w : W) (durs prev : list Z).

Local Abbreviation sum := (fold_right Z.add 0).

(** [lo] and [hi] are the least and the greatest element of [xs]. *)
Local Abbreviation extremes xs lo hi :=
  (Forall (fun x => (lo <= x <= hi)%Z) xs /\ In (lo : Z) xs /\ In (hi : Z) xs).

Lemma sum_app (xs ys : list Z) : sum (xs ++ ys) = sum xs + sum ys.
Proof. induction xs as [|x xs IH]; cbn; [done|]. rewrite IH. lia. Qed.

(** One call with the statistics enabled. *)
Lemma exec_stats_step t w dur :
  stats t = true ->
  match exec t w dur with
  | (inl _, t1, _) => t1 = t
  | (inr _, t1, _) =>
      stats t1 = true
      /\ n_calls t1 = uint32 (n_calls t + 1)
      /\ duration_total t1 = duration_total t + dur
      /\ duration_min t1 = (if bool_decide (n_calls t <> 0)
                           then Z.min (duration_min t) dur else dur)
      /\ duration_max t1 = (if bool_decide (n_calls t <> 0)
                           then Z.max (duration_max t) dur else dur)
  end.
Proof.
  intros Hs. unfold exec. rewrite Hs.
  destruct (can_exec t); [|done].
  destruct (codelet t w) as [[status|e] w']; [|done].
  by case_bool_decide.
Qed.

Lemma extremes_snoc prev lo hi x :
  (prev <> [] -> extremes prev lo hi) ->
  extremes (prev ++ [x])
           (if bool_decide (Z.of_nat (length prev) <> 0) then Z.min lo x else x)
           (if bool_decide (Z.of_nat (length prev) <> 0) then Z.max hi x else x).
Proof.
  intros H. destruct prev as [|p prev].
  - rewrite !bool_decide_eq_false_2 by (cbn [length]; lia).
    cbn. split_and!; [constructor; [lia|constructor]|by left|by left].
  - rewrite !bool_decide_eq_true_2 by (cbn [length]; lia).
    destruct (H ltac:(done)) as (HF & Hlo & Hhi).
    split_and!.
    + apply Forall_app. split.
      * eapply Forall_impl; [exact HF|]. intros y [? ?]. cbn beta. lia.
      * constructor; [lia|constructor].
    + apply in_or_app. destruct (Z.min_spec lo x) as [[_ ->]|[_ ->]];
        [by left|right; by left].
    + apply in_or_app. destruct (Z.max_spec hi x) as [[_ ->]|[_ ->]];
        [right; by left|by left].
Qed.

Lemma exec_all_inv : forall durs t w prev (T0 : Z),
  stats t = true ->
  n_calls t = Z.of_nat (length prev) ->
  duration_total t = T0 + sum prev ->
  (prev <> [] -> extremes prev (duration_min t) (duration_max t)) ->
  Z.of_nat (length prev) + Z.of_nat (length durs) < 2 ^ 32 ->
  let r := exec_all t w durs in
  let all := prev ++ returned_durations (fst (fst r)) durs in
  n_calls (snd (fst r)) = Z.of_nat (length all)
  /\ duration_total (snd (fst r)) = T0 + sum all
  /\ (all <> [] -> extremes all (duration_min (snd (fst r))) (duration_max (snd (fst r)))).
Proof.
  induction durs as [|dur durs IH]; intros t w prev T0 Hs Hn Ht Hex Hlen; cbn zeta.
  - cbn [exec_all fst snd returned_durations]. rewrite app_nil_r. by split_and!.
  - cbn [exec_all]. pose proof (exec_stats_step t w dur Hs) as Hstep.
    destruct (exec t w dur) as [[[e|status] t1] w1].
    + subst t1. specialize (IH t w1 prev T0 Hs Hn Ht Hex ltac:(cbn [length] in Hlen; lia)).
      cbn zeta in IH. destruct (exec_all t w1 durs) as [[rs t2] w2].
      cbn [fst snd returned_durations] in *. exact IH.
    + destruct Hstep as (Hs1 & Hn1 & Ht1 & Hmin & Hmax).
      assert (n_calls t1 = Z.of_nat (length (prev ++ [dur]))) as Hn1'.
      { rewrite Hn1, Hn, length_app. cbn [length]. unfold uint32.
        rewrite Z.mod_small by (cbn [length] in Hlen; lia). lia. }
      assert (duration_total t1 = T0 + sum (prev ++ [dur])) as Ht1'.
      { rewrite Ht1, Ht, sum_app. cbn. lia. }
      assert (prev ++ [dur] <> [] ->
              extremes (prev ++ [dur]) (duration_min t1) (duration_max t1)) as Hex1.
      { intros _. rewrite Hmin, Hmax, Hn. by apply extremes_snoc. }
      specialize (IH t1 w1 (prev ++ [dur]) T0 Hs1 Hn1' Ht1' Hex1
                     ltac:(rewrite length_app; cbn [length] in *; lia)).
      cbn zeta in IH. destruct (exec_all t1 w1 durs) as [[rs t2] w2].
      cbn [fst snd returned_durations] in *.
      by rewrite <- app_assoc in IH.
Qed.

End StatsFacts.

(** X4.  On a task with the statistics enabled whose call counter is 0 (as
    constructed or after [reset_stats]), after any run of fewer than 2^32
    calls of [exec], some of which may have thrown: the call counter is the
    number of calls that returned, the total has grown by the sum of their
    durations, [duration_min] and [duration_max] are the least and the
    greatest of these durations, and, starting from a total of 0 with
    durations that are not negative, [get_duration_avg] lies between the
    two.  If no call returned, the average has no value (a division by
    zero). *)
Theorem exec_all_statistics {W : Type} (t : TaskM.Task W) (w : W) (durs : list Z) :
  TaskM.stats t = true -> TaskM.n_calls t = 0 ->
  Z.of_nat (length durs) < 2 ^ 32 ->
  let r := TaskM.exec_all t w durs in
  let t' := snd (fst r) in
  let oks := TaskM.returned_durations (fst (fst r)) durs in
  TaskM.n_calls t' = Z.of_nat (length oks)
  /\ TaskM.duration_total t' = TaskM.duration_total t + fold_right Z.add 0 oks
  /\ (oks = [] -> TaskM.get_duration_avg t' = None)
  /\ (oks <> [] ->
      Forall (fun x => TaskM.duration_min t' <= x <= TaskM.duration_max t') oks
      /\ In (TaskM.duration_min t') oks /\ In (TaskM.duration_max t') oks
      /\ (TaskM.duration_total t = 0 -> Forall (fun x => 0 <= x) durs ->
          exists avg, TaskM.get_duration_avg t' = Some avg
                      /\ TaskM.duration_min t' <= avg <= TaskM.duration_max t')).
Proof.
  intros Hs Hn Hlen. cbn zeta.
  destruct (exec_all_inv durs t w [] (TaskM.duration_total t) Hs Hn ltac:(cbn; lia)
              ltac:(done) ltac:(cbn [length]; lia)) as (Hn' & Ht' & Hex').
  cbn [app] in *.
  set (r := TaskM.exec_all t w durs) in *.
  set (oks := TaskM.returned_durations (fst (fst r)) durs) in *.
  split_and!; try done.
  - intros E. unfold TaskM.get_duration_avg. rewrite Hn', E. done.
  - intros Hne. destruct (Hex' Hne) as (HF & Hlo & Hhi). split_and!; try done.
    intros HT0 Hpos.
    assert (0 < Z.of_nat (length oks)) as Hlen' by (destruct oks; [done|cbn [length]; lia]).
    assert (forall (xs : list Z) lo hi, Forall (fun x => lo <= x <= hi) xs ->
              Z.of_nat (length xs) * lo <= fold_right Z.add 0 xs
                                       <= Z.of_nat (length xs) * hi) as Hb.
    { induction 1 as [|x xs Hx _ IH]; [cbn; lia|]. cbn [length fold_right]. lia. }
    specialize (Hb _ _ _ HF).
    assert (Forall (fun x => 0 <= x) oks) as Hpos'.
    { apply Forall_forall. intros x Hx. rewrite Forall_forall in HF.
      specialize (HF _ Hx). rewrite Forall_forall in Hpos.
      assert (forall rs ds, forall y, In y (TaskM.returned_durations rs ds) -> In y ds) as Hsub.
      { induction rs as [|[e|st] rs IH]; intros [|d0 ds] y Hy; cbn in Hy; try done.
        - right. by apply IH.
        - destruct Hy as [->|Hy]; [by left|right; by apply IH]. }
      apply Hpos, list_elem_of_In, (Hsub (fst (fst r))). by apply list_elem_of_In. }
    assert (0 <= fold_right Z.add 0 oks) as Hsum.
    { clear -Hpos'. induction Hpos' as [|x xs Hx _ IH]; cbn; lia. }
    unfold TaskM.get_duration_avg. rewrite bool_decide_eq_false_2 by lia.
    eexists. split; [reflexivity|].
    rewrite Ht', Hn', HT0, Z.add_0_l, Z.quot_div_nonneg by lia.
    split.
    + apply Z.div_le_lower_bound; lia.
    + apply Z.div_le_upper_bound; lia.
Qed.

Lemma exec_all_statistics_witness :
  let t := TaskM.bind TaskM.sample_task "Y_N" 4096 in
  let t' := snd (fst (TaskM.exec_all t tt [7; 3; 9])) in
  TaskM.n_calls t' = 3 /\ TaskM.duration_total t' = 19
  /\ TaskM.duration_min t' = 3 /\ TaskM.duration_max t' = 9
  /\ TaskM.get_duration_avg t' = Some 6.
Proof.
  cbn zeta.
  destruct (exec_all_statistics (TaskM.bind TaskM.sample_task "Y_N" 4096) tt [7; 3; 9]
              eq_refl eq_refl ltac:(cbn; lia)) as (Hn & Ht & _ & _).
  split; [exact Hn|]. split; [exact Ht|]. by split_and!.
Defined.

Section LastInputFacts.

Import TaskM.
Context {W : Type}.
Implicit Types (t : Task W) (s : Socket) (ss : list Socket).

Lemma last_input_position_spec t : forall ss (i0 : nat) (last : option nat),
  Forall (fun s => exists ty, get_socket_type t s = inr ty) ss ->
  exists r, last_input_position t ss i0 last = inr r
    /\ ((r = last /\ Forall (fun s => is_out t s = true) ss)
        \/ exists j s, r = Some (i0 + j)%nat /\ ss !! j = Some s /\ is_out t s = false
                       /\ Forall (fun s' => is_out t s' = true) (drop (S j) ss)).
Proof.
  induction ss as [|s ss IH]; intros i0 last H.
  - exists last. split; [done|]. left. by split.
  - apply Forall_cons in H as [Hs H]. cbn [last_input_position].
    destruct (typed_type t s Hs) as [[-> Ho]|[(ty & Hne & ->) Ho]].
    + destruct (IH (S i0) last H) as (r & -> & [[-> HF]|(j & s' & -> & Hj & Hjo & HF)]).
      * exists last. split; [done|]. left. split; [done|by constructor].
      * exists (Some (S i0 + j)%nat). split; [done|]. right.
        exists (S j), s'. split_and!; try done. f_equal. lia.
    + assert (match ty with
              | OUT => last_input_position t ss (S i0) last
              | _ => last_input_position t ss (S i0) (Some i0)
              end = last_input_position t ss (S i0) (Some i0)) as -> by (by destruct ty).
      destruct (IH (S i0) (Some i0) H) as (r & -> & [[-> HF]|(j & s' & -> & Hj & Hjo & HF)]).
      * exists (Some i0). split; [done|]. right.
        exists O, s. split_and!; try done. f_equal. lia.
      * exists (Some (S i0 + j)%nat). split; [done|]. right.
        exists (S j), s'. split_and!; try done. f_equal. lia.
Qed.

End LastInputFacts.

(** X5.  On a task whose sockets all have a type, [last_input_socket]
    does not throw, and it answers true for exactly one socket of the task
    if the task has an input ([IN] or [IN_OUT]) socket, the one after which
    only outputs follow, and for none otherwise. *)
Theorem last_input_socket_spec {W : Type} (t : TaskM.Task W) (i : nat) :
  TaskM.typed t ->
  exists b,
    TaskM.last_input_socket t i = inr b
    /\ (b = true
        <-> exists s, TaskM.socket t !! i = Some s /\ TaskM.is_out t s = false
                      /\ Forall (fun s' => TaskM.is_out t s' = true)
                                (drop (S i) (TaskM.socket t))).
Proof.
  intros Ht. unfold TaskM.last_input_socket.
  destruct (last_input_position_spec t (TaskM.socket t) 0 None Ht)
    as (r & -> & [[-> HF]|(j & s & -> & Hj & Hjo & HF)]).
  - exists false. split; [done|]. split; [done|]. intros (s & Hs & Ho & _).
    rewrite Forall_forall in HF.
    rewrite (HF s) in Ho; [done|]. by eapply list_elem_of_lookup_2.
  - cbn [Nat.add]. eexists. split; [reflexivity|]. rewrite bool_decide_eq_true.
    split.
    + intros ->. eauto.
    + intros (s' & Hs' & Ho' & HF').
      destruct (Nat.lt_trichotomy i j) as [Hlt|[->|Hgt]]; [|done|].
      * rewrite Forall_forall in HF'.
        assert (drop (S i) (TaskM.socket t) !! (j - S i)%nat = Some s) as Hd.
        { rewrite lookup_drop. rewrite <- Hj. f_equal. lia. }
        rewrite (HF' s) in Hjo; [done|]. by eapply list_elem_of_lookup_2.
      * rewrite Forall_forall in HF.
        assert (drop (S j) (TaskM.socket t) !! (i - S j)%nat = Some s') as Hd.
        { rewrite lookup_drop. rewrite <- Hs'. f_equal. lia. }
        rewrite (HF s') in Ho'; [done|]. by eapply list_elem_of_lookup_2.
Qed.

Lemma last_input_socket_spec_witness :
  TaskM.last_input_socket TaskM.sample_task 0 = inr true
  /\ TaskM.last_input_socket TaskM.sample_task 1 = inr false
  /\ exists b, TaskM.last_input_socket TaskM.sample_task 0 = inr b.
Proof.
  split; [reflexivity|]. split; [reflexivity|].
  assert (TaskM.typed TaskM.sample_task) as Ht.
  { repeat constructor; eexists; reflexivity. }
  destruct (last_input_socket_spec TaskM.sample_task 0 Ht) as (b & E & _).
  exists b. exact E.
Defined.

Section RegisteredFacts.

Import TaskM.
Context {W : Type}.
Implicit Types (t : Task W) (r : Registered) (key : string) (ds : list Z).

Lemma update_duration_lookup t r key d :
  let r' := update_duration t r key d in
  get_registered_n_calls r' key = Some (uint32 (map_at (registered_n_calls r) key + 1))
  /\ get_registered_duration_total r' key
     = Some (map_at (registered_duration_total r) key + d)
  /\ get_registered_duration_min r' key
     = Some (if bool_decide (n_calls t <> 0)
             then Z.min (map_at (registered_duration_min r) key) d else d)
  /\ get_registered_duration_max r' key
     = Some (if bool_decide (n_calls t <> 0)
             then Z.max (map_at (registered_duration_max r) key) d else d)
  /\ registered_duration r' = registered_duration r
  /\ forall key', key' <> key ->
       get_registered_n_calls r' key' = get_registered_n_calls r key'
       /\ get_registered_duration_total r' key' = get_registered_duration_total r key'
       /\ get_registered_duration_min r' key' = get_registered_duration_min r key'
       /\ get_registered_duration_max r' key' = get_registered_duration_max r key'.
Proof.
  cbn zeta. unfold update_duration, get_registered_n_calls, get_registered_duration_total,
    get_registered_duration_min, get_registered_duration_max.
  case_bool_decide; cbn; rewrite ?lookup_insert_eq; split_and!; try done;
    intros key' Hne; by rewrite !lookup_insert_ne.
Qed.

End RegisteredFacts.

Section ConsistentFacts.

Import TaskM.
Context {W : Type}.
Implicit Types (t : Task W) (r : Registered) (key : string).

Lemma consistent_register r key :
  timers_consistent r -> timers_consistent (register_duration r key).
Proof.
  intros (Ht & Hmn & Hmx & HF). unfold timers_consistent. cbn.
  rewrite !dom_insert_L, Ht, Hmn, Hmx. split_and!; try done.
  apply Forall_app. split.
  - eapply Forall_impl; [exact HF|]. intros k Hk. by apply elem_of_union_r.
  - constructor; [|constructor]. by apply elem_of_union_l, elem_of_singleton.
Qed.

Lemma consistent_update t r key d :
  timers_consistent r -> timers_consistent (update_duration t r key d).
Proof.
  intros (Ht & Hmn & Hmx & HF). unfold timers_consistent, update_duration.
  case_bool_decide; cbn; rewrite !dom_insert_L, Ht, Hmn, Hmx; split_and!; try done;
    (eapply Forall_impl; [exact HF|]; intros k Hk; by apply elem_of_union_r).
Qed.

Lemma consistent_reset r :
  timers_consistent r -> timers_consistent (reset_registered r).
Proof.
  intros (Ht & Hmn & Hmx & HF). unfold timers_consistent. cbn.
  rewrite !dom_fmap_L. by split_and!.
Qed.

Lemma consistent_getters r k :
  timers_consistent r -> In k (registered_duration r) ->
  is_Some (get_registered_n_calls r k)
  /\ is_Some (get_registered_duration_total r k)
  /\ is_Some (get_registered_duration_min r k)
  /\ is_Some (get_registered_duration_max r k)
  /\ get_registered_n_calls (reset_registered r) k = Some 0
  /\ get_registered_duration_total (reset_registered r) k = Some 0
  /\ get_registered_duration_min (reset_registered r) k = Some 0
  /\ get_registered_duration_max (reset_registered r) k = Some 0.
Proof.
  intros (Ht & Hmn & Hmx & HF) Hk.
  unfold get_registered_n_calls, get_registered_duration_total,
    get_registered_duration_min, get_registered_duration_max.
  rewrite Forall_forall in HF.
  specialize (HF k (proj2 (list_elem_of_In _ _) Hk)).
  assert (is_Some (registered_n_calls r !! k)) as H1 by (by apply elem_of_dom).
  assert (is_Some (registered_duration_total r !! k)) as H2
    by (apply elem_of_dom; by rewrite Ht).
  assert (is_Some (registered_duration_min r !! k)) as H3
    by (apply elem_of_dom; by rewrite Hmn).
  assert (is_Some (registered_duration_max r !! k)) as H4
    by (apply elem_of_dom; by rewrite Hmx).
  split_and!; try done; cbn; rewrite lookup_fmap.
  - by destruct H1 as [? ->].
  - by destruct H2 as [? ->].
  - by destruct H3 as [? ->].
  - by destruct H4 as [? ->].
Qed.

End ConsistentFacts.

(** X6.  The registered timers stay readable: the four maps have the same
    keys and hold every key listed by [get_registered_duration], as the
    task is constructed and after every [register_duration],
    [update_duration] and [reset_stats]; so the getters have a value for
    every listed key.  A key just registered reads 0 everywhere, and so
    does every key after a reset. *)
Theorem registered_timers_stay_consistent {W : Type} (t : TaskM.Task W)
    (r : TaskM.Registered) (key : string) (d : Z) :
  TaskM.timers_consistent (TaskM.mkRegistered [] ∅ ∅ ∅ ∅)
  /\ (TaskM.timers_consistent r ->
      TaskM.timers_consistent (TaskM.register_duration r key)
      /\ TaskM.timers_consistent (TaskM.update_duration t r key d)
      /\ TaskM.timers_consistent (TaskM.reset_registered r)
      /\ (forall k, In k (TaskM.registered_duration r) ->
            is_Some (TaskM.get_registered_n_calls r k)
            /\ is_Some (TaskM.get_registered_duration_total r k)
            /\ is_Some (TaskM.get_registered_duration_min r k)
            /\ is_Some (TaskM.get_registered_duration_max r k)
            /\ TaskM.get_registered_n_calls (TaskM.reset_registered r) k = Some 0
            /\ TaskM.get_registered_duration_total (TaskM.reset_registered r) k = Some 0
            /\ TaskM.get_registered_duration_min (TaskM.reset_registered r) k = Some 0
            /\ TaskM.get_registered_duration_max (TaskM.reset_registered r) k = Some 0))
  /\ TaskM.get_registered_n_calls (TaskM.register_duration r key) key = Some 0
  /\ TaskM.get_registered_duration_total (TaskM.register_duration r key) key = Some 0
  /\ TaskM.get_registered_duration_min (TaskM.register_duration r key) key = Some 0
  /\ TaskM.get_registered_duration_max (TaskM.register_duration r key) key = Some 0.
Proof.
  split; [by unfold TaskM.timers_consistent|].
  split.
  - intros Hc. split; [by apply consistent_register|].
    split; [by apply consistent_update|].
    split; [by apply consistent_reset|].
    intros k Hk. by apply consistent_getters.
  - unfold TaskM.get_registered_n_calls, TaskM.get_registered_duration_total,
      TaskM.get_registered_duration_min, TaskM.get_registered_duration_max.
    cbn. by rewrite !lookup_insert_eq.
Qed.

Lemma registered_timers_stay_consistent_witness :
  let r := TaskM.register_duration (TaskM.mkRegistered [] ∅ ∅ ∅ ∅) "load" in
  TaskM.timers_consistent
    (TaskM.update_duration (TaskM.Task_new (W := unit) "decode" true false true false)
       r "load" 5)
  /\ is_Some (TaskM.get_registered_duration_max r "load").
Proof.
  cbn zeta.
  destruct (registered_timers_stay_consistent
              (TaskM.Task_new (W := unit) "decode" true false true false)
              (TaskM.mkRegistered [] ∅ ∅ ∅ ∅) "load" 5) as (H0 & Hc & _).
  destruct (Hc H0) as (Hreg & _).
  destruct (registered_timers_stay_consistent
              (TaskM.Task_new (W := unit) "decode" true false true false)
              (TaskM.register_duration (TaskM.mkRegistered [] ∅ ∅ ∅ ∅) "load") "load" 5)
    as (_ & Hc' & _).
  destruct (Hc' Hreg) as (_ & Hup & _ & Hget).
  split; [exact Hup|]. apply (Hget "load"). by left.
Defined.

(** X7.  A timer that is registered and then updated [m] times (fewer than
    2^32) counts [m] calls and totals the durations, and the other keys
    are not touched.  Its minimum and maximum depend on the call counter
    of the task at the updates: while it is 0 every update overwrites both
    with its duration, so they hold the latest one; when it is not 0 they
    are folded from the 0 that the registration wrote, so the minimum of
    durations that are not negative stays 0. *)
Theorem registered_timer_accumulates {W : Type} (t : TaskM.Task W)
    (r : TaskM.Registered) (key : string) (ds : list Z) :
  Z.of_nat (length ds) < 2 ^ 32 ->
  let r' := fold_left (fun r0 d => TaskM.update_duration t r0 key d) ds
                      (TaskM.register_duration r key) in
  TaskM.get_registered_n_calls r' key = Some (Z.of_nat (length ds))
  /\ TaskM.get_registered_duration_total r' key = Some (fold_right Z.add 0 ds)
  /\ (TaskM.n_calls t <> 0 ->
      TaskM.get_registered_duration_min r' key = Some (fold_left Z.min ds 0)
      /\ TaskM.get_registered_duration_max r' key = Some (fold_left Z.max ds 0)
      /\ (Forall (fun d => 0 <= d) ds ->
          TaskM.get_registered_duration_min r' key = Some 0))
  /\ (TaskM.n_calls t = 0 ->
      TaskM.get_registered_duration_min r' key = Some (List.last ds 0)
      /\ TaskM.get_registered_duration_max r' key = Some (List.last ds 0))
  /\ TaskM.registered_duration r' = TaskM.registered_duration r ++ [key]
  /\ (forall key', key' <> key ->
        TaskM.get_registered_n_calls r' key' = TaskM.get_registered_n_calls r key'
        /\ TaskM.get_registered_duration_total r' key'
           = TaskM.get_registered_duration_total r key'
        /\ TaskM.get_registered_duration_min r' key'
           = TaskM.get_registered_duration_min r key'
        /\ TaskM.get_registered_duration_max r' key'
           = TaskM.get_registered_duration_max r key').
Proof.
  intros Hlen. cbn zeta.
  assert (forall ds (r0 : TaskM.Registered) (c T lo hi : Z),
            0 <= c -> c + Z.of_nat (length ds) < 2 ^ 32 ->
            TaskM.get_registered_n_calls r0 key = Some c ->
            TaskM.get_registered_duration_total r0 key = Some T ->
            TaskM.get_registered_duration_min r0 key = Some lo ->
            TaskM.get_registered_duration_max r0 key = Some hi ->
            let r' := fold_left (fun r0 d => TaskM.update_duration t r0 key d) ds r0 in
            TaskM.get_registered_n_calls r' key = Some (c + Z.of_nat (length ds))
            /\ TaskM.get_registered_duration_total r' key = Some (T + fold_right Z.add 0 ds)
            /\ (TaskM.n_calls t <> 0 ->
                TaskM.get_registered_duration_min r' key = Some (fold_left Z.min ds lo)
                /\ TaskM.get_registered_duration_max r' key = Some (fold_left Z.max ds hi))
            /\ (TaskM.n_calls t = 0 ->
                TaskM.get_registered_duration_min r' key = Some (List.last ds lo)
                /\ TaskM.get_registered_duration_max r' key = Some (List.last ds hi))
            /\ TaskM.registered_duration r' = TaskM.registered_duration r0
            /\ (forall key', key' <> key ->
                  TaskM.get_registered_n_calls r' key' = TaskM.get_registered_n_calls r0 key'
                  /\ TaskM.get_registered_duration_total r' key'
                     = TaskM.get_registered_duration_total r0 key'
                  /\ TaskM.get_registered_duration_min r' key'
                     = TaskM.get_registered_duration_min r0 key'
                  /\ TaskM.get_registered_duration_max r' key'
                     = TaskM.get_registered_duration_max r0 key')) as Hgen.
  { clear ds Hlen r. induction ds as [|d ds IH]; intros r0 c T lo hi Hc Hlen Hn Ht Hlo Hhi.
    - cbn. rewrite !Z.add_0_r. by split_and!.
    - cbn [fold_left]. cbn zeta.
      destruct (update_duration_lookup t r0 key d) as (Un & Ut & Ulo & Uhi & Ul & Uo).
      unfold TaskM.map_at in Un, Ut, Ulo, Uhi.
      unfold TaskM.get_registered_n_calls, TaskM.get_registered_duration_total,
        TaskM.get_registered_duration_min, TaskM.get_registered_duration_max in Hn, Ht, Hlo, Hhi.
      rewrite Hn in Un. rewrite Ht in Ut. rewrite Hlo in Ulo. rewrite Hhi in Uhi.
      cbn [default from_option id] in Un, Ut, Ulo, Uhi.
      unfold TaskM.uint32 in Un. rewrite Z.mod_small in Un by (cbn [length] in Hlen; lia).
      destruct (IH (TaskM.update_duration t r0 key d) (c + 1) _ _ _ ltac:(lia)
                  ltac:(cbn [length] in Hlen; lia) Un Ut Ulo Uhi)
        as (In & It & Imm & Im0 & Il & Io).
      split_and!.
      + rewrite In. f_equal. cbn [length]. lia.
      + rewrite It. f_equal. cbn. lia.
      + intros Hnz. rewrite bool_decide_eq_true_2 in Imm by done.
        destruct (Imm Hnz) as [-> ->]. done.
      + intros Hz. rewrite bool_decide_eq_false_2 in Im0 by lia.
        destruct (Im0 Hz) as [-> ->].
        assert (forall (l : list Z) (x a b : Z), List.last (x :: l) a = List.last (x :: l) b)
          as Hlast.
        { induction l as [|y l IHl]; intros x a b; [done|].
          change (List.last (y :: l) a = List.last (y :: l) b). apply IHl. }
        destruct ds as [|x ds]; [done|]. cbn [List.last].
        split; f_equal; apply Hlast.
      + by rewrite Il.
      + intros key' Hne. destruct (Io key' Hne) as (-> & -> & -> & ->). by apply Uo. }
  assert (forall (m : gmap string Z), <[key := 0]> m !! key = Some 0) as Hins
    by (intros m; apply lookup_insert_eq).
  destruct (Hgen ds (TaskM.register_duration r key) 0 0 0 0 ltac:(lia) ltac:(lia)
              (Hins _) (Hins _) (Hins _) (Hins _))
    as (Hn & Ht & Hmm & Hm0 & Hl & Ho).
  rewrite Z.add_0_l in Hn, Ht.
  split_and!; try done.
  - intros Hnz. destruct (Hmm Hnz) as [Hlo Hhi]. split_and!; try done.
    intros Hpos. rewrite Hlo. f_equal.
    clear -Hpos. assert (forall lo, lo <= 0 -> fold_left Z.min ds lo = lo) as H.
    { induction Hpos as [|d ds Hd _ IH]; intros lo Hlo; [done|]. cbn.
      rewrite IH by lia. lia. }
    by apply H.
  - intros key' Hne. destruct (Ho key' Hne) as (-> & -> & -> & ->).
    unfold TaskM.get_registered_n_calls, TaskM.get_registered_duration_total,
      TaskM.get_registered_duration_min, TaskM.get_registered_duration_max. cbn.
    by rewrite !lookup_insert_ne.
Qed.

Lemma registered_timer_accumulates_witness :
  let t := TaskM.Task_new (W := unit) "decode" true false true false in
  let r' := fold_left (fun r0 d => TaskM.update_duration t r0 "load" d) [5; 2; 8]
              (TaskM.register_duration (TaskM.mkRegistered [] ∅ ∅ ∅ ∅) "load") in
  TaskM.get_registered_n_calls r' "load" = Some 3
  /\ TaskM.get_registered_duration_total r' "load" = Some 15
  /\ TaskM.get_registered_duration_min r' "load" = Some 8.
Proof.
  cbn zeta.
  destruct (registered_timer_accumulates
              (TaskM.Task_new (W := unit) "decode" true false true false)
              (TaskM.mkRegistered [] ∅ ∅ ∅ ∅) "load" [5; 2; 8] ltac:(cbn; lia))
    as (Hn & Ht & _ & Hz & _).
  split; [exact Hn|]. split; [exact Ht|]. exact (proj1 (Hz eq_refl)).
Defined.

(* ===================================================================== *)
(** * More properties of [Decoder_i] *)
(* ===================================================================== *)

Section TileFacts.

Import DecoderI.
Implicit Types (v : list Z) (frames : list (list Z)) (off n i m a : nat).

Lemma lookup_slice v off n i :
  (i < n)%nat -> slice v off n !! i = v !! (off + i)%nat.
Proof. intros Hi. unfold slice. by rewrite lookup_take_lt, lookup_drop. Qed.

(** Two buffers that agree on tiles covering all their positions are
    equal. *)
Lemma list_eq_tiles (V T : list Z) (offs lens : nat -> nat) (m : nat) :
  length V = length T ->
  (forall i, (i < length V)%nat -> exists w, (w < m)%nat /\ (offs w <= i < offs w + lens w)%nat) ->
  (forall w, (w < m)%nat -> slice V (offs w) (lens w) = slice T (offs w) (lens w)) ->
  V = T.
Proof.
  intros Hlen Hcov Heq. apply list_eq. intros i.
  destruct (decide (i < length V)%nat) as [Hi|Hi].
  - destruct (Hcov i Hi) as (w & Hw & Hr).
    pose proof (f_equal (fun l => l !! (i - offs w)%nat) (Heq w Hw)) as E. cbn in E.
    rewrite !lookup_slice in E by lia.
    by replace (offs w + (i - offs w))%nat with i in E by lia.
  - rewrite !lookup_ge_None_2 by lia. done.
Qed.

Lemma slice_concat_frames K frames a m :
  Forall (fun f => length f = K) frames ->
  slice (List.concat frames) (a * K) (m * K) = List.concat (take m (drop a frames)).
Proof.
  intros HF. revert a m. induction HF as [|f frames Hf HF IH]; intros a m.
  - unfold slice. cbn [List.concat]. by rewrite !drop_nil, !take_nil.
  - destruct a as [|a].
    + rewrite drop_0. cbn [Nat.mul]. unfold slice. rewrite drop_0.
      destruct m as [|m]; [by rewrite !take_0|].
      cbn [List.concat take firstn]. cbn [Nat.mul].
      rewrite take_app_add' by done. f_equal.
      specialize (IH O m). unfold slice in IH. cbn in IH. by rewrite drop_0 in IH.
    + cbn [List.concat drop skipn]. unfold slice. cbn [Nat.mul].
      rewrite drop_app_add' by done. apply IH.
Qed.

Lemma take_drop_nth frames a m :
  (a + m <= length frames)%nat ->
  take m (drop a frames) = List.map (fun i => nth (a + i) frames []) (seq 0 m).
Proof.
  intros H. apply list_eq. intros i.
  destruct (decide (i < m)%nat) as [Hi|Hi].
  - rewrite lookup_take_lt, lookup_drop by done.
    rewrite (lookup_map_seq _ _ _ Hi).
    destruct (lookup_lt_is_Some_2 frames (a + i) ltac:(lia)) as [x Hx].
    by rewrite Hx, (nth_lookup_Some _ _ _ _ Hx).
  - rewrite lookup_take_ge by lia.
    symmetry. apply lookup_ge_None_2. rewrite length_map, length_seq. lia.
Qed.

Lemma take_concat_map K (g : nat -> list Z) (n m : nat) (rest : list Z) :
  (forall i, (i < n)%nat -> length (g i) = K) -> (m <= n)%nat ->
  take (m * K) (List.concat (List.map g (seq 0 n)) ++ rest)
  = List.concat (List.map g (seq 0 m)).
Proof.
  revert g m. induction n as [|n IH]; intros g m Hg Hm.
  - assert (m = O) as -> by lia. by rewrite take_0.
  - destruct m as [|m]; [by rewrite take_0|].
    cbn [seq List.map List.concat Nat.mul]. rewrite <- !seq_shift, !List.map_map.
    rewrite <- app_assoc, take_app_add' by (symmetry; apply Hg; lia). f_equal.
    apply (IH (fun i => g (S i))); [|lia]. intros i Hi. apply Hg. lia.
Qed.

End TileFacts.

Section BatchingAny.

Import DecoderI.
Context {St : Type} {impl : Decoder_impl St} {lawful : Lawful impl}.
Variables (K0 N0 simd : nat).
Context {lanes : LaneWise impl K0 N0 simd}.
Variables (nR nB : nat).
Implicit Types (d : Decoder_i St) (Y V : list Z) (w i : nat) (frames : list (list Z)).

Local Abbreviation cfg := (configured_for nR nB K0 N0 simd).

Lemma cfg_sizes d n : cfg n d -> (0 < K0 <= N0)%nat /\ (0 < simd)%nat.
Proof.
  intros (Hwf & _ & Hs & HK & HN).
  pose proof (wf_K _ _ _ Hwf). pose proof (wf_KN _ _ _ Hwf).
  pose proof (wf_simd _ _ _ Hwf). lia.
Qed.

(** What a wave leaves in its staging vector: the decisions for the lanes
    of the staged input, one after the other. *)
Lemma lanes_output_any d n w Y (s : St) :
  cfg n d -> (w < Z.to_nat (n_dec_waves d))%nat ->
  wave_output true true false false s (staged d true w Y) (nth w (V_N d) [])
  = List.concat (List.map (fun i => frame_dec (slice (staged d true w Y) (i * N0) N0))
                          (seq 0 simd))
    ++ drop (simd * K0) (nth w (V_N d) []).
Proof.
  intros Hc Hw. pose proof (cfg_sizes d n Hc) as HKN.
  destruct Hc as (Hwf & _ & Hs & HK & HN).
  unfold wave_output, state_after.
  rewrite lane_law; [done|..].
  - rewrite (staged_length nR nB d w Y true Hwf Hw). rewrite Hs, HN. lia.
  - rewrite (V_N_length nR nB d w Hwf Hw). rewrite Hs, HN. nia.
Qed.

Lemma staged_lane d n w Y i :
  cfg n d -> (w < Z.to_nat (n_dec_waves d))%nat ->
  N d * n_frames d = Z.of_nat (length Y) ->
  Z.of_nat i < n_frames_per_wave d w ->
  slice (staged d true w Y) (i * N0) N0 = slice Y ((w * simd + i) * N0) N0.
Proof.
  intros Hc Hw HY Hi. destruct Hc as (Hwf & _ & Hs & HK & HN).
  destruct (wave_range nR nB d w Hwf Hw) as (Hr1 & Hr2 & _).
  unfold staged, copy_to. rewrite take_0, app_nil_l.
  rewrite slice_app_l.
  - rewrite slice_slice by nia. f_equal. nia.
  - rewrite slice_length by nia. nia.
Qed.

(** A call on [n] frames with the information sized buffer: the decisions
    of the frames, one after the other, whatever [n] and the number of
    frames per wave. *)
Lemma batch_call d frames V :
  cfg (Z.of_nat (length frames)) d ->
  Forall (fun f => length f = N0) frames -> length V = (length frames * K0)%nat ->
  exists d', hard_decode d (List.concat frames) V true true false false
             = (None, List.concat (List.map frame_dec frames), d')
             /\ cfg (Z.of_nat (length frames)) d'.
Proof.
  intros Hc HF HV. destruct (cfg_sizes d _ Hc) as [HKN Hsimd].
  pose proof Hc as (Hwf & Hn & Hs & HK & HN).
  pose proof (length_concat_frames N0 frames HF) as HlenY.
  set (Y := List.concat frames) in *.
  set (T := List.concat (List.map frame_dec frames)).
  assert (N d * n_frames d = Z.of_nat (length Y)) as HY by nia.
  assert (Forall (fun f => length f = K0) (List.map frame_dec frames)) as HFK.
  { apply Forall_forall. intros x Hx%list_elem_of_In%in_map_iff.
    destruct Hx as (f & <- & Hf%list_elem_of_In). apply frame_dec_length.
    rewrite Forall_forall in HF. by apply HF. }
  assert (length T = (length frames * K0)%nat) as HT.
  { unfold T. rewrite (length_concat_frames K0) by done. by rewrite length_map. }
  assert (forall w, (w < Z.to_nat (n_dec_waves d))%nat ->
            forall s, take (wave_len d (K d) w)
                        (wave_output true true false false s (staged d true w Y)
                                     (nth w (V_N d) []))
                      = slice T (wave_off d (K d) w) (wave_len d (K d) w)) as Hwave.
  { intros w Hw s.
    destruct (wave_range nR nB d w Hwf Hw) as (Hr1 & Hr2 & _).
    set (m := Z.to_nat (n_frames_per_wave d w)).
    assert (wave_len d (K d) w = (m * K0)%nat) as -> by (unfold wave_len, m; nia).
    assert (wave_off d (K d) w = (w * simd * K0)%nat) as -> by (unfold wave_off; nia).
    rewrite (lanes_output_any d _ w Y s Hc Hw).
    rewrite (take_concat_map K0) by
      (try (intros i Hi; apply frame_dec_length, slice_length;
            rewrite (staged_length nR nB d w Y true Hwf Hw); nia); unfold m; lia).
    unfold T. rewrite (slice_concat_frames K0) by done.
    rewrite skipn_map, firstn_map.
    rewrite take_drop_nth by (unfold m; lia).
    rewrite List.map_map. f_equal. apply map_ext_in. intros i Hi%in_seq.
    rewrite (staged_lane d _ w Y i Hc Hw HY) by (unfold m in Hi; lia).
    f_equal. apply slice_concat_frame; [done|unfold m in Hi; lia]. }
  destruct (decide (n_dec_waves d = 1 /\ n_inter_frame_rest d = 0)) as [[Ew Er]|Hnf].
  - (* the fast path: one full wave on the caller's buffers *)
    assert (n_frames d = simd_inter_frame_level d) as Hfs.
    { apply (fast_path_iff nR nB d Hwf); [|done].
      apply (waves_positive nR nB d 0 Hwf). lia. }
    rewrite (hard_decode_fast nR nB d Y V true true false false Hwf Ew Er HY) by nia.
    cbn [andb negb]. rewrite bool_decide_eq_false_2 by nia.
    exists (with_state d (state_after true (state d) Y)). split.
    + f_equal. f_equal. unfold wave_output, state_after.
      rewrite lane_law by nia.
      rewrite drop_ge, app_nil_r by nia.
      assert (frames = List.map (fun i => nth (0 + i) frames []) (seq 0 (length frames)))
        as Efr.
      { rewrite <- take_drop_nth by lia. rewrite drop_0. symmetry. apply firstn_all. }
      unfold T.
      replace (List.map frame_dec frames)
        with (List.map frame_dec
                (List.map (fun i => nth (0 + i) frames []) (seq 0 (length frames))))
        by (by rewrite <- Efr).
      rewrite List.map_map. f_equal.
      transitivity (List.map (fun i => frame_dec (nth (0 + i) frames [])) (seq 0 simd)).
      * apply map_ext_in. intros i Hi%in_seq. f_equal.
        apply slice_concat_frame; [done|lia].
      * do 2 f_equal. lia.
    + split; [by destruct Hwf; constructor|by split_and!].
  - rewrite (hard_decode_general d Y V true true false false HY) by (done || nia).
    assert (unit_size d V = Some (K d)) as HM.
    { unfold unit_size. rewrite bool_decide_eq_true_2; [done|nia]. }
    destruct (waves_store_spec nR nB Y true false false (Z.to_nat (n_dec_waves d))
                0%nat d V (K d) Hwf eq_refl HM)
      as (V' & d' & E & Hlen & Hwf' & Hcfg & _ & Hseg & _).
    exists d'. rewrite E. split.
    + f_equal. f_equal.
      apply (list_eq_tiles V' T (wave_off d (K d)) (wave_len d (K d))
                           (Z.to_nat (n_dec_waves d))).
      * lia.
      * intros i Hi.
        assert (0 < n_frames d) as Hpos by nia.
        pose proof (wf_waves _ _ _ Hwf) as Hwv.
        destruct (ceil_div_spec (n_frames d) (simd_inter_frame_level d)
                    ltac:(lia) ltac:(lia)) as [Hc0 Hc1].
        set (sk := (simd * K0)%nat).
        assert (0 < sk)%nat as Hsk by (unfold sk; nia).
        exists (i / sk)%nat.
        pose proof (Nat.div_mod_eq i sk) as Hdm.
        pose proof (Nat.mod_upper_bound i sk ltac:(lia)) as Hmod.
        assert (i / sk < Z.to_nat (n_dec_waves d))%nat as Hw.
        { apply Nat.Div0.div_lt_upper_bound.
          destruct (decide (n_frames d mod simd_inter_frame_level d = 0)) as [Hz|Hz].
          - rewrite Hwv, (Hc0 Hz). apply Z.div_exact in Hz; [|lia]. unfold sk. nia.
          - rewrite Hwv, (Hc1 Hz).
            pose proof (Z.div_mod (n_frames d) (simd_inter_frame_level d) ltac:(lia)).
            pose proof (Z.mod_pos_bound (n_frames d) (simd_inter_frame_level d) ltac:(lia)).
            unfold sk. nia. }
        split; [done|].
        destruct (wave_range nR nB d (i / sk) Hwf Hw) as (Hr1 & Hr2 & Hr3).
        unfold wave_off, wave_len.
        destruct (decide (Z.of_nat (i / sk) = n_dec_waves d - 1)) as [Hl|Hl].
        -- specialize (Hr3 Hl). unfold sk in *. nia.
        -- assert (n_frames_per_wave d (i / sk) = simd_inter_frame_level d) as ->.
           { unfold n_frames_per_wave. rewrite bool_decide_eq_false_2; [done|tauto]. }
           unfold sk in *. nia.
      * intros w Hw. destruct (Hseg w ltac:(lia)) as (E1 & s & E2).
        rewrite E1, E2. apply Hwave. done.
    + destruct Hcfg as (? & ? & ? & ? & ? & ?). unfold configured_for.
      split_and!; try done; congruence.
Qed.

(** The single-frame path, one call per frame on a decoder for one
    frame. *)
Lemma run_frames_any : forall frames bufs d,
  cfg 1 d ->
  Forall (fun f => length f = N0) frames -> Forall (fun b => length b = K0) bufs ->
  length bufs = length frames ->
  run_frames d frames bufs = Some (List.map frame_dec frames).
Proof.
  induction frames as [|f frames IH]; intros [|b bufs] d Hc HF HB Hl;
    try discriminate Hl; [done|].
  apply Forall_cons in HF as [Hf HF]. apply Forall_cons in HB as [Hb HB].
  destruct (batch_call d [f] b) as (d' & E & Hc');
    [done|by constructor|simpl; lia|].
  cbn [List.concat List.map] in E. rewrite !app_nil_r in E.
  cbn [run_frames List.map]. rewrite E.
  rewrite (IH bufs d' Hc' HF HB) by (simpl in Hl; lia). done.
Qed.

End BatchingAny.



Section CallInvariants.

Import DecoderI.
Context {St : Type} {impl : Decoder_impl St} {lawful : Lawful impl}.
Variables (nR nB : nat).
Implicit Types (d : Decoder_i St) (Y V : list Z) (w : nat) (ld st sf up : bool).

Local Abbreviation wf := (wf nR nB).

Lemma with_state_wf d (s : St) : wf d -> wf (with_state d s).
Proof. intros H. by destruct H; constructor. Qed.

Lemma same_config_refl d : same_config d d.
Proof. by split_and!. Qed.

Lemma same_config_trans d1 d2 d3 :
  same_config d1 d2 -> same_config d2 d3 -> same_config d1 d3.
Proof.
  intros (? & ? & ? & ? & ? & ?) (? & ? & ? & ? & ? & ?).
  unfold same_config. split_and!; congruence.
Qed.

(** One wave keeps the configuration of the decoder and the length of the
    caller's buffer, whether it ends with an exception or not. *)
Lemma wave_invariant d w Y V ld st sf up :
  wf d -> (w < Z.to_nat (n_dec_waves d))%nat ->
  let r := wave w Y ld st sf up d V in
  wf (snd r) /\ same_config d (snd r) /\ length (snd (fst r)) = length V
  /\ (st = false -> fst r = (None, V)).
Proof.
  intros Hwf Hw. cbn zeta.
  pose proof (after_wave_wf nR nB d w Y ld st sf up Hwf Hw) as Hwf'.
  assert (same_config d (after_wave ld st sf up d w Y)) as Hsc by (by split_and!).
  destruct st.
  - rewrite (wave_spec nR nB d w Y V ld sf up Hwf Hw).
    destruct (unit_size d V) as [M|] eqn:EM; cbn [fst snd]; split_and!; try done.
    destruct (unit_size_bounds nR nB d V M Hwf EM) as [HM1 HM2].
    destruct (wave_range nR nB d w Hwf Hw) as (Hr1 & Hr2 & _).
    apply copy_to_length.
    pose proof (slice_length_le
                  (wave_output ld true sf up (state d) (staged d ld w Y) (nth w (V_N d) []))
                  0 (wave_len d M w)).
    assert (Z.of_nat (wave_off d M w) + Z.of_nat (wave_len d M w) <= Z.of_nat (length V))
      as Hsum.
    { unfold wave_off, wave_len.
      rewrite !Z2Nat.id by (repeat apply Z.mul_nonneg_nonneg; lia).
      pose proof (Z.mul_le_mono_nonneg_r _ _ M ltac:(lia) Hr2). lia. }
    lia.
  - rewrite (wave_no_store nR nB d w Y V ld sf up Hwf Hw). cbn [fst snd]. by split_and!.
Qed.

Lemma waves_invariant Y ld st sf up : forall (j m : nat) d V,
  wf d -> (m + j <= Z.to_nat (n_dec_waves d))%nat ->
  let r := waves (seq m j) Y ld st sf up d V in
  wf (snd r) /\ same_config d (snd r) /\ length (snd (fst r)) = length V
  /\ (st = false -> fst r = (None, V)).
Proof.
  induction j as [|j IH]; intros m d V Hwf Hm; cbn zeta.
  - cbn [seq waves fst snd]. by split_and!.
  - cbn [seq waves].
    destruct (wave_invariant d m Y V ld st sf up Hwf ltac:(lia)) as (Hwf1 & Hsc1 & Hl1 & Hn1).
    destruct (wave m Y ld st sf up d V) as [[[e|] V1] d1] eqn:Ew; cbn [fst snd] in *.
    + by split_and!.
    + assert (n_dec_waves d1 = n_dec_waves d) as Ewv by (by destruct Hsc1 as (_ & ? & _)).
      destruct (IH (S m) d1 V1 Hwf1 ltac:(lia)) as (Hwf2 & Hsc2 & Hl2 & Hn2).
      split_and!; try done.
      * eapply same_config_trans; eauto.
      * congruence.
      * intros ->. rewrite (Hn2 eq_refl). specialize (Hn1 eq_refl). congruence.
Qed.

(** The three ways a call goes: an entry check fails, the fast path, the
    wave loop. *)
Lemma hard_decode_cases d Y V ld st sf up :
  wf d ->
  ((N d * n_frames d <> Z.of_nat (length Y) \/ N d * n_frames d < Z.of_nat (length V))
   /\ hard_decode d Y V ld st sf up = (Some length_error, V, d))
  \/ (N d * n_frames d = Z.of_nat (length Y) /\ Z.of_nat (length V) <= N d * n_frames d
      /\ hard_decode d Y V ld st sf up
         = if st && negb sf && bool_decide (Z.of_nat (length V) < K d * simd_inter_frame_level d)
           then (Some length_error, V, with_state d (state_after ld (state d) Y))
           else (None, wave_output ld st sf up (state d) Y V,
                 with_state d (state_after ld (state d) Y)))
  \/ (N d * n_frames d = Z.of_nat (length Y) /\ Z.of_nat (length V) <= N d * n_frames d
      /\ hard_decode d Y V ld st sf up
         = waves (seq 0 (Z.to_nat (n_dec_waves d))) Y ld st sf up d V).
Proof.
  intros Hwf.
  destruct (decide (N d * n_frames d = Z.of_nat (length Y))) as [HY|HY].
  - destruct (decide (Z.of_nat (length V) <= N d * n_frames d)) as [HV|HV].
    + destruct (decide (n_dec_waves d = 1 /\ n_inter_frame_rest d = 0)) as [[Ew Er]|Hnf].
      * right. left. split_and!; try done. by apply (hard_decode_fast nR nB).
      * right. right. split_and!; try done. by apply hard_decode_general.
    + left. split; [lia|]. unfold hard_decode.
      rewrite bool_decide_eq_false_2 by (intros ?; done).
      by rewrite bool_decide_eq_true_2 by lia.
  - left. split; [by left|]. unfold hard_decode. by rewrite bool_decide_eq_true_2.
Qed.

End CallInvariants.

(** X9.  Every call of [hard_decode], with any flags and whether it ends
    with an exception or not, leaves the decoder's sizes, wave count and
    staging vectors' lengths as the constructor set them, and the caller's
    buffer at its length. *)
Theorem hard_decode_keeps_configuration {St : Type} {impl : DecoderI.Decoder_impl St}
    {lawful : DecoderI.Lawful impl} (nR nB : nat)
    (d : DecoderI.Decoder_i St) (Y V : list Z) (ld st sf up : bool) :
  DecoderI.wf nR nB d ->
  let r := DecoderI.hard_decode d Y V ld st sf up in
  DecoderI.wf nR nB (snd r)
  /\ DecoderI.same_config d (snd r)
  /\ length (snd (fst r)) = length V.
Proof.
  intros Hwf. cbn zeta.
  destruct (hard_decode_cases nR nB d Y V ld st sf up Hwf)
    as [(_ & ->)|[(_ & _ & ->)|(_ & _ & ->)]].
  - cbn [fst snd]. by split_and!.
  - destruct (_ && _ && _); cbn [fst snd]; split_and!;
      try done; try (by apply with_state_wf); try (by split_and!).
    apply wave_output_length.
  - destruct (waves_invariant nR nB Y ld st sf up (Z.to_nat (DecoderI.n_dec_waves d)) 0%nat
                d V Hwf ltac:(lia)) as (? & ? & ? & _).
    done.
Qed.

Lemma hard_decode_keeps_configuration_witness :
  let r := DecoderI.hard_decode (impl := DecoderI.rep2_impl) (DecoderI.rep2_decoder 5)
             [5; 3; -4; -6; 1; -9; -2; -2; 8; 0] [7; 7; 7; 7] true true false false in
  fst (fst r) = Some runtime_error
  /\ DecoderI.wf 0 0 (snd r) /\ length (snd (fst r)) = 4%nat.
Proof.
  cbn zeta. split; [reflexivity|].
  destruct (hard_decode_keeps_configuration (impl := DecoderI.rep2_impl) 0 0
              (DecoderI.rep2_decoder 5) [5; 3; -4; -6; 1; -9; -2; -2; 8; 0] [7; 7; 7; 7]
              true true false false (rep2_decoder_wf 5)) as (Hw & _ & Hl).
  split; [exact Hw|exact Hl].
Defined.

(** X10.  With the store disabled, [hard_decode] never writes the caller's
    buffer and, once the two entry checks on the lengths have passed,
    never throws, whatever the length of the buffer. *)
Theorem hard_decode_without_store {St : Type} {impl : DecoderI.Decoder_impl St}
    {lawful : DecoderI.Lawful impl} (nR nB : nat)
    (d : DecoderI.Decoder_i St) (Y V : list Z) (ld sf up : bool) :
  DecoderI.wf nR nB d ->
  let r := DecoderI.hard_decode d Y V ld false sf up in
  snd (fst r) = V
  /\ (DecoderI.N d * DecoderI.n_frames d = Z.of_nat (length Y) ->
      Z.of_nat (length V) <= DecoderI.N d * DecoderI.n_frames d ->
      fst (fst r) = None)
  /\ (fst (fst r) = None \/ fst (fst r) = Some length_error).
Proof.
  intros Hwf. cbn zeta.
  destruct (hard_decode_cases nR nB d Y V ld false sf up Hwf)
    as [(Hbad & ->)|[(_ & _ & ->)|(_ & _ & ->)]].
  - cbn [fst snd]. split_and!; [done|lia|by right].
  - cbn [andb fst snd DecoderI.wave_output]. split_and!; try done. by left.
  - destruct (waves_invariant nR nB Y ld false sf up (Z.to_nat (DecoderI.n_dec_waves d))
                0%nat d V Hwf ltac:(lia)) as (_ & _ & _ & Hn).
    rewrite (surjective_pairing (fst (DecoderI.waves _ _ _ _ _ _ _ _))) in Hn.
    specialize (Hn eq_refl). injection Hn as Hn1 Hn2.
    split_and!; try done. by left.
Qed.

Lemma hard_decode_without_store_witness :
  fst (DecoderI.hard_decode (impl := DecoderI.rep2_impl) (DecoderI.rep2_decoder 5)
         [5; 3; -4; -6; 1; -9; -2; -2; 8; 0] [7; 7; 7; 7] true false false false)
  = (None, [7; 7; 7; 7]).
Proof.
  destruct (hard_decode_without_store (impl := DecoderI.rep2_impl) 0 0
              (DecoderI.rep2_decoder 5) [5; 3; -4; -6; 1; -9; -2; -2; 8; 0] [7; 7; 7; 7]
              true false false (rep2_decoder_wf 5)) as (HV & HN & _).
  apply injective_projections; cbn [fst snd];
    [apply HN; [reflexivity|vm_compute; discriminate]|exact HV].
Defined.

Lemma sum_full_waves {St : Type} (d : DecoderI.Decoder_i St) (m : nat) :
  (forall w, (w < m)%nat ->
     DecoderI.n_frames_per_wave d w = DecoderI.simd_inter_frame_level d) ->
  fold_right Z.add 0 (List.map (DecoderI.n_frames_per_wave d) (seq 0 m))
  = Z.of_nat m * DecoderI.simd_inter_frame_level d.
Proof.
  induction m as [|m IH]; intros H; [done|].
  rewrite seq_S, map_app, fold_right_app. cbn [List.map fold_right Nat.add].
  rewrite (H m) by lia.
  assert (forall (l : list Z) (a : Z), fold_right Z.add a l = fold_right Z.add 0 l + a) as Hfr.
  { induction l as [|x l IHl]; intros a; cbn; [lia|]. rewrite IHl. lia. }
  rewrite Hfr, IH by (intros w Hw; apply H; lia). lia.
Qed.

(** X11.  The waves of a constructed decoder split its frames: every wave
    holds between 1 and [simd_inter_frame_level] frames, every wave but
    the last one is full, the waves together hold exactly [n_frames]
    frames, and there is one input and one output staging vector per
    wave.  The frame count is taken below 2^24, where the single precision
    division of the constructor is exact. *)
Theorem waves_partition_frames {St : Type} (nR nB : nat) (K N n simd : Z) (st0 : St)
    (d : DecoderI.Decoder_i St) :
  DecoderI.Decoder_i_new nR nB K N n simd st0 = inr d -> 0 <= n < 2 ^ 24 ->
  let W := Z.to_nat (DecoderI.n_dec_waves d) in
  (forall w, (w < W)%nat -> 0 < DecoderI.n_frames_per_wave d w <= simd)
  /\ (forall w, (S w < W)%nat -> DecoderI.n_frames_per_wave d w = simd)
  /\ fold_right Z.add 0 (List.map (DecoderI.n_frames_per_wave d) (seq 0 W)) = n
  /\ (W = 0%nat <-> n = 0)
  /\ length (DecoderI.Y_N d) = W /\ length (DecoderI.V_N d) = W.
Proof.
  intros E [Hn _].
  destruct (Decoder_i_new_wf nR nB K N n simd st0 d E) as (Hwf & HK & HN & Hnf & Hs & _).
  cbn zeta. set (W := Z.to_nat (DecoderI.n_dec_waves d)).
  pose proof (DecoderI.wf_simd _ _ _ Hwf) as Hsimd.
  pose proof (DecoderI.wf_waves _ _ _ Hwf) as Hwv.
  destruct (ceil_div_spec (DecoderI.n_frames d) (DecoderI.simd_inter_frame_level d)
              ltac:(lia) ltac:(lia)) as [Hc0 Hc1].
  assert (forall w, (S w < W)%nat -> DecoderI.n_frames_per_wave d w = simd) as Hfull.
  { intros w Hw. unfold DecoderI.n_frames_per_wave.
    rewrite bool_decide_eq_false_2; [done|]. unfold W in Hw. lia. }
  assert (W = 0%nat <-> n = 0) as HW0.
  { unfold W. rewrite Hwv, <- Hnf. split.
    - intros HW.
      destruct (decide (DecoderI.n_frames d mod DecoderI.simd_inter_frame_level d = 0))
        as [Hz|Hz].
      + rewrite (Hc0 Hz) in HW. apply Z.div_exact in Hz; [|lia].
        pose proof (Z.div_pos (DecoderI.n_frames d) (DecoderI.simd_inter_frame_level d)
                      ltac:(lia) ltac:(lia)). nia.
      + rewrite (Hc1 Hz) in HW.
        pose proof (Z.div_pos (DecoderI.n_frames d) (DecoderI.simd_inter_frame_level d)
                      ltac:(lia) ltac:(lia)). lia.
    - intros Hz0. rewrite Hz0. unfold DecoderI.ceil_div.
      by rewrite Z.div_small by lia. }
  split_and!; try done.
  - intros w Hw. rewrite <- Hs. apply (wave_range nR nB d w Hwf Hw).
  - destruct W as [|W'] eqn:EW; [cbn; symmetry; by apply HW0|].
    rewrite seq_S, map_app, fold_right_app. cbn [List.map fold_right Nat.add].
    assert (forall (l : list Z) (a : Z), fold_right Z.add a l = fold_right Z.add 0 l + a) as Hfr.
    { induction l as [|x l IHl]; intros a; cbn; [lia|]. rewrite IHl. lia. }
    rewrite Hfr, sum_full_waves by (intros w Hw; rewrite Hs; apply Hfull; lia).
    destruct (wave_range nR nB d W' Hwf ltac:(fold W; lia)) as (_ & _ & Hlast).
    specialize (Hlast ltac:(fold W in EW |- *; unfold W in EW; lia)). lia.
  - apply (DecoderI.wf_Y_len _ _ _ Hwf).
  - apply (DecoderI.wf_V_len _ _ _ Hwf).
Qed.

Lemma waves_partition_frames_witness :
  exists d,
    DecoderI.Decoder_i_new 0 0 1 2 5 2 ([] : list Z) = inr d
    /\ List.map (DecoderI.n_frames_per_wave d) (seq 0 (Z.to_nat (DecoderI.n_dec_waves d)))
       = [2; 2; 1]
    /\ fold_right Z.add 0
         (List.map (DecoderI.n_frames_per_wave d) (seq 0 (Z.to_nat (DecoderI.n_dec_waves d))))
       = 5.
Proof.
  eexists. split; [reflexivity|]. split; [reflexivity|].
  refine (proj1 (proj2 (proj2 (waves_partition_frames 0 0 1 2 5 2 ([] : list Z) _
                                 eq_refl _)))). split; [lia|reflexivity].
Defined.

(* ===================================================================== *)
(** * More properties of [Decoder_polar_MK_SC_naive] *)
(* ===================================================================== *)

Section DecodeAny.

Import PolarMK.

Variables (b : nat) (frozen : list bool).
Variables (stages : list nat) (Ke : list (list Z)) (lambdas : list lambda).
Variables (M : list (list bool)) (L : nat).
Hypothesis Hb : (0 < b)%nat.
Hypothesis HM : length M = b.
Hypothesis HKe : forall st, (st < L)%nat -> nth (nth st stages O) Ke [] = Ke_of M.

Local Abbreviation Ke_s := (Ke_of M).
Local Abbreviation dec := (decode_node stages Ke lambdas).
Local Abbreviation wf := (wf_node b frozen).

Implicit Types (n : Generic_node Contents_MK_SC) (v u : list Z) (lv lane j : nat).

Lemma Forall2_seq_nth {A} (P : nat -> A -> Prop) (m : nat) (xs : list A) (d : A) :
  Forall2 P (seq 0 m) xs -> forall j, (j < m)%nat -> P j (nth j xs d).
Proof.
  intros H j Hj.
  pose proof (Forall2_length _ _ _ H) as Hlen. rewrite length_seq in Hlen.
  destruct (lookup_lt_is_Some_2 xs j ltac:(lia)) as [x Hx].
  rewrite (nth_lookup_Some _ _ _ _ Hx).
  eapply Forall2_lookup_lr; [exact H| |exact Hx].
  by apply lookup_seq_lt.
Qed.

Lemma Forall2_Forall_any {A B} (P : A -> B -> Prop) (Q : B -> Prop) xs ys :
  Forall2 P xs ys -> (forall x y, P x y -> Q y) -> Forall Q ys.
Proof. induction 1; intros HQ; constructor; eauto. Qed.

Lemma map_seq_nth {A B} (f : A -> B) (g : nat -> B) (xs : list A) (d : A) :
  (forall j, (j < length xs)%nat -> f (nth j xs d) = g j) ->
  List.map f xs = List.map g (seq 0 (length xs)).
Proof.
  intros H. apply (nth_ext _ _ (f d) (g O)).
  - by rewrite !length_map, length_seq.
  - intros j Hj. rewrite length_map in Hj.
    rewrite (nth_map_in f xs j (f d) d Hj), (nth_map_seq g _ j _ Hj). by apply H.
Qed.

Lemma nth_slice u off m k :
  (k < m)%nat -> (off + m <= length u)%nat ->
  nth k (DecoderI.slice u off m) 0 = nth (off + k) u 0.
Proof.
  intros Hk Hle. unfold DecoderI.slice.
  by rewrite nth_lookup, lookup_take_lt, lookup_drop, <- nth_lookup.
Qed.

(** Whatever the LLRs, a decoded node holds in its partial sums the
    transform of the decisions at its leaves, which are bits and are 0 on
    the frozen lanes. *)
Lemma decode_node_codeword : forall lv lane n v,
  (lv <= L)%nat -> wf lv lane n -> (length v <= b ^ lv)%nat ->
  s (get_c (dec v n)) = polar_transform Ke_s b lv (leaves_s (dec v n))
  /\ Forall is_bit (leaves_s (dec v n))
  /\ (forall k, (k < b ^ lv)%nat ->
        nth (lane * b ^ lv + k) frozen false = true -> nth k (leaves_s (dec v n)) 0 = 0).
Proof.
  induction lv as [|lv IH]; intros lane n v HL Hwf Hv.
  - destruct (wf_leaf_inv b frozen lane n Hwf) as (c & x & y & -> & El & Es & Hf).
    rewrite decode_node_leaf. cbn zeta.
    cbn [get_c leaves_s s with_s polar_transform].
    cbn [s store_l with_l is_frozen_bit]. rewrite Es. cbn [list_insert nth].
    split_and!; [done|..].
    + constructor; [|constructor]. unfold is_bit. by destruct (_ && _); [right|left].
    + intros k Hk Hfz. cbn in Hk. assert (k = O) as -> by lia.
      rewrite Nat.mul_1_r, Nat.add_0_r in Hfz. cbn [nth].
      rewrite Hf, Hfz. done.
  - destruct (wf_internal_inv b frozen M Hb HM lv lane n Hwf)
      as (c & children & -> & Hne & Hlen & Hl & Hs & Hst & HF).
    set (sub := (b ^ lv)%nat) in *.
    assert (b ^ S lv = b * sub)%nat as Epow by apply Nat.pow_succ_r'.
    rewrite (decode_node_internal stages Ke lambdas lane c children v Hne). cbn zeta.
    assert (length (l (store_l v c)) = (b ^ S lv)%nat) as Hl'
      by (rewrite (store_l_length b M Hb HM); lia).
    rewrite Hl', Hlen, (pow_succ_div b M Hb HM). fold sub.
    set (children' := decode_children dec lambdas (l (store_l v c)) b sub children []).
    assert (Forall2 (fun j c' =>
                wf lv (lane * b + j) c'
                /\ s (get_c c') = polar_transform Ke_s b lv (leaves_s c')
                /\ Forall is_bit (leaves_s c')
                /\ (forall k, (k < sub)%nat ->
                      nth ((lane * b + j) * sub + k) frozen false = true ->
                      nth k (leaves_s c') 0 = 0))
              (seq 0 b) children') as HP.
    { rewrite <- Hlen at 1. change (length children) with (0 + length children)%nat.
      apply (decode_children_ind b stages Ke lambdas M Hb HM _ (fun j c => wf lv (lane * b + j) c)).
      - intros j done c' _ _ Hc'.
        assert (length (child_llrs lambdas (l (store_l v c)) b sub j done) <= b ^ lv)%nat
          as Hcl by (by rewrite child_llrs_length).
        split.
        + eapply (decode_node_shape b frozen stages Ke lambdas M L Hb HM HKe);
            [lia|done|done].
        + apply IH; [lia|done|done].
      - done.
      - constructor.
      - by rewrite Hlen. }
    pose proof (Forall2_length _ _ _ HP) as Hlen'. rewrite length_seq in Hlen'.
    assert (children' <> []) as Hne' by (intros E; rewrite E in Hlen'; simpl in Hlen'; lia).
    assert (nth (nth (Z.to_nat (stage (store_l v c))) stages O) Ke [] = Ke_s) as EKe.
    { apply HKe. cbn [stage store_l with_l]. lia. }
    rewrite EKe.
    assert (length (s (store_l v c)) = (b * sub)%nat) as Hs'.
    { cbn [s store_l with_l]. lia. }
    rewrite (reencode_spec' Ke_s children' b sub) by done.
    cbn [get_c s with_s]. rewrite leaves_internal by done.
    set (u := List.concat (List.map leaves_s children')).
    assert (Forall (fun f => length f = sub) (List.map leaves_s children')) as Hfr.
    { apply Forall_forall. intros f Hf%list_elem_of_In%in_map_iff.
      destruct Hf as (c' & <- & Hc'%list_elem_of_In).
      revert c' Hc'. apply Forall_forall.
      eapply Forall2_Forall_any; [exact HP|].
      intros j c0 (Hwf0 & _). by apply (leaves_length b frozen Hb lv (lane * b + j)). }
    assert (length u = (b * sub)%nat) as Hu.
    { unfold u. rewrite (length_concat_frames sub) by done. by rewrite length_map, <- Hlen'. }
    assert (forall j, (j < b)%nat ->
              DecoderI.slice u (j * sub) sub = leaves_s (nth j children' (Node O c []))) as Hsl.
    { intros j Hj. unfold u. rewrite (slice_concat_frame sub) by (done || (rewrite length_map; lia)).
      apply (nth_map_in leaves_s). lia. }
    split_and!.
    + cbn [polar_transform]. fold sub. f_equal.
      replace (seq 0 b) with (seq 0 (length children')) by (by rewrite <- Hlen').
      apply (map_seq_nth _ _ _ (Node O c [])).
      intros j Hj. rewrite Hsl by lia.
      by destruct (Forall2_seq_nth _ _ _ (Node O c []) HP j ltac:(lia)) as (_ & -> & _).
    + unfold u. apply Forall_concat. apply Forall_forall.
      intros f Hf%list_elem_of_In%in_map_iff.
      destruct Hf as (c' & <- & Hc'%list_elem_of_In).
      revert c' Hc'. apply Forall_forall.
      eapply Forall2_Forall_any; [exact HP|]. by intros j c0 (_ & _ & ? & _).
    + intros k Hk Hfz. rewrite Epow in Hk, Hfz.
      destruct (block_split sub b k Hk) as (Hq & Hr & Ek).
      destruct (Forall2_seq_nth _ _ _ (Node O c []) HP (k / sub)%nat Hq) as (_ & _ & _ & Hz).
      specialize (Hz (k mod sub)%nat Hr).
      rewrite <- Hsl in Hz by done.
      rewrite nth_slice in Hz by (done || nia).
      replace (k / sub * sub + k mod sub)%nat with k in Hz by lia.
      apply Hz. rewrite <- Hfz. f_equal. nia.
Qed.

(** ** A decode does not depend on what the tree held before *)

Lemma decode_children_eq (rec : list Z -> Generic_node Contents_MK_SC -> Generic_node Contents_MK_SC)
    l_curr kern_size sub_part : forall todo1 todo2 dn,
  Forall2 (fun c1 c2 => forall v, length v = sub_part -> rec v c1 = rec v c2) todo1 todo2 ->
  decode_children rec lambdas l_curr kern_size sub_part todo1 dn
  = decode_children rec lambdas l_curr kern_size sub_part todo2 dn.
Proof.
  intros todo1 todo2 dn H. revert dn.
  induction H as [|c1 c2 r1 r2 Hc _ IH]; intros dn; [reflexivity|].
  cbn [decode_children]. rewrite (Hc _ (child_llrs_length _ _ _ _ _ _)). apply IH.
Qed.

Lemma contents_eq (c1 c2 : Contents_MK_SC) :
  l c1 = l c2 -> s c1 = s c2 -> is_frozen_bit c1 = is_frozen_bit c2 ->
  stage c1 = stage c2 -> c1 = c2.
Proof. destruct c1, c2. cbn. by intros -> -> -> ->. Qed.

Lemma decode_node_history : forall lv lane n1 n2 v,
  (lv <= L)%nat -> wf lv lane n1 -> wf lv lane n2 -> skeleton n1 = skeleton n2 ->
  length v = (b ^ lv)%nat -> dec v n1 = dec v n2.
Proof.
  induction lv as [|lv IH]; intros lane n1 n2 v HL Hwf1 Hwf2 Hsk Hv.
  - destruct (wf_leaf_inv b frozen lane n1 Hwf1) as (c1 & x1 & y1 & -> & El1 & Es1 & Hf1).
    destruct (wf_leaf_inv b frozen lane n2 Hwf2) as (c2 & x2 & y2 & -> & El2 & Es2 & Hf2).
    rewrite !decode_node_leaf. cbn zeta. cbn in Hsk.
    assert (l (store_l v c1) = v) as E1 by (apply (store_l_full b M Hb HM); by rewrite El1).
    assert (l (store_l v c2) = v) as E2 by (apply (store_l_full b M Hb HM); by rewrite El2).
    f_equal. apply contents_eq; cbn [l s is_frozen_bit stage with_s store_l with_l].
    + cbn [l store_l with_l] in E1, E2. congruence.
    + rewrite Es1, Es2. cbn [l store_l with_l] in E1, E2.
      rewrite E1, E2, Hf1, Hf2. done.
    + congruence.
    + congruence.
  - destruct (wf_internal_inv b frozen M Hb HM lv lane n1 Hwf1)
      as (c1 & ch1 & -> & Hne1 & Hlen1 & Hl1 & Hs1 & Hst1 & HF1).
    destruct (wf_internal_inv b frozen M Hb HM lv lane n2 Hwf2)
      as (c2 & ch2 & -> & Hne2 & Hlen2 & Hl2 & Hs2 & Hst2 & HF2).
    cbn [skeleton] in Hsk. injection Hsk as Hfz Hstg Hch.
    rewrite (decode_node_internal stages Ke lambdas lane c1 ch1 v Hne1).
    rewrite (decode_node_internal stages Ke lambdas lane c2 ch2 v Hne2). cbn zeta.
    assert (l (store_l v c1) = v) as E1 by (apply (store_l_full b M Hb HM); lia).
    assert (l (store_l v c2) = v) as E2 by (apply (store_l_full b M Hb HM); lia).
    rewrite E1, E2, Hlen1, Hlen2, Hv, (pow_succ_div b M Hb HM).
    set (sub := (b ^ lv)%nat).
    assert (decode_children dec lambdas v b sub ch1 []
            = decode_children dec lambdas v b sub ch2 []) as Ech.
    { apply decode_children_eq.
      apply Forall2_same_length_lookup_2; [lia|].
      intros i x y Hx Hy u Hu.
      assert (i < b)%nat as Hi by (apply lookup_lt_Some in Hx; lia).
      pose proof (Forall2_lookup_lr _ _ _ _ _ _ HF1 (lookup_seq_lt _ _ _ Hi) Hx) as Hwx.
      pose proof (Forall2_lookup_lr _ _ _ _ _ _ HF2 (lookup_seq_lt _ _ _ Hi) Hy) as Hwy.
      apply (IH (lane * b + i)%nat); [lia|done|done| |done].
      apply (f_equal (fun l => l !! i)) in Hch.
      rewrite !list_lookup_fmap, Hx, Hy in Hch. cbn in Hch. congruence. }
    rewrite <- Ech.
    set (children' := decode_children dec lambdas v b sub ch1 []).
    assert (length children' = b) as Hlen'.
    { pose proof (decode_node_shape b frozen stages Ke lambdas M L Hb HM HKe (S lv) lane
                    (Node lane c1 ch1) v HL Hwf1 ltac:(lia)) as (Hwf' & _ & _).
      rewrite (decode_node_internal stages Ke lambdas lane c1 ch1 v Hne1) in Hwf'.
      cbn zeta in Hwf'. rewrite E1, Hlen1, Hv, (pow_succ_div b M Hb HM) in Hwf'.
      destruct Hwf' as (_ & _ & _ & _ & HF').
      apply Forall2_length in HF'. rewrite length_seq in HF'. done. }
    assert (b ^ S lv = b * sub)%nat as Epow by apply Nat.pow_succ_r'.
    rewrite !(reencode_spec' _ children' b sub)
      by (done || (cbn [s store_l with_l]; lia)).
    f_equal. apply contents_eq; cbn [l s is_frozen_bit stage with_s store_l with_l].
    + cbn [l store_l with_l] in E1, E2. congruence.
    + cbn [stage store_l with_l]. by rewrite Hstg.
    + done.
    + done.
Qed.

Lemma decode_children_skeleton
    (rec : list Z -> Generic_node Contents_MK_SC -> Generic_node Contents_MK_SC)
    l_curr kern_size sub_part : forall todo dn,
  Forall (fun c => forall v, length v = sub_part -> skeleton (rec v c) = skeleton c) todo ->
  List.map skeleton (decode_children rec lambdas l_curr kern_size sub_part todo dn)
  = List.map skeleton dn ++ List.map skeleton todo.
Proof.
  induction todo as [|c todo IH]; intros dn H.
  - cbn. by rewrite app_nil_r.
  - apply Forall_cons in H as [Hc H]. cbn [decode_children].
    rewrite IH by done. rewrite map_app, <- app_assoc. cbn [List.map app].
    by rewrite (Hc _ (child_llrs_length _ _ _ _ _ _)).
Qed.

Lemma decode_node_skeleton : forall lv lane n v,
  (lv <= L)%nat -> wf lv lane n -> (length v <= b ^ lv)%nat ->
  skeleton (dec v n) = skeleton n.
Proof.
  induction lv as [|lv IH]; intros lane n v HL Hwf Hv.
  - destruct (wf_leaf_inv b frozen lane n Hwf) as (c & x & y & -> & El & Es & Hf).
    rewrite decode_node_leaf. done.
  - destruct (wf_internal_inv b frozen M Hb HM lv lane n Hwf)
      as (c & ch & -> & Hne & Hlen & Hl & Hs & Hst & HF).
    rewrite (decode_node_internal stages Ke lambdas lane c ch v Hne). cbn zeta.
    cbn [skeleton is_frozen_bit stage with_s store_l with_l]. f_equal.
    assert (length (l (store_l v c)) = (b ^ S lv)%nat) as Hl'
      by (rewrite (store_l_length b M Hb HM); lia).
    rewrite Hl', Hlen, (pow_succ_div b M Hb HM).
    rewrite decode_children_skeleton; [done|].
    eapply Forall2_Forall_any; [exact HF|].
    intros j c' Hc' u Hu. apply (IH (lane * b + j)%nat); [lia|done|lia].
Qed.

End DecodeAny.


Section TreeRecursion.

Import PolarMK.

(** Induction on a tree node with the property at hand for all the
    children. *)
Lemma Generic_node_ind' {T : Type} (P : Generic_node T -> Prop) :
  (forall lane c children, Forall P children -> P (Node lane c children)) ->
  forall n, P n.
Proof.
  intros H. fix IH 1. intros [lane c children]. apply H.
  induction children as [|c0 cs IHcs]; constructor; [apply IH|exact IHcs].
Qed.

Lemma map_eq_through {A B C} (sk : A -> B) (f : A -> C) : forall xs ys,
  Forall (fun x => forall y, sk x = sk y -> f x = f y) xs ->
  List.map sk xs = List.map sk ys -> List.map f xs = List.map f ys.
Proof.
  induction xs as [|x xs IH]; intros [|y ys] H E; try discriminate E; [done|].
  apply Forall_cons in H as [Hx H]. injection E as Exy E. cbn.
  f_equal; [by apply Hx|by apply IH].
Qed.

Lemma initialize_twice (fb fb' : list bool) : forall n,
  recursive_initialize_frozen_bits (recursive_initialize_frozen_bits n fb) fb'
  = recursive_initialize_frozen_bits n fb'.
Proof.
  induction n as [lane c children IH] using Generic_node_ind'.
  destruct (decide (children = [])) as [->|Hne]; [by destruct c|].
  rewrite !(initialize_internal _ lane c children) by done.
  rewrite initialize_internal by (by destruct children).
  f_equal. rewrite List.map_map. apply map_ext_Forall. exact IH.
Qed.

Lemma initialize_skeleton (fb : list bool) : forall n1 n2,
  skeleton n1 = skeleton n2 ->
  skeleton (recursive_initialize_frozen_bits n1 fb)
  = skeleton (recursive_initialize_frozen_bits n2 fb).
Proof.
  induction n1 as [lane1 c1 ch1 IH] using Generic_node_ind'.
  intros [lane2 c2 ch2] E. cbn [skeleton] in E. injection E as -> Ef Es Ech.
  destruct ch1 as [|x1 r1], ch2 as [|x2 r2]; try discriminate Ech.
  - cbn. by rewrite Es.
  - rewrite !initialize_internal by done. cbn [skeleton]. rewrite Ef, Es. f_equal.
    rewrite !List.map_map. by apply (map_eq_through skeleton).
Qed.

Lemma initialize_wf (b : nat) (fb fb' : list bool) : forall lv lane n,
  wf_node b fb lv lane n ->
  wf_node b fb' lv lane (recursive_initialize_frozen_bits n fb').
Proof.
  induction lv as [|lv IH]; intros lane [lane' c children].
  - cbn. intros (-> & -> & ? & ? & _). done.
  - cbn [wf_node get_lane_id get_c get_children]. intros (-> & Hl & Hs & Hst & HF).
    destruct children as [|c0 cs].
    + cbn. split_and!; try done. apply Forall2_nil_inv_r in HF. by rewrite HF.
    + rewrite initialize_internal by done.
      cbn [get_lane_id get_c get_children]. split_and!; try done.
      apply Forall2_fmap_r. eapply Forall2_impl; [exact HF|]. intros j c'. apply IH.
Qed.

Lemma deallocate_skeleton : forall n1 n2,
  skeleton n1 = skeleton n2 ->
  recursive_deallocate_nodes_contents n1 = recursive_deallocate_nodes_contents n2.
Proof.
  induction n1 as [lane1 c1 ch1 IH] using Generic_node_ind'.
  intros [lane2 c2 ch2] E. cbn [skeleton] in E. injection E as -> _ _ Ech.
  cbn [recursive_deallocate_nodes_contents]. f_equal.
  by apply (map_eq_through skeleton).
Qed.

Lemma deallocate_initialize (fb : list bool) : forall n,
  recursive_deallocate_nodes_contents (recursive_initialize_frozen_bits n fb)
  = recursive_deallocate_nodes_contents n.
Proof.
  induction n as [lane c children IH] using Generic_node_ind'.
  destruct children as [|c0 cs]; [done|].
  rewrite initialize_internal by done. cbn [recursive_deallocate_nodes_contents].
  f_equal. rewrite List.map_map. apply map_ext_Forall. exact IH.
Qed.

Lemma deallocate_allocate (code : Polar_code) : forall t father_stage vector_size,
  recursive_deallocate_nodes_contents
    (recursive_allocate_nodes_contents code father_stage t vector_size) = t.
Proof.
  induction t as [lane [] children IH] using Generic_node_ind'.
  intros fs sz. cbn [recursive_allocate_nodes_contents recursive_deallocate_nodes_contents].
  f_equal. rewrite List.map_map. rewrite <- (map_id children) at 2.
  apply map_ext_Forall. eapply Forall_impl; [exact IH|]. intros c Hc. apply Hc.
Qed.

End TreeRecursion.

Section PolarCalls.

Import PolarMK.

Lemma decode_siho_unfold d Y V :
  _decode_siho d Y V
  = (with_tree d (decoded_tree_of d Y),
     fst (recursive_store (frozen_bits d) (decoded_tree_of d Y) V 0)).
Proof.
  unfold _decode_siho, _store, _load, recursive_decode, decoded_tree_of.
  destruct d as [K0 N0 nf cd0 fb [lane c children] Ke0 lam].
  cbn [polar_tree with_tree code Ke lambdas frozen_bits N K n_frames negb].
  by rewrite decode_node_loaded.
Qed.

Lemma decode_siho_cw_unfold d Y V :
  _decode_siho_cw d Y V
  = (with_tree d (decoded_tree_of d Y),
     DecoderI.copy_to (take (Z.to_nat (N d)) (s (get_c (decoded_tree_of d Y)))) V 0).
Proof.
  unfold _decode_siho_cw, _store, _load, recursive_decode, decoded_tree_of.
  destruct d as [K0 N0 nf cd0 fb [lane c children] Ke0 lam].
  cbn [polar_tree with_tree code Ke lambdas frozen_bits N K n_frames negb].
  by rewrite decode_node_loaded.
Qed.

Lemma info_bits_length : forall (fb pre : list bool) (u : list Z),
  length u = length fb ->
  length (info_bits (pre ++ fb) (length pre) u) = length (List.filter negb fb).
Proof.
  induction fb as [|f fb IH]; intros pre u Hlen.
  - by destruct u.
  - destruct u as [|x u]; [discriminate|].
    assert (nth (length pre) (pre ++ f :: fb) false = f) as Enth
      by (by rewrite app_nth2, Nat.sub_diag by lia).
    assert (pre ++ f :: fb = (pre ++ [f]) ++ fb) as Eapp by (by rewrite <- app_assoc).
    assert (S (length pre) = length (pre ++ [f])) as ES
      by (rewrite length_app; simpl; lia).
    cbn [info_bits]. rewrite Enth, Eapp, ES.
    destruct f; cbn [List.filter negb length]; rewrite IH by (simpl in Hlen; lia); done.
Qed.

Lemma info_bits_Forall (P : Z -> Prop) (fb : list bool) : forall (u : list Z) start,
  Forall P u -> Forall P (info_bits fb start u).
Proof.
  induction u as [|x u IH]; intros start H; [constructor|].
  apply Forall_cons in H as [Hx H]. cbn [info_bits].
  destruct (nth start fb false); [by apply IH|constructor; [done|by apply IH]].
Qed.

Lemma place_info_bits_inv : forall (fb pre : list bool) (u : list Z),
  length u = length fb ->
  (forall k, (k < length fb)%nat -> nth k fb false = true -> nth k u 0 = 0) ->
  place_info fb (info_bits (pre ++ fb) (length pre) u) = u.
Proof.
  induction fb as [|f fb IH]; intros pre u Hlen Hz.
  - by destruct u.
  - destruct u as [|x u]; [discriminate|].
    assert (nth (length pre) (pre ++ f :: fb) false = f) as Enth
      by (by rewrite app_nth2, Nat.sub_diag by lia).
    assert (pre ++ f :: fb = (pre ++ [f]) ++ fb) as Eapp by (by rewrite <- app_assoc).
    assert (S (length pre) = length (pre ++ [f])) as ES
      by (rewrite length_app; simpl; lia).
    assert (place_info fb (info_bits ((pre ++ [f]) ++ fb) (length (pre ++ [f])) u) = u) as E.
    { apply IH; [simpl in Hlen; lia|].
      intros k Hk Hf. apply (Hz (S k)); [simpl; lia|done]. }
    cbn [info_bits]. rewrite Enth, Eapp, ES.
    destruct f; cbn [place_info].
    + rewrite E. f_equal. symmetry. apply (Hz O); [simpl; lia|done].
    + by rewrite E.
Qed.

(** What any decode call on a constructed decoder leaves in the tree. *)
Lemma constructed_decode K0 N0 cd fb nf d Y :
  mono_kernel_code cd ->
  Decoder_polar_MK_SC_naive_new K0 N0 cd fb nf = Constructed d ->
  let M := nth 0 (get_kernel_matrices cd) [] in
  let L := length (get_stages cd) in
  let t := decoded_tree_of d Y in
  wf_node (length M) fb L 0 t
  /\ s (get_c t) = polar_transform (Ke_of M) (length M) L (leaves_s t)
  /\ Forall is_bit (leaves_s t)
  /\ length (leaves_s t) = length fb
  /\ (forall k, (k < length fb)%nat -> nth k fb false = true -> nth k (leaves_s t) 0 = 0)
  /\ skeleton t = skeleton (polar_tree d).
Proof.
  intros Hmono E.
  destruct (constructed_decoder K0 N0 cd fb nf d Hmono E)
    as (Hr & HN & Hfb & HK & Ec & Ef & EN & EK & El & Hwf & HKe).
  pose proof (recognized_size _ Hr) as Hsz.
  cbn zeta. unfold decoded_tree_of. rewrite Ec, El, EN.
  set (M := nth 0 (get_kernel_matrices cd) []) in *.
  set (L := length (get_stages cd)) in *.
  assert (length (take (Z.to_nat N0) Y) <= length M ^ L)%nat as Hv
    by (rewrite length_take; lia).
  assert (0 < length M)%nat as Hb by lia.
  destruct (decode_node_shape (length M) fb (get_stages cd) (Ke d) (lambdas_of M) M L
              Hb eq_refl HKe L 0%nat (polar_tree d) _ (Nat.le_refl _) Hwf Hv)
    as (Hwf' & _ & _).
  destruct (decode_node_codeword (length M) fb (get_stages cd) (Ke d) (lambdas_of M) M L
              Hb eq_refl HKe L 0%nat (polar_tree d) _ (Nat.le_refl _) Hwf Hv)
    as (Hs & Hbits & Hz).
  split_and!; try done.
  - rewrite (leaves_length (length M) fb Hb L 0%nat) by done. done.
  - intros k Hk Hf. apply Hz; [lia|]. by rewrite Nat.mul_0_l.
  - eapply decode_node_skeleton with (M := M) (b := length M) (lv := L) (frozen := fb); eauto.
Qed.

End PolarCalls.

(** X12.  Whatever LLRs it is given, [_decode_siho] on a constructed decoder
    writes exactly [K] entries at the front of the output buffer, each of
    them 0 or 1; the length of the buffer and its entries from [K] on are
    as they were. *)
Theorem decode_siho_writes_K_bits (K N : Z) (code : PolarMK.Polar_code) (fb : list bool)
    (nf : Z) (d : PolarMK.Decoder_polar_MK_SC_naive) (Y V : list Z) :
  PolarMK.mono_kernel_code code ->
  PolarMK.Decoder_polar_MK_SC_naive_new K N code fb nf = PolarMK.Constructed d ->
  (Z.to_nat N <= length Y)%nat -> (Z.to_nat K <= length V)%nat ->
  let out := snd (PolarMK._decode_siho d Y V) in
  length out = length V
  /\ Forall PolarMK.is_bit (take (Z.to_nat K) out)
  /\ drop (Z.to_nat K) out = drop (Z.to_nat K) V.
Proof.
  intros Hmono E HY HV.
  destruct (constructed_decoder K N code fb nf d Hmono E)
    as (Hr & HN & Hfb & HK & Ec & Ef & EN & EK & El & Hwf & HKe).
  destruct (constructed_decode K N code fb nf d Y Hmono E)
    as (Hwf' & Hs & Hbits & Hlen & Hz & Hsk).
  pose proof (recognized_size _ Hr) as Hsz.
  cbn zeta. rewrite decode_siho_unfold. cbn [snd]. rewrite Ef.
  set (t := PolarMK.decoded_tree_of d Y) in *.
  set (info := PolarMK.info_bits fb 0 (PolarMK.leaves_s t)).
  assert (length info = Z.to_nat K) as Hinfo.
  { unfold info. pose proof (info_bits_length fb [] _ Hlen) as Hi. cbn in Hi.
    rewrite Hi, HK. unfold PolarMK.zero_count. lia. }
  pose proof (recursive_store_spec (length (nth 0 (PolarMK.get_kernel_matrices code) [])) fb
                ltac:(lia) _ 0%nat t V 0%nat Hwf') as Hst.
  cbn zeta in Hst. rewrite Nat.mul_0_l in Hst. fold info in Hst.
  rewrite Hst by lia. cbn [fst plus]. rewrite take_0, app_nil_l.
  split_and!.
  - rewrite length_app, length_drop. lia.
  - rewrite <- Hinfo, take_app_length. by apply info_bits_Forall.
  - by rewrite <- Hinfo, drop_app_length.
Qed.

Lemma decode_siho_writes_K_bits_witness :
  exists d,
    PolarMK.Decoder_polar_MK_SC_naive_new 4 8 (PolarMK.mono_code PolarMK.kernel_arikan 3)
      [true; true; true; false; true; false; false; false] 1 = PolarMK.Constructed d
    /\ snd (PolarMK._decode_siho d [-7; 2; -3; 4; 5; -6; 1; -8] [9; 9; 9; 9; 9; 9])
       = [1; 0; 1; 1; 9; 9]
    /\ drop 4 (snd (PolarMK._decode_siho d [-7; 2; -3; 4; 5; -6; 1; -8] [9; 9; 9; 9; 9; 9]))
       = [9; 9].
Proof.
  eexists. split; [reflexivity|]. split; [vm_compute; reflexivity|].
  refine (proj2 (proj2 (decode_siho_writes_K_bits 4 8
                   (PolarMK.mono_code PolarMK.kernel_arikan 3)
                   [true; true; true; false; true; false; false; false] 1 _
                   [-7; 2; -3; 4; 5; -6; 1; -8] [9; 9; 9; 9; 9; 9]
                   (mono_code_is_mono _ _) eq_refl _ _))); simpl; lia.
Defined.


(** X13.  Whatever LLRs it is given, the codeword that [_decode_siho_cw]
    writes is the encoding of the information bits that [_decode_siho]
    writes for the same LLRs: the decoder's two outputs are consistent,
    and the codeword output is always a codeword of the code. *)
Theorem decode_siho_cw_encodes_decision (K N : Z) (code : PolarMK.Polar_code)
    (fb : list bool) (nf : Z) (d : PolarMK.Decoder_polar_MK_SC_naive)
    (Y V_K V_N : list Z) :
  PolarMK.mono_kernel_code code ->
  PolarMK.Decoder_polar_MK_SC_naive_new K N code fb nf = PolarMK.Constructed d ->
  (Z.to_nat N <= length Y)%nat ->
  (Z.to_nat K <= length V_K)%nat -> (Z.to_nat N <= length V_N)%nat ->
  snd (PolarMK._decode_siho_cw d Y V_N)
  = PolarMK.encode d (take (Z.to_nat K) (snd (PolarMK._decode_siho d Y V_K)))
    ++ drop (Z.to_nat N) V_N
  /\ Forall PolarMK.is_bit (take (Z.to_nat N) (snd (PolarMK._decode_siho_cw d Y V_N))).
Proof.
  intros Hmono E HY HVK HVN.
  destruct (constructed_decoder K N code fb nf d Hmono E)
    as (Hr & HN & Hfb & HK & Ec & Ef & EN & EK & El & Hwf & HKe).
  destruct (constructed_decode K N code fb nf d Y Hmono E)
    as (Hwf' & Hs & Hbits & Hlen & Hz & Hsk).
  pose proof (recognized_size _ Hr) as Hsz.
  apply constructor_inv in E as (_ & _ & Ed).
  rewrite decode_siho_unfold, decode_siho_cw_unfold. cbn [snd]. rewrite Ef, EN.
  set (t := PolarMK.decoded_tree_of d Y) in *.
  set (M := nth 0 (PolarMK.get_kernel_matrices code) []) in *.
  set (L := length (PolarMK.get_stages code)) in *.
  set (info := PolarMK.info_bits fb 0 (PolarMK.leaves_s t)).
  assert (length info = Z.to_nat K) as Hinfo.
  { unfold info. pose proof (info_bits_length fb [] _ Hlen) as Hi. cbn in Hi.
    rewrite Hi, HK. unfold PolarMK.zero_count. lia. }
  pose proof (recursive_store_spec (length M) fb ltac:(lia) _ 0%nat t V_K 0%nat Hwf') as Hst.
  cbn zeta in Hst. rewrite Nat.mul_0_l in Hst. fold info in Hst.
  rewrite Hst by lia. cbn [fst plus]. rewrite take_0, app_nil_l.
  rewrite <- Hinfo, take_app_length.
  assert (PolarMK.encode d info = PolarMK.s (PolarMK.get_c t)) as Eenc.
  { unfold PolarMK.encode. rewrite Ec, Ef. rewrite Ed at 1. cbn [PolarMK.Ke].
    rewrite Ke_first. fold M L. rewrite Hs. f_equal.
    apply (place_info_bits_inv fb []); done. }
  assert (length (PolarMK.s (PolarMK.get_c t)) = Z.to_nat N) as Hls.
  { rewrite Hs. rewrite (polar_transform_length (length M) M L); [lia|].
    rewrite Hlen. lia. }
  rewrite Eenc. unfold DecoderI.copy_to.
  rewrite take_0, app_nil_l, take_ge by lia. cbn [plus]. rewrite Hls.
  split; [done|].
  rewrite <- Hls, take_app_length, Hs. apply polar_transform_bits; (done || lia).
Qed.

Lemma decode_siho_cw_encodes_decision_witness :
  exists d,
    PolarMK.Decoder_polar_MK_SC_naive_new 4 8 (PolarMK.mono_code PolarMK.kernel_arikan 3)
      [true; true; true; false; true; false; false; false] 1 = PolarMK.Constructed d
    /\ snd (PolarMK._decode_siho_cw d [-7; 2; -3; 4; 5; -6; 1; -8] [9; 9; 9; 9; 9; 9; 9; 9; 9])
       = PolarMK.encode d [1; 0; 1; 1] ++ [9].
Proof.
  eexists. split; [reflexivity|].
  refine (proj1 (decode_siho_cw_encodes_decision 4 8
                   (PolarMK.mono_code PolarMK.kernel_arikan 3)
                   [true; true; true; false; true; false; false; false] 1 _
                   [-7; 2; -3; 4; 5; -6; 1; -8] [9; 9; 9; 9] [9; 9; 9; 9; 9; 9; 9; 9; 9]
                   (mono_code_is_mono _ _) eq_refl _ _ _)); simpl; lia.
Defined.

(** X14.  A decode does not depend on the frames decoded before: on a
    decoder that has already decoded some frame, [_decode_siho] and
    [_decode_siho_cw] leave the same decoder and write the same output as
    on the decoder as constructed. *)
Theorem decode_independent_of_history (K N : Z) (code : PolarMK.Polar_code)
    (fb : list bool) (nf : Z) (d : PolarMK.Decoder_polar_MK_SC_naive)
    (Y1 V1 Y V : list Z) :
  PolarMK.mono_kernel_code code ->
  PolarMK.Decoder_polar_MK_SC_naive_new K N code fb nf = PolarMK.Constructed d ->
  (Z.to_nat N <= length Y1)%nat -> (Z.to_nat N <= length Y)%nat ->
  let d1 := fst (PolarMK._decode_siho d Y1 V1) in
  PolarMK._decode_siho d1 Y V = PolarMK._decode_siho d Y V
  /\ PolarMK._decode_siho_cw d1 Y V = PolarMK._decode_siho_cw d Y V
  /\ fst (PolarMK._decode_siho_cw d Y1 V1) = d1.
Proof.
  intros Hmono E HY1 HY.
  destruct (constructed_decoder K N code fb nf d Hmono E)
    as (Hr & HN & Hfb & HK & Ec & Ef & EN & EK & El & Hwf & HKe).
  destruct (constructed_decode K N code fb nf d Y1 Hmono E)
    as (Hwf1 & _ & _ & _ & _ & Hsk).
  pose proof (recognized_size _ Hr) as Hsz.
  cbn zeta. rewrite !decode_siho_unfold, !decode_siho_cw_unfold. cbn [fst].
  set (t1 := PolarMK.decoded_tree_of d Y1) in *.
  assert (PolarMK.decoded_tree_of (PolarMK.with_tree d t1) Y = PolarMK.decoded_tree_of d Y)
    as Et.
  { unfold PolarMK.decoded_tree_of.
    cbn [PolarMK.with_tree PolarMK.code PolarMK.Ke PolarMK.lambdas PolarMK.N
         PolarMK.polar_tree].
    rewrite Ec, El, EN.
    eapply decode_node_history
      with (M := nth 0 (PolarMK.get_kernel_matrices code) []) (frozen := fb)
           (b := length (nth 0 (PolarMK.get_kernel_matrices code) []))
           (L := length (PolarMK.get_stages code)) (lane := 0%nat); eauto; try lia.
    rewrite length_take. lia. }
  rewrite Et. done.
Qed.

Lemma decode_independent_of_history_witness :
  exists d,
    PolarMK.Decoder_polar_MK_SC_naive_new 4 8 (PolarMK.mono_code PolarMK.kernel_arikan 3)
      [true; true; true; false; true; false; false; false] 1 = PolarMK.Constructed d
    /\ PolarMK._decode_siho
         (fst (PolarMK._decode_siho d [1; 1; -1; 1; -1; -1; -1; 1] [0; 0; 0; 0]))
         [-7; 2; -3; 4; 5; -6; 1; -8] [9; 9; 9; 9]
       = PolarMK._decode_siho d [-7; 2; -3; 4; 5; -6; 1; -8] [9; 9; 9; 9].
Proof.
  eexists. split; [reflexivity|].
  refine (proj1 (decode_independent_of_history 4 8
                   (PolarMK.mono_code PolarMK.kernel_arikan 3)
                   [true; true; true; false; true; false; false; false] 1 _
                   [1; 1; -1; 1; -1; -1; -1; 1] [0; 0; 0; 0]
                   [-7; 2; -3; 4; 5; -6; 1; -8] [9; 9; 9; 9]
                   (mono_code_is_mono _ _) eq_refl _ _)); simpl; lia.
Defined.



(** X16.  Changing the mask and calling [notify_frozenbits_update] is as
    good as constructing a new decoder: after the update, also on a decoder
    that has decoded before, both decode calls write the output that a
    decoder constructed for the new mask writes.  The update of a fresh
    decoder leaves exactly the tree of the new decoder. *)
Theorem frozen_bits_update_as_new_decoder (K K' N : Z) (code : PolarMK.Polar_code)
    (fb fb' : list bool) (nf : Z) (d d' : PolarMK.Decoder_polar_MK_SC_naive)
    (Y1 V1 Y V : list Z) :
  PolarMK.mono_kernel_code code ->
  PolarMK.Decoder_polar_MK_SC_naive_new K N code fb nf = PolarMK.Constructed d ->
  PolarMK.Decoder_polar_MK_SC_naive_new K' N code fb' nf = PolarMK.Constructed d' ->
  (Z.to_nat N <= length Y1)%nat -> (Z.to_nat N <= length Y)%nat ->
  let d2 := PolarMK.update_frozen_bits (fst (PolarMK._decode_siho d Y1 V1)) fb' in
  snd (PolarMK._decode_siho d2 Y V) = snd (PolarMK._decode_siho d' Y V)
  /\ snd (PolarMK._decode_siho_cw d2 Y V) = snd (PolarMK._decode_siho_cw d' Y V)
  /\ PolarMK.polar_tree (fst (PolarMK._decode_siho d2 Y V))
     = PolarMK.polar_tree (fst (PolarMK._decode_siho d' Y V))
  /\ PolarMK.polar_tree (PolarMK.update_frozen_bits d fb') = PolarMK.polar_tree d'.
Proof.
  intros Hmono E E' HY1 HY.
  destruct (constructed_decoder K N code fb nf d Hmono E)
    as (Hr & HN & Hfb & HK & Ec & Ef & EN & EK & El & Hwf & HKe).
  destruct (constructed_decoder K' N code fb' nf d' Hmono E')
    as (_ & _ & Hfb' & HK' & Ec' & Ef' & EN' & EK' & El' & Hwf' & HKe').
  destruct (constructed_decode K N code fb nf d Y1 Hmono E)
    as (Hwf1 & _ & _ & _ & _ & Hsk).
  pose proof (recognized_size _ Hr) as Hsz.
  apply constructor_inv in E as (_ & _ & Ed).
  apply constructor_inv in E' as (_ & _ & Ed').
  assert (PolarMK.polar_tree d' = PolarMK.recursive_initialize_frozen_bits
                                    (PolarMK.polar_tree d) fb') as Et'.
  { rewrite Ed, Ed'. cbn [PolarMK.polar_tree]. unfold PolarMK.built_tree.
    by rewrite initialize_twice. }
  assert (PolarMK.Ke d' = PolarMK.Ke d) as EKe by (by rewrite Ed, Ed').
  cbn zeta. rewrite !decode_siho_unfold, !decode_siho_cw_unfold. cbn [fst snd].
  set (t1 := PolarMK.decoded_tree_of d Y1) in *.
  set (d2 := PolarMK.update_frozen_bits (PolarMK.with_tree d t1) fb').
  assert (PolarMK.frozen_bits d2 = fb') as Ef2 by reflexivity.
  assert (PolarMK.N d2 = N) as EN2 by (by rewrite <- EN).
  assert (PolarMK.decoded_tree_of d2 Y = PolarMK.decoded_tree_of d' Y) as Et.
  { unfold PolarMK.decoded_tree_of, d2, PolarMK.update_frozen_bits,
      PolarMK.notify_frozenbits_update.
    cbn [PolarMK.with_tree PolarMK.with_frozen_bits PolarMK.code PolarMK.Ke
         PolarMK.lambdas PolarMK.N PolarMK.polar_tree PolarMK.frozen_bits].
    rewrite Ec, Ec', El, El', EN, EN', EKe, Et'.
    eapply decode_node_history
      with (M := nth 0 (PolarMK.get_kernel_matrices code) []) (frozen := fb')
           (b := length (nth 0 (PolarMK.get_kernel_matrices code) []))
           (L := length (PolarMK.get_stages code)) (lane := 0%nat); eauto; try lia.
    - by apply initialize_wf with (fb := fb).
    - by apply initialize_wf with (fb := fb).
    - by apply initialize_skeleton.
    - rewrite length_take. lia. }
  rewrite Et, Ef2, Ef', EN2, EN'. by split_and!.
Qed.

Lemma frozen_bits_update_as_new_decoder_witness :
  exists d d',
    PolarMK.Decoder_polar_MK_SC_naive_new 4 8 (PolarMK.mono_code PolarMK.kernel_arikan 3)
      [true; true; true; false; true; false; false; false] 1 = PolarMK.Constructed d
    /\ PolarMK.Decoder_polar_MK_SC_naive_new 5 8 (PolarMK.mono_code PolarMK.kernel_arikan 3)
         [true; true; false; false; true; false; false; false] 1 = PolarMK.Constructed d'
    /\ snd (PolarMK._decode_siho
              (PolarMK.update_frozen_bits
                 (fst (PolarMK._decode_siho d [1; 1; -1; 1; -1; -1; -1; 1] [0; 0; 0; 0]))
                 [true; true; false; false; true; false; false; false])
              [-7; 2; -3; 4; 5; -6; 1; -8] [9; 9; 9; 9; 9])
       = snd (PolarMK._decode_siho d' [-7; 2; -3; 4; 5; -6; 1; -8] [9; 9; 9; 9; 9]).
Proof.
  eexists. eexists. split; [reflexivity|]. split; [reflexivity|].
  refine (proj1 (frozen_bits_update_as_new_decoder 4 5 8
                   (PolarMK.mono_code PolarMK.kernel_arikan 3)
                   [true; true; true; false; true; false; false; false]
                   [true; true; false; false; true; false; false; false] 1 _ _
                   [1; 1; -1; 1; -1; -1; -1; 1] [0; 0; 0; 0]
                   [-7; 2; -3; 4; 5; -6; 1; -8] [9; 9; 9; 9; 9]
                   (mono_code_is_mono _ _) eq_refl eq_refl _ _)); simpl; lia.
Defined.

Lemma contents_length_skeleton : forall n1 n2 : PolarMK.Generic_node PolarMK.Contents_MK_SC,
  PolarMK.skeleton n1 = PolarMK.skeleton n2 ->
  length (PolarMK.contents_of n1) = length (PolarMK.contents_of n2).
Proof.
  induction n1 as [lane1 c1 ch1 IH] using Generic_node_ind'.
  intros [lane2 c2 ch2] E. cbn [PolarMK.skeleton] in E. injection E as _ _ _ Ech.
  cbn [PolarMK.contents_of]. rewrite !length_app. f_equal.
  rewrite !length_concat, !List.map_map. f_equal.
  by apply (map_eq_through PolarMK.skeleton).
Qed.

(** X17.  The destructor's [recursive_deallocate_nodes_contents] takes the
    tree of a constructed decoder back to the bare tree that
    [Generic_tree] built, also after a decode: a decode keeps the shape of
    the tree and creates no contents object. *)
Theorem deallocate_restores_bare_tree (K N : Z) (code : PolarMK.Polar_code)
    (fb : list bool) (nf : Z) (d : PolarMK.Decoder_polar_MK_SC_naive) (Y V : list Z) :
  PolarMK.mono_kernel_code code ->
  PolarMK.Decoder_polar_MK_SC_naive_new K N code fb nf = PolarMK.Constructed d ->
  (Z.to_nat N <= length Y)%nat ->
  let bare := PolarMK.Generic_tree_new (length (PolarMK.get_stages code) + 1)
                (length (nth 0 (PolarMK.get_kernel_matrices code) [])) in
  let d1 := fst (PolarMK._decode_siho d Y V) in
  PolarMK.recursive_deallocate_nodes_contents (PolarMK.polar_tree d) = bare
  /\ PolarMK.recursive_deallocate_nodes_contents (PolarMK.polar_tree d1) = bare
  /\ length (PolarMK.contents_of (PolarMK.polar_tree d1))
     = length (PolarMK.contents_of (PolarMK.polar_tree d)).
Proof.
  intros Hmono E HY.
  destruct (constructed_decode K N code fb nf d Y Hmono E)
    as (_ & _ & _ & _ & _ & Hsk).
  apply constructor_inv in E as (_ & _ & Ed).
  cbn zeta. rewrite decode_siho_unfold. cbn [fst PolarMK.polar_tree PolarMK.with_tree].
  assert (PolarMK.recursive_deallocate_nodes_contents (PolarMK.polar_tree d)
          = PolarMK.Generic_tree_new (length (PolarMK.get_stages code) + 1)
              (length (nth 0 (PolarMK.get_kernel_matrices code) []))) as Eb.
  { rewrite Ed. cbn [PolarMK.polar_tree]. unfold PolarMK.built_tree.
    by rewrite deallocate_initialize, deallocate_allocate. }
  split_and!; [done| |].
  - rewrite <- Eb. by apply deallocate_skeleton.
  - by apply contents_length_skeleton.
Qed.

Lemma deallocate_restores_bare_tree_witness :
  exists d,
    PolarMK.Decoder_polar_MK_SC_naive_new 1 2 (PolarMK.mono_code PolarMK.kernel_arikan 1)
      [true; false] 1 = PolarMK.Constructed d
    /\ PolarMK.recursive_deallocate_nodes_contents
         (PolarMK.polar_tree (fst (PolarMK._decode_siho d [-7; 2] [9])))
       = PolarMK.Node 0 tt [PolarMK.Node 0 tt []; PolarMK.Node 1 tt []].
Proof.
  eexists. split; [reflexivity|].
  refine (proj1 (proj2 (deallocate_restores_bare_tree 1 2
                   (PolarMK.mono_code PolarMK.kernel_arikan 1) [true; false] 1 _
                   [-7; 2] [9] (mono_code_is_mono _ _) eq_refl _))); simpl; lia.
Defined.





Section ScaleFacts.

Import PolarMK.

Variable c : Z.
Hypothesis Hc : 0 < c.

Lemma signbit_scale x : signbit (c * x) = signbit x.
Proof.
  unfold signbit. destruct (Z.ltb_spec x 0), (Z.ltb_spec (c * x) 0); try done; nia.
Qed.

Lemma abs_scale x : Z.abs (c * x) = c * Z.abs x.
Proof. rewrite Z.abs_mul, (Z.abs_eq c) by lia. done. Qed.

Lemma min_scale x y : Z.min (c * x) (c * y) = c * Z.min x y.
Proof. apply Z.mul_min_distr_nonneg_l. lia. Qed.

Lemma signed_scale (sg : bool) x : (if sg then - (c * x) else c * x) = c * (if sg then - x else x).
Proof. destruct sg; lia. Qed.

Lemma nth_scale (v : list Z) i : nth i (List.map (Z.mul c) v) 0 = c * nth i v 0.
Proof.
  rewrite <- (Z.mul_0_r c) at 1. apply (map_nth (Z.mul c)).
Qed.

Lemma signed_scale' (sg : bool) x :
  (if sg then c * x else - (c * x)) = c * (if sg then x else - x).
Proof. destruct sg; lia. Qed.

Ltac scale_tac :=
  cbn beta zeta;
  repeat first [ rewrite nth_scale | rewrite signed_scale | rewrite signed_scale'
               | rewrite signbit_scale | rewrite abs_scale | rewrite min_scale ];
  ring.

(** The combine functions commute with a positive scaling of the LLRs. *)
Lemma scales_recognized M :
  recognized M ->
  forall j LLRs bits,
    nth j (lambdas_of M) (fun _ _ => 0) (List.map (Z.mul c) LLRs) bits
    = c * nth j (lambdas_of M) (fun _ _ => 0) LLRs bits.
Proof.
  intros Hr j LLRs bits.
  destruct (lambdas_of_recognized M Hr) as [[_ ->]|[[_ ->]|[_ ->]]].
  - destruct j as [|[|[|j]]]; cbn [nth lambdas_arikan]; scale_tac.
  - destruct j as [|[|[|[|j]]]]; cbn [nth lambdas_t1]; scale_tac.
  - destruct j as [|[|[|[|j]]]]; cbn [nth lambdas_t2]; scale_tac.
Qed.

End ScaleFacts.

Section DecodeScaled.

Import PolarMK.

Variables (b : nat) (frozen : list bool).
Variables (stages : list nat) (Ke : list (list Z)) (lambdas : list lambda).
Variables (M : list (list bool)) (L : nat).
Hypothesis Hb : (0 < b)%nat.
Hypothesis HM : length M = b.
Hypothesis HKe : forall st, (st < L)%nat -> nth (nth st stages O) Ke [] = Ke_of M.

Variable c : Z.
Hypothesis Hc : 0 < c.
Hypothesis Hlam : forall j LLRs bits,
  nth j lambdas (fun _ _ => 0) (List.map (Z.mul c) LLRs) bits
  = c * nth j lambdas (fun _ _ => 0) LLRs bits.

Local Abbreviation dec := (decode_node stages Ke lambdas).
Local Abbreviation wf := (wf_node b frozen).

Lemma scale_s (n : Generic_node Contents_MK_SC) : s (get_c (scale_llrs c n)) = s (get_c n).
Proof. by destruct n. Qed.

Lemma child_llrs_scaled v kern_size sub_part j (dn : list (Generic_node Contents_MK_SC)) :
  child_llrs lambdas (List.map (Z.mul c) v) kern_size sub_part j
             (List.map (scale_llrs c) dn)
  = List.map (Z.mul c) (child_llrs lambdas v kern_size sub_part j dn).
Proof.
  unfold child_llrs. rewrite List.map_map. apply map_ext. intros i.
  rewrite <- Hlam. f_equal.
  - rewrite List.map_map. apply map_ext. intros l'. apply (nth_scale c).
  - rewrite firstn_map, List.map_map. apply map_ext. intros n.
    by rewrite scale_s.
Qed.

Lemma decode_children_scaled
    (rec : list Z -> Generic_node Contents_MK_SC -> Generic_node Contents_MK_SC)
    v kern_size sub_part : forall todo1 todo2 dn,
  Forall2 (fun c1 c2 => forall u, length u = sub_part ->
                                  rec (List.map (Z.mul c) u) c2 = scale_llrs c (rec u c1))
          todo1 todo2 ->
  decode_children rec lambdas (List.map (Z.mul c) v) kern_size sub_part todo2
                  (List.map (scale_llrs c) dn)
  = List.map (scale_llrs c)
             (decode_children rec lambdas v kern_size sub_part todo1 dn).
Proof.
  intros todo1 todo2 dn H. revert dn.
  induction H as [|c1 c2 r1 r2 Hc12 _ IH]; intros dn; [reflexivity|].
  cbn [decode_children]. rewrite length_map, child_llrs_scaled.
  rewrite (Hc12 _ (child_llrs_length _ _ _ _ _ _)).
  rewrite <- IH. f_equal. by rewrite map_app.
Qed.

(** Decoding LLRs scaled by [c > 0] leaves the tree of the unscaled
    decode with its LLRs scaled: the decisions are the same. *)
Lemma decode_node_scaled : forall lv lane n1 n2 v,
  (lv <= L)%nat -> wf lv lane n1 -> wf lv lane n2 -> skeleton n1 = skeleton n2 ->
  length v = (b ^ lv)%nat ->
  dec (List.map (Z.mul c) v) n2 = scale_llrs c (dec v n1).
Proof.
  induction lv as [|lv IH]; intros lane n1 n2 v HL Hwf1 Hwf2 Hsk Hv.
  - destruct (wf_leaf_inv b frozen lane n1 Hwf1) as (c1 & x1 & y1 & -> & El1 & Es1 & Hf1).
    destruct (wf_leaf_inv b frozen lane n2 Hwf2) as (c2 & x2 & y2 & -> & El2 & Es2 & Hf2).
    rewrite !decode_node_leaf. cbn zeta. cbn in Hsk. injection Hsk as _ Hst.
    destruct v as [|x [|? ?]]; try discriminate Hv.
    cbn [scale_llrs List.map]. f_equal.
    apply contents_eq; cbn [l s is_frozen_bit stage with_s store_l with_l List.map length].
    + rewrite El1, El2. done.
    + rewrite Es1, Es2, El1, El2, Hf1, Hf2. cbn [drop app nth list_insert].
      unfold h_LLR. fold (signbit (c * x)). fold (signbit x).
      by rewrite (signbit_scale c Hc).
    + congruence.
    + congruence.
  - destruct (wf_internal_inv b frozen M Hb HM lv lane n1 Hwf1)
      as (c1 & ch1 & -> & Hne1 & Hlen1 & Hl1 & Hs1 & Hst1 & HF1).
    destruct (wf_internal_inv b frozen M Hb HM lv lane n2 Hwf2)
      as (c2 & ch2 & -> & Hne2 & Hlen2 & Hl2 & Hs2 & Hst2 & HF2).
    cbn [skeleton] in Hsk. injection Hsk as Hfz Hstg Hch.
    rewrite (decode_node_internal stages Ke lambdas lane c1 ch1 v Hne1).
    rewrite (decode_node_internal stages Ke lambdas lane c2 ch2 _ Hne2). cbn zeta.
    assert (l (store_l v c1) = v) as E1 by (apply (store_l_full b M Hb HM); lia).
    assert (l (store_l (List.map (Z.mul c) v) c2) = List.map (Z.mul c) v) as E2
      by (apply (store_l_full b M Hb HM); rewrite length_map; lia).
    rewrite E1, E2, Hlen1, Hlen2, length_map, Hv, (pow_succ_div b M Hb HM).
    set (sub := (b ^ lv)%nat).
    set (ch1' := decode_children dec lambdas v b sub ch1 []).
    assert (decode_children dec lambdas (List.map (Z.mul c) v) b sub ch2 []
            = List.map (scale_llrs c) ch1') as Ech.
    { apply (decode_children_scaled dec v b sub ch1 ch2 []).
      apply Forall2_same_length_lookup_2; [lia|].
      intros i x y Hx Hy u Hu.
      assert (i < b)%nat as Hi by (apply lookup_lt_Some in Hx; lia).
      pose proof (Forall2_lookup_lr _ _ _ _ _ _ HF1 (lookup_seq_lt _ _ _ Hi) Hx) as Hwx.
      pose proof (Forall2_lookup_lr _ _ _ _ _ _ HF2 (lookup_seq_lt _ _ _ Hi) Hy) as Hwy.
      apply (IH (lane * b + i)%nat); [lia|done|done| |done].
      apply (f_equal (fun l => l !! i)) in Hch.
      rewrite !list_lookup_fmap, Hx, Hy in Hch. cbn in Hch. congruence. }
    rewrite Ech.
    assert (length ch1' = b) as Hlen'.
    { pose proof (decode_node_shape b frozen stages Ke lambdas M L Hb HM HKe (S lv) lane
                    (Node lane c1 ch1) v HL Hwf1 ltac:(lia)) as (Hwf' & _ & _).
      rewrite (decode_node_internal stages Ke lambdas lane c1 ch1 v Hne1) in Hwf'.
      cbn zeta in Hwf'. rewrite E1, Hlen1, Hv, (pow_succ_div b M Hb HM) in Hwf'.
      destruct Hwf' as (_ & _ & _ & _ & HF').
      apply Forall2_length in HF'. rewrite length_seq in HF'. done. }
    assert (b ^ S lv = b * sub)%nat as Epow by apply Nat.pow_succ_r'.
    rewrite (reencode_spec' _ ch1' b sub) by (done || (cbn [s store_l with_l]; lia)).
    rewrite (reencode_spec' _ (List.map (scale_llrs c) ch1') b sub)
      by (rewrite ?length_map; done || (cbn [s store_l with_l]; lia)).
    cbn [scale_llrs]. f_equal.
    apply contents_eq; cbn [l s is_frozen_bit stage with_s store_l with_l get_c].
    + cbn [l store_l with_l] in E1, E2. congruence.
    + cbn [stage store_l with_l]. rewrite Hstg. f_equal.
      rewrite List.map_map. apply map_ext. intros n. by rewrite scale_s.
    + done.
    + done.
Qed.

Lemma recursive_store_scaled : forall lv lane (n : Generic_node Contents_MK_SC) V k,
  wf lv lane n ->
  recursive_store frozen (scale_llrs c n) V k = recursive_store frozen n V k.
Proof.
  induction lv as [|lv IH]; intros lane n V k Hwf.
  - destruct (wf_leaf_inv b frozen lane n Hwf) as (c1 & x1 & y1 & -> & El1 & Es1 & Hf1).
    done.
  - destruct (wf_internal_inv b frozen M Hb HM lv lane n Hwf)
      as (c1 & ch & -> & Hne & Hlen & Hl & Hs & Hst & HF).
    cbn [scale_llrs]. rewrite !store_internal by (done || by destruct ch).
    assert (Forall (fun c0 => forall V k, recursive_store frozen (scale_llrs c c0) V k
                                          = recursive_store frozen c0 V k) ch) as Hch.
    { eapply Forall2_Forall_any; [exact HF|]. intros j c0 H0 V0 k0.
      apply (IH (lane * b + j)%nat). exact H0. }
    clear -Hch. revert V k. induction Hch as [|c0 ch H0 _ IHch]; intros V k; [done|].
    cbn [List.map fold_left fst snd]. rewrite H0.
    destruct (recursive_store frozen c0 V k) as [V1 k1]. apply IHch.
Qed.

End DecodeScaled.


